(** * The Monte Carlo tree search agent of [mcts_agent.cpp]

    A shallow embedding of [Mcts_agent]: the statistics tree, the UCT
    selector, the expander, the rollout simulator, the backpropagator and
    the time-bounded driver [choose_move], with the properties of the design
    that can be stated over it.

    Conventions. Doubles are the primitive binary64 floats, so that
    overflow, NaN and the order of comparisons are those of the machine.
    Nodes and boards live in arenas and are designated by their index, so
    that sharing and copying are explicit. Loops whose end depends on the
    collaborators (the board, the clock) carry a step budget. The counters
    of a node are counted in [Z]; the maximum of their machine type is a
    parameter of what is stated about their values. Trace output
    ([is_verbose]) has no effect on any result and is left out. *)

From Stdlib Require Import ZArith Lia Bool String.
From Stdlib Require Import Floats.
From Stdlib Require Import Uint63.
From stdpp Require Import base option list.

Open Scope Z_scope.

(** * IEEE 754 binary64, as the agent uses it *)

Module IEEE.

(** [static_cast<double>] of an integer counter, and the implicit conversion
    of an [int] operand of a [double] operation. *)
Definition double_of_int (z : Z) : float :=
  if z <? 0 then (- of_uint63 (Uint63.of_Z (- z)))%float
  else of_uint63 (Uint63.of_Z z).

(** [std::numeric_limits<double>::max()], the largest finite double. *)
Definition DBL_MAX : float := 0x1.fffffffffffffp+1023%float.

(** The place of a value that is not NaN in the order that [SFcompare]
    decides: sign class first, then exponent, then mantissa. *)
Definition key (x : spec_float) : Z * Z * Z :=
  match x with
  | S754_zero _ => (0, 0, 0)
  | S754_infinity s => (if s then -2 else 2, 0, 0)
  | S754_nan => (0, 0, 0)
  | S754_finite s m e => if s then (-1, - e, Z.neg m) else (1, e, Z.pos m)
  end.

Definition lex_lt (a b : Z * Z * Z) : Prop :=
  let '(a1, a2, a3) := a in
  let '(b1, b2, b3) := b in
  a1 < b1 \/ (a1 = b1 /\ (a2 < b2 \/ (a2 = b2 /\ a3 < b3))).

Definition lex_cmp (a b : Z * Z * Z) : comparison :=
  let '(a1, a2, a3) := a in
  let '(b1, b2, b3) := b in
  match a1 ?= b1 with
  | Eq => match a2 ?= b2 with Eq => a3 ?= b3 | c => c end
  | c => c
  end.

Definition not_nan (x : spec_float) : Prop := x <> S754_nan.

(** Zero, a positive finite value or +infinity. *)
Definition nonneg_sf (x : spec_float) : Prop :=
  match x with
  | S754_zero false | S754_infinity false | S754_finite false _ _ => True
  | _ => False
  end.

End IEEE.

Import IEEE.

(** * Data model of the agent *)

(** The player marker. Its declaration is in a header that is not among the
    sources; the agent uses the three enumerators below. *)
Inductive Cell_state : Set := Empty | Blue | Red.

#[global] Instance Cell_state_eq_dec : EqDecision Cell_state.
Proof. solve_decision. Defined.

(** [std::pair<int, int>] *)
Abbreviation coordinate := (Z * Z)%type (only parsing).

Inductive exception : Set :=
  | logic_error (what : string)
  | runtime_error (what : string).

(** What a call can end in: a normal return, a C++ exception, behaviour the
    language leaves undefined (an out-of-range read, a null dereference, a
    draw from an empty range), or a loop that is still running when the
    model's step budget ends. *)
Inductive outcome (A : Type) : Type :=
  | Returned (a : A)
  | Thrown (e : exception)
  | Undefined
  | OutOfFuel.
Arguments Returned {A} a.
Arguments Thrown {A} e.
Arguments Undefined {A}.
Arguments OutOfFuel {A}.

#[global] Instance outcome_ret : MRet outcome := fun A a => Returned a.

#[global] Instance outcome_bind : MBind outcome := fun A B f m =>
  match m with
  | Returned a => f a
  | Thrown e => Thrown e
  | Undefined => Undefined
  | OutOfFuel => OutOfFuel
  end.

(** The board collaborator ([Board] is a class of the repository whose source
    is not at hand; the agent uses exactly these three members, and copies). *)
Class BoardOps (Board : Type) : Type := {
  get_valid_moves : Board -> list coordinate;
  make_move : Z -> Z -> Cell_state -> Board -> Board;
  check_winner : Board -> Cell_state
}.

(** The random engine of the agent and [std::uniform_int_distribution<>]:
    [uniform_int a b g] is one draw from the closed range [a..b]. *)
Class RandomOps (Gen : Type) : Type := {
  seed_generator : Z -> Gen;
  uniform_int : Z -> Z -> Gen -> Z * Gen
}.

(** What the run-time environment decides: the readings of
    [high_resolution_clock::now()], in the order the search asks for them
    (in ticks of the clock), and [thread::hardware_concurrency()]. *)
Record Env : Type := {
  now : nat -> Z;
  hardware_concurrency : nat
}.

(** ** Statistics nodes

    Nodes live in an arena; a [shared_ptr<Node>] is an index into it and
    [nullptr] is [None]. The counters are machine integers in the source;
    their type is declared in the absent header. They are counted here in
    [Z], which is what the machine holds as long as no counter is
    incremented at the maximum of its type; what a statement says about the
    value of a counter, it says for a maximum that the counters stay below
    ([observable_below], [within_range]). *)
Abbreviation node_ptr := nat (only parsing).

Record Node : Type := mkNode {
  win_count : Z;
  visit_count : Z;
  move : coordinate;
  player : Cell_state;
  child_nodes : list node_ptr;
  parent_node : option node_ptr
}.

(** [Mcts_agent::Node::Node] *)
Definition Node_new (player : Cell_state) (move : coordinate)
    (parent_node : option node_ptr) : Node :=
  {| win_count := 0; visit_count := 0; move := move; player := player;
     child_nodes := []; parent_node := parent_node |}.

Abbreviation tree := (list Node).

(** [std::make_shared<Node>(...)]: the new node takes the next free cell. *)
Definition make_shared (n : Node) (heap : tree) : node_ptr * tree :=
  (length heap, heap ++ [n]).

Definition push_back (child : node_ptr) (n : Node) : Node :=
  {| win_count := win_count n; visit_count := visit_count n; move := move n;
     player := player n; child_nodes := child_nodes n ++ [child];
     parent_node := parent_node n |}.

(** [visit_count += 1] and [win_count += 1], on a counter below the maximum
    of its type. *)
Definition credit_visit (n : Node) : Node :=
  {| win_count := win_count n; visit_count := visit_count n + 1; move := move n;
     player := player n; child_nodes := child_nodes n;
     parent_node := parent_node n |}.

Definition credit_win (n : Node) : Node :=
  {| win_count := win_count n + 1; visit_count := visit_count n; move := move n;
     player := player n; child_nodes := child_nodes n;
     parent_node := parent_node n |}.

(** The members of [Mcts_agent]. [arena] holds the nodes that [root] owns. *)
Record Mcts_agent (Gen : Type) : Type := mkAgent {
  exploration_factor : float;
  max_decision_time : Z;
  is_parallelized : bool;
  is_verbose : bool;
  random_generator : Gen;
  root : option node_ptr;
  arena : tree
}.
Arguments mkAgent {Gen}.
Arguments exploration_factor {Gen}.
Arguments max_decision_time {Gen}.
Arguments is_parallelized {Gen}.
Arguments is_verbose {Gen}.
Arguments random_generator {Gen}.
Arguments root {Gen}.
Arguments arena {Gen}.

Definition set_generator {Gen} (g : Gen) (a : Mcts_agent Gen) : Mcts_agent Gen :=
  mkAgent (exploration_factor a) (max_decision_time a) (is_parallelized a)
          (is_verbose a) g (root a) (arena a).

Definition set_tree {Gen} (r : option node_ptr) (h : tree) (a : Mcts_agent Gen)
    : Mcts_agent Gen :=
  mkAgent (exploration_factor a) (max_decision_time a) (is_parallelized a)
          (is_verbose a) (random_generator a) r h.

Definition set_arena {Gen} (h : tree) (a : Mcts_agent Gen) : Mcts_agent Gen :=
  set_tree (root a) h a.

Definition is_Empty (c : Cell_state) : bool :=
  match c with Empty => true | _ => false end.

(** [(current_player == Cell_state::Blue) ? Cell_state::Red : Cell_state::Blue] *)
Definition opponent (current_player : Cell_state) : Cell_state :=
  match current_player with Blue => Red | _ => Blue end.

Section Agent.

Context {Board Gen : Type} `{!BoardOps Board} `{!RandomOps Gen}.

(** [std::log], of the C library. *)
Variable log : float -> float.

(** [Mcts_agent::Mcts_agent]. [entropy] is what [random_device()] yields.
    The initialiser list names every member but [is_parallelized], which
    keeps the value [declared_parallel] that the class declaration gives it. *)
Definition Mcts_agent_new (declared_parallel : bool) (entropy : Z)
    (exploration_factor : float) (max_decision_time : Z)
    (is_parallelized is_verbose : bool) : outcome (Mcts_agent Gen) :=
  if is_parallelized && is_verbose then
    Thrown (logic_error
      "Concurrent playouts and verbose mode do not make sense together.")
  else
    Returned (mkAgent exploration_factor max_decision_time declared_parallel
                      is_verbose (seed_generator entropy) None []).

(** [Mcts_agent::expand_node], the loop over [valid_moves]. *)
Fixpoint expand_loop (node : node_ptr) (valid_moves : list coordinate)
    (heap : tree) : outcome tree :=
  match valid_moves with
  | [] => Returned heap
  | move :: valid_moves' =>
    match heap !! node with
    | None => Undefined
    | Some n =>
      let '(new_child, heap) :=
        make_shared (Node_new (player n) move (Some node)) heap in
      expand_loop node valid_moves' (<[node := push_back new_child n]> heap)
    end
  end.

Definition expand_node (node : node_ptr) (board : Board) (heap : tree)
    : outcome tree :=
  expand_loop node (get_valid_moves board) heap.

(** [Mcts_agent::calculate_uct_score] *)
Definition calculate_uct_score (exploration_factor : float)
    (child_node parent_node : Node) : float :=
  if visit_count child_node =? 0 then DBL_MAX
  else
    (double_of_int (win_count child_node) / double_of_int (visit_count child_node)
     + exploration_factor
       * PrimFloat.sqrt (log (double_of_int (visit_count parent_node))
               / double_of_int (visit_count child_node)))%float.

(** [Mcts_agent::select_child], the loop from the second child on. *)
Fixpoint select_loop (exploration_factor : float) (heap : tree)
    (parent : Node) (rest : list node_ptr)
    (best_child : node_ptr) (max_score : float) : outcome node_ptr :=
  match rest with
  | [] => Returned best_child
  | child :: rest' =>
    match heap !! child with
    | None => Undefined
    | Some c =>
      let uct_score := calculate_uct_score exploration_factor c parent in
      if (max_score <? uct_score)%float
      then select_loop exploration_factor heap parent rest' child uct_score
      else select_loop exploration_factor heap parent rest' best_child max_score
    end
  end.

Definition select_child (exploration_factor : float) (parent_node : node_ptr)
    (heap : tree) : outcome node_ptr :=
  match heap !! parent_node with
  | None => Undefined
  | Some parent =>
    match child_nodes parent with
    | [] => Undefined
    | best_child :: rest =>
      match heap !! best_child with
      | None => Undefined
      | Some c =>
        select_loop exploration_factor heap parent rest best_child
                    (calculate_uct_score exploration_factor c parent)
      end
    end
  end.

(** [Mcts_agent::simulate_random_playout], the [while] loop. The board that
    is played on is the callee's own object, at address [local] of the
    store of boards. *)
Fixpoint playout_loop (fuel : nat) (local : nat) (current_player : Cell_state)
    (boards : list Board) (gen : Gen)
    : outcome (Cell_state * list Board * Gen) :=
  match fuel with
  | O => OutOfFuel
  | S fuel' =>
    match boards !! local with
    | None => Undefined
    | Some board =>
      if is_Empty (check_winner board) then
        let current_player := opponent current_player in
        let valid_moves := get_valid_moves board in
        let last := Z.of_nat (length valid_moves) - 1 in
        if last <? 0 then Undefined
        else
          let '(index, gen) := uniform_int 0 last gen in
          if index <? 0 then Undefined
          else
            match valid_moves !! Z.to_nat index with
            | None => Undefined
            | Some random_move =>
              let board :=
                make_move (fst random_move) (snd random_move) current_player board in
              let boards := <[local := board]> boards in
              if negb (is_Empty (check_winner board))
              then Returned (current_player, boards, gen)
              else playout_loop fuel' local current_player boards gen
            end
      else Returned (current_player, boards, gen)
    end
  end.

(** [Mcts_agent::simulate_random_playout]. The parameter [Board board] is
    passed by value: the callee gets a copy of the object at [board], in a
    fresh cell that is released when the call returns. *)
Definition simulate_random_playout (fuel : nat) (node : Node) (board : nat)
    (boards : list Board) (gen : Gen) : outcome (Cell_state * list Board * Gen) :=
  match boards !! board with
  | None => Undefined
  | Some original =>
    let local := length boards in
    let current_player := player node in
    let copy :=
      make_move (fst (move node)) (snd (move node)) current_player original in
    match playout_loop fuel local current_player (boards ++ [copy]) gen with
    | Returned (winner, boards, gen) => Returned (winner, take local boards, gen)
    | Thrown e => Thrown e
    | Undefined => Undefined
    | OutOfFuel => OutOfFuel
    end
  end.

(** [Mcts_agent::backpropagate] *)
Fixpoint backpropagate (fuel : nat) (current_node : option node_ptr)
    (winner : Cell_state) (heap : tree) : outcome tree :=
  match current_node with
  | None => Returned heap
  | Some p =>
    match fuel with
    | O => OutOfFuel
    | S fuel' =>
      match heap !! p with
      | None => Undefined
      | Some n =>
        let n := credit_visit n in
        let n := if decide (winner = player n) then credit_win n else n in
        backpropagate fuel' (parent_node n) winner (<[p := n]> heap)
      end
    end
  end.


(** [choose_move], one pass through the body of the [while] loop. In
    parallel mode the threads of a batch share the generator without
    synchronisation. The playouts are taken here in the order of their
    thread index, which is what happens when the batch has at most one
    thread; other interleavings are not modelled, and what is stated of a
    larger batch does not depend on which results its rollouts yield. *)
Fixpoint playout_batch (fuel : nat) (number_of_threads : nat) (node : Node)
    (board : nat) (boards : list Board) (gen : Gen)
    : outcome (list Cell_state * list Board * Gen) :=
  match number_of_threads with
  | O => Returned ([], boards, gen)
  | S threads' =>
    '(winner, boards, gen) ← simulate_random_playout fuel node board boards gen;
    '(results, boards, gen) ← playout_batch fuel threads' node board boards gen;
    Returned (winner :: results, boards, gen)
  end.

Fixpoint backpropagate_results (fuel : nat) (node : node_ptr)
    (results : list Cell_state) (heap : tree) : outcome tree :=
  match results with
  | [] => Returned heap
  | playout_winner :: results' =>
    heap ← backpropagate fuel (Some node) playout_winner heap;
    backpropagate_results fuel node results' heap
  end.

(** The agent together with the boards it can reach: [choose_move] gets the
    caller's board by reference, as an address in [boards]. *)
Record world : Type := mkWorld {
  this : Mcts_agent Gen;
  boards : list Board
}.

Definition iteration (fuel : nat) (env : Env) (board : nat) (w : world)
    : outcome world :=
  let agent := this w in
  match root agent with
  | None => Undefined
  | Some r =>
    chosen_child ← select_child (exploration_factor agent) r (arena agent);
    match arena agent !! chosen_child with
    | None => Undefined
    | Some node =>
      if is_parallelized agent then
        '(results, boards, gen) ←
          playout_batch fuel (hardware_concurrency env) node board (boards w)
                        (random_generator agent);
        heap ← backpropagate_results fuel chosen_child results (arena agent);
        Returned (mkWorld (set_arena heap (set_generator gen agent)) boards)
      else
        '(playout_winner, boards, gen) ←
          simulate_random_playout fuel node board (boards w)
                                  (random_generator agent);
        heap ← backpropagate fuel (Some chosen_child) playout_winner (arena agent);
        Returned (mkWorld (set_arena heap (set_generator gen agent)) boards)
    end
  end.

(** The [while] loop: [tick] counts the readings of the clock so far. *)
Fixpoint search_loop (fuel : nat) (steps : nat) (env : Env) (end_time : Z)
    (tick : nat) (board : nat) (w : world) : outcome world :=
  match steps with
  | O => OutOfFuel
  | S steps' =>
    if now env tick <? end_time then
      w ← iteration fuel env board w;
      search_loop fuel steps' env end_time (S tick) board w
    else Returned w
  end.

(** The scan of the root's children after the loop. *)
Fixpoint best_child_loop (heap : tree) (children : list node_ptr)
    (max_win_ratio : float) (best_child : option node_ptr)
    : outcome (option node_ptr) :=
  match children with
  | [] => Returned best_child
  | child :: children' =>
    match heap !! child with
    | None => Undefined
    | Some c =>
      let win_ratio :=
        (double_of_int (win_count c) / double_of_int (visit_count c))%float in
      if (max_win_ratio <? win_ratio)%float
      then best_child_loop heap children' win_ratio (Some child)
      else best_child_loop heap children' max_win_ratio best_child
    end
  end.

Definition insufficient_statistics : exception :=
  runtime_error "Statistics are not sufficient to find the best child.".

Definition decide_move (heap : tree) (root : node_ptr) : outcome coordinate :=
  match heap !! root with
  | None => Undefined
  | Some r =>
    best_child ← best_child_loop heap (child_nodes r) (-1)%float None;
    match best_child with
    | None => Thrown insufficient_statistics
    | Some best =>
      match heap !! best with
      | None => Undefined
      | Some c => Returned (move c)
      end
    end
  end.

(** [Mcts_agent::choose_move] up to the end of the [while] loop: the root is
    made and expanded, the start time is read, and the loop runs until the
    clock has reached the end time. *)
Definition search (fuel : nat) (env : Env) (board : nat) (player : Cell_state)
    (w : world) : outcome world :=
  let '(r, heap) := make_shared (Node_new player (-1, -1) None) [] in
  match boards w !! board with
  | None => Undefined
  | Some b =>
    heap ← expand_node r b heap;
    let w := mkWorld (set_tree (Some r) heap (this w)) (boards w) in
    let start_time := now env 0 in
    let end_time := start_time + max_decision_time (this w) in
    search_loop fuel fuel env end_time 1 board w
  end.

(** [Mcts_agent::choose_move]. The second component is the state that the
    call leaves behind when it returns or throws. *)
Definition choose_move (fuel : nat) (env : Env) (board : nat)
    (player : Cell_state) (w : world) : outcome coordinate * world :=
  match search fuel env board player w with
  | Returned w' =>
    match root (this w') with
    | None => (Undefined, w')
    | Some r => (decide_move (arena (this w')) r, w')
    end
  | Thrown e => (Thrown e, w)
  | Undefined => (Undefined, w)
  | OutOfFuel => (OutOfFuel, w)
  end.

End Agent.

(** * Notions the statements use *)

(** The nodes that a list of pointers designates, when all of them are live. *)
Definition deref_all (heap : tree) (ptrs : list node_ptr) : option (list Node) :=
  mapM (fun p => heap !! p) ptrs.

Definition add_children (cs : list node_ptr) (n : Node) : Node :=
  {| win_count := win_count n; visit_count := visit_count n; move := move n;
     player := player n; child_nodes := child_nodes n ++ cs;
     parent_node := parent_node n |}.

(** [0 <= win_count <= visit_count] *)
Definition counters_ok (n : Node) : Prop :=
  0 <= win_count n <= visit_count n.

(** The win ratio as the final scan computes it. *)
Definition win_ratio (c : Node) : float :=
  (double_of_int (win_count c) / double_of_int (visit_count c))%float.

(** What [winner] adds to the counters of one node in one pass of the loop
    of [backpropagate]. *)
Definition credit (winner : Cell_state) (n : Node) : Node :=
  let n := credit_visit n in
  if decide (winner = player n) then credit_win n else n.

(** [n'] is [n] after some credits: nothing but the counters changed, and
    the wins grew by no more than the visits. *)
Definition credited (n n' : Node) : Prop :=
  move n' = move n /\ player n' = player n /\
  child_nodes n' = child_nodes n /\ parent_node n' = parent_node n /\
  0 <= win_count n' - win_count n <= visit_count n' - visit_count n.

(** The states of the arena that a search goes through: nodes are
    constructed, linked to their parent, and credited, where a credit is
    the increment of [visit_count], alone or followed by the increment of
    [win_count] under the same lock. *)
Inductive observable : tree -> Prop :=
  | obs_empty : observable []
  | obs_construct heap player move parent :
      observable heap ->
      observable (snd (make_shared (Node_new player move parent) heap))
  | obs_link heap p n child :
      observable heap -> heap !! p = Some n ->
      observable (<[p := push_back child n]> heap)
  | obs_visit heap p n :
      observable heap -> heap !! p = Some n ->
      observable (<[p := credit_visit n]> heap)
  | obs_win heap p n :
      observable heap -> heap !! p = Some n ->
      observable (<[p := credit_win (credit_visit n)]> heap).

Definition completed {A} (o : outcome A) : Prop :=
  match o with Returned _ | Thrown _ => True | _ => False end.

Definition not_thrown {A} (o : outcome A) : Prop :=
  match o with Thrown _ => False | _ => True end.

(** The tree of a search: the root, without a parent, and one child of the
    root per legal move, carrying the player the search is for. *)
Definition tree_shape (pl : Cell_state) (moves : list (Z * Z))
    (heap : tree) : Prop :=
  (exists r, heap !! 0%nat = Some r /\ parent_node r = None /\
             child_nodes r = seq 1 (length moves)) /\
  (forall p, (1 <= p <= length moves)%nat ->
     exists c, heap !! p = Some c /\ parent_node c = Some 0%nat /\
               player c = pl /\ move c ∈ moves).

(** No node has been visited more than [m] times. *)
Definition visits_le (m : Z) (heap : tree) : Prop :=
  Forall (fun n => visit_count n <= m) heap.

Section RolloutSpec.

Context {Board Gen : Type} `{!BoardOps Board} `{!RandomOps Gen}.

(** The loop of the simulator as a relation, from the board on which the
    node's move has been played: when the board reports a winner, the
    current player is the result; otherwise the turn passes as the code
    passes it ([opponent]), one index into the legal moves is drawn from
    the uniform distribution over all of them, that move is played, and the
    rollout goes on from there. The design's own reading of the turn is
    [alternating_rollout]. *)
Inductive rollout : Board -> Cell_state -> Gen -> Cell_state -> Gen -> Prop :=
  | rollout_won board current gen :
      check_winner board <> Empty ->
      rollout board current gen current gen
  | rollout_move board current gen index gen' random_move winner gen'' :
      check_winner board = Empty ->
      uniform_int 0 (Z.of_nat (length (get_valid_moves board)) - 1) gen
        = (index, gen') ->
      0 <= index ->
      get_valid_moves board !! Z.to_nat index = Some random_move ->
      rollout (make_move (fst random_move) (snd random_move)
                         (opponent current) board)
              (opponent current) gen' winner gen'' ->
      rollout board current gen winner gen''.

End RolloutSpec.

Section ScanDef.

Context {A : Type} (score : A -> float).

(** The body that [select_child] and the final scan of [choose_move] have in
    common, on the children already dereferenced. *)
Fixpoint scan (items : list A) (max : float) (best : option A) : option A :=
  match items with
  | [] => best
  | x :: rest =>
    if (max <? score x)%float then scan rest (score x) (Some x)
    else scan rest max best
  end.

(** [x], at position [i], is the first maximum among the items whose score
    is a number. *)
Definition first_max (items : list A) (i : nat) (x : A) : Prop :=
  items !! i = Some x /\ is_nan (score x) = false /\
  (forall j y, (j < i)%nat -> items !! j = Some y -> is_nan (score y) = false ->
     (score y <? score x)%float = true) /\
  (forall j y, (i < j)%nat -> items !! j = Some y -> is_nan (score y) = false ->
     (score y <=? score x)%float = true).

End ScanDef.

Section SearchNotions.

Context {Board Gen : Type}.

(** What the passes of the loop leave as it is: the boards, the root, the
    configuration of the agent and the tree but for the credits. *)
Definition same_search (w w' : @world Board Gen) : Prop :=
  Forall2 credited (arena (this w)) (arena (this w')) /\
  root (this w') = root (this w) /\
  exploration_factor (this w') = exploration_factor (this w) /\
  max_decision_time (this w') = max_decision_time (this w) /\
  is_parallelized (this w') = is_parallelized (this w) /\
  boards w' = boards w.

(** The passes of the loop take a state of the arena that a search goes
    through to another one. *)
Definition keeps_observable (w w' : @world Board Gen) : Prop :=
  observable (arena (this w)) -> observable (arena (this w')).

(** The loop test succeeds at the first [n] readings after the start and
    fails at the next one. *)
Definition passes (env : Env) (budget : Z) (n : nat) : Prop :=
  (forall k, (1 <= k <= n)%nat -> now env k < now env 0 + budget) /\
  now env 0 + budget <= now env (S n).

(** The number of rollouts of one pass. *)
Definition batch_size (env : Env) (w : @world Board Gen) : nat :=
  if is_parallelized (this w) then hardware_concurrency env else 1%nat.

End SearchNotions.

(** A world in which a pass of the search for [pl] from [b] can run: the
    caller's board is there, and the tree is that of a search from it. *)
Definition ready {Board Gen : Type} `{!BoardOps Board} (b : Board)
    (pl : Cell_state) (board : nat) (w : @world Board Gen) : Prop :=
  boards w !! board = Some b /\ root (this w) = Some 0%nat /\
  tree_shape pl (get_valid_moves b) (arena (this w)).

(** ** Notions for the effect of a search on the tree *)

(** The credits of the results of a batch, in their order. *)
Definition credit_all (results : list Cell_state) (n : Node) : Node :=
  foldl (fun n winner => credit winner n) n results.

(** How many of the results name [pl]. *)
Definition wins_of (pl : Cell_state) (results : list Cell_state) : Z :=
  Z.of_nat (length (filter (fun winner => winner = pl) results)).

(** [i] is on the way from [p] up to the root, along the parent pointers. *)
Inductive on_path (heap : tree) : node_ptr -> node_ptr -> Prop :=
  | on_path_here p : on_path heap p p
  | on_path_up p n q i :
      heap !! p = Some n -> parent_node n = Some q -> on_path heap q i ->
      on_path heap p i.

(** Every parent pointer designates an earlier cell of the arena, as in an
    arena filled by [make_shared] from the root downwards. *)
Definition parents_first (heap : tree) : Prop :=
  forall i n q, heap !! i = Some n -> parent_node n = Some q -> (q < i)%nat.

Definition sum_visits (nodes : list Node) : Z :=
  foldr (fun n s => visit_count n + s) 0 nodes.

Definition sum_wins (nodes : list Node) : Z :=
  foldr (fun n s => win_count n + s) 0 nodes.

(** The tree of a search for [pl] over the legal moves [moves]: the root in
    the first cell, then one leaf per move, in the order of the moves. *)
Definition flat_tree (pl : Cell_state) (moves : list (Z * Z)) (heap : tree)
    : Prop :=
  exists r leaves,
    heap = r :: leaves /\
    move r = (-1, -1) /\ player r = pl /\ parent_node r = None /\
    child_nodes r = seq 1 (length moves) /\
    Forall2 (fun c mv => move c = mv /\ player c = pl /\
                         parent_node c = Some 0%nat /\ child_nodes c = [])
            leaves moves.

(** The root has [m] visits, which are those of the leaves taken together,
    and its wins are those of the leaves taken together. *)
Definition totals (m : Z) (heap : tree) : Prop :=
  exists r leaves,
    heap = r :: leaves /\ visit_count r = m /\
    sum_visits leaves = m /\ sum_wins leaves = win_count r.

(** ** Notions for comparing the two modes *)

Definition outcome_map {A B} (f : A -> B) (o : outcome A) : outcome B :=
  match o with
  | Returned a => Returned (f a)
  | Thrown e => Thrown e
  | Undefined => Undefined
  | OutOfFuel => OutOfFuel
  end.

(** The same agent with its member [is_parallelized] set to [flag]. *)
Definition set_parallel {Gen} (flag : bool) (a : Mcts_agent Gen)
    : Mcts_agent Gen :=
  mkAgent (exploration_factor a) (max_decision_time a) flag (is_verbose a)
          (random_generator a) (root a) (arena a).

Definition in_mode {Board Gen} (flag : bool) (w : @world Board Gen)
    : @world Board Gen :=
  mkWorld (set_parallel flag (this w)) (boards w).

(** ** Notions for the order in which the children are tried *)

(** The scores of visited children stay below the score of an unvisited
    one, for counters up to [bound]. *)
Definition tame (log : float -> float) (exploration_factor : float)
    (bound : Z) : Prop :=
  forall c r : Node,
    counters_ok c -> 0 < visit_count c <= bound -> 0 < visit_count r <= bound ->
    (calculate_uct_score log exploration_factor c r <? DBL_MAX)%float = true.

(** The first [k] of the leaves have had one batch of [size] rollouts each,
    the others none. *)
Definition tried_in_order (size : Z) (k : nat) (leaves : list Node) : Prop :=
  forall i c, leaves !! i = Some c ->
    ((i < k)%nat -> visit_count c = size) /\
    ((k <= i)%nat -> visit_count c = 0).

(** ** What the loop keeps from pass to pass *)

Section LoopInvariants.

Context {Board Gen : Type} `{!BoardOps Board}.
Variables (b : Board) (pl : Cell_state).

(** A search for [pl] from [b] in which [m] rollouts have been run. *)
Definition kept (board : nat) (m : Z) (w : @world Board Gen) : Prop :=
  boards w !! board = Some b /\ root (this w) = Some 0%nat /\
  flat_tree pl (get_valid_moves b) (arena (this w)) /\
  totals m (arena (this w)).

(** The state of the loop after [k] passes that tried the first [k]
    children, with batches of [size] rollouts. *)
Definition tried (board : nat) (size : Z) (k : nat) (w : @world Board Gen)
    : Prop :=
  ready b pl board w /\
  exists r leaves,
    arena (this w) = r :: leaves /\
    length leaves = length (get_valid_moves b) /\
    child_nodes r = seq 1 (length leaves) /\
    visit_count r = Z.of_nat k * size /\
    Forall counters_ok leaves /\
    tried_in_order size k leaves.

End LoopInvariants.

(** ** The counters within the range of their machine type *)

(** A node whose counters are in order and have not passed [counter_max],
    the maximum of the machine type that holds them. *)
Definition within_range (counter_max : Z) (n : Node) : Prop :=
  0 <= win_count n <= visit_count n /\ visit_count n <= counter_max.

(** The states of the arena that a search goes through on a machine whose
    counters have the maximum [counter_max]: nodes are constructed and
    linked as in [observable], and a counter is incremented only while it
    is below the maximum, where the increment of the machine is the
    successor. *)
Inductive observable_below (counter_max : Z) : tree -> Prop :=
  | below_empty : observable_below counter_max []
  | below_construct heap player move parent :
      0 <= counter_max ->
      observable_below counter_max heap ->
      observable_below counter_max
        (snd (make_shared (Node_new player move parent) heap))
  | below_link heap p n child :
      observable_below counter_max heap -> heap !! p = Some n ->
      observable_below counter_max (<[p := push_back child n]> heap)
  | below_visit heap p n :
      observable_below counter_max heap -> heap !! p = Some n ->
      visit_count n < counter_max ->
      observable_below counter_max (<[p := credit_visit n]> heap)
  | below_win heap p n :
      observable_below counter_max heap -> heap !! p = Some n ->
      visit_count n < counter_max ->
      observable_below counter_max (<[p := credit_win (credit_visit n)]> heap).

(** ** The rollout as the design describes it *)

(** The opposing player, of the two players of the game. *)
Inductive other_player : Cell_state -> Cell_state -> Prop :=
  | other_than_Blue : other_player Blue Red
  | other_than_Red : other_player Red Blue.

Section DesignedRollout.

Context {Board Gen : Type} `{!BoardOps Board} `{!RandomOps Gen}.

(** From the board on which the node's move has been played: when the
    board reports a winner, the player who is current is the result;
    otherwise the opposing player becomes current, one index into the legal
    moves is drawn from the uniform distribution over all of them, the
    opposing player plays that move, and the rollout goes on from there. *)
Inductive alternating_rollout
    : Board -> Cell_state -> Gen -> Cell_state -> Gen -> Prop :=
  | alternating_won board current gen :
      check_winner board <> Empty ->
      alternating_rollout board current gen current gen
  | alternating_move board current opposing gen index gen' random_move
      winner gen'' :
      check_winner board = Empty ->
      other_player current opposing ->
      uniform_int 0 (Z.of_nat (length (get_valid_moves board)) - 1) gen
        = (index, gen') ->
      0 <= index ->
      get_valid_moves board !! Z.to_nat index = Some random_move ->
      alternating_rollout
        (make_move (fst random_move) (snd random_move) opposing board)
        opposing gen' winner gen'' ->
      alternating_rollout board current gen winner gen''.

End DesignedRollout.

(** The number of nodes from [current] up to the root, along the parent
    pointers. *)
Inductive height (heap : tree) : option node_ptr -> nat -> Prop :=
  | height_null : height heap None 0
  | height_up p n k :
      heap !! p = Some n -> height heap (parent_node n) k ->
      height heap (Some p) (S k).

(** * Concrete collaborators, to run the agent on *)

Module Examples.

(** Hex on a 2 x 2 board, cells in row-major order. Blue joins the top row to
    the bottom row, Red the left column to the right column; (0,1) and (1,0)
    are neighbours. *)
Definition Hex2 : Type := list Cell_state.

Definition free_cells (width : Z) (b : list Cell_state) : list (Z * Z) :=
  omap (fun '(i, c) =>
          if is_Empty c then Some (Z.of_nat i / width, Z.of_nat i mod width)
          else None)
       (imap (fun i c => (i, c)) b).

Definition owns (b : list Cell_state) (p : Cell_state) (i : nat) : bool :=
  match b !! i with Some c => bool_decide (c = p) | None => false end.

Definition hex2_winner (b : Hex2) : Cell_state :=
  let blue := owns b Blue in
  let red := owns b Red in
  if (blue 0%nat && blue 2%nat) || (blue 1%nat && blue 3%nat)
     || (blue 1%nat && blue 2%nat)
  then Blue
  else if (red 0%nat && red 1%nat) || (red 2%nat && red 3%nat)
          || (red 2%nat && red 1%nat)
  then Red
  else Empty.

#[global] Instance hex2_board : BoardOps Hex2 := {|
  get_valid_moves := free_cells 2;
  make_move := fun x y p b => <[Z.to_nat (2 * x + y) := p]> b;
  check_winner := hex2_winner
|}.

(** A game that can end without a winner: two cells in a row, won by the
    player who holds both. *)
Definition pair2_winner (b : list Cell_state) : Cell_state :=
  if owns b Blue 0%nat && owns b Blue 1%nat then Blue
  else if owns b Red 0%nat && owns b Red 1%nat then Red
  else Empty.

Definition pair2_board : BoardOps (list Cell_state) := {|
  get_valid_moves := free_cells 2;
  make_move := fun x y p b => <[Z.to_nat (2 * x + y) := p]> b;
  check_winner := pair2_winner
|}.

(** A linear congruential generator; a draw from [a..b] reduces the upper
    bits of the state modulo the size of the range. *)
Definition Lcg : Type := Z.

#[global] Instance lcg_random : RandomOps Lcg := {|
  seed_generator := fun seed => seed mod 2 ^ 31;
  uniform_int := fun a b g =>
    (a + (g / 2 ^ 16) mod (b - a + 1), (1103515245 * g + 12345) mod 2 ^ 31)
|}.

(** Natural logarithms of the first integers, to the nearest [double]. *)
Definition log_table (x : float) : float :=
  if (x =? 1)%float then 0%float
  else if (x =? 2)%float then 0x1.62e42fefa39efp-1%float
  else if (x =? 3)%float then 0x1.193ea7aad030bp+0%float
  else if (x =? 4)%float then 0x1.62e42fefa39efp+0%float
  else if (x =? 5)%float then 0x1.9c041f7ed8d33p+0%float
  else if (x =? 6)%float then 0x1.cab0bfa2a2002p+0%float
  else nan.

(** A clock that advances [step] ticks per reading, from [origin]. *)
Definition clock (origin step : Z) (threads : nat) : Env :=
  {| now := fun k => origin + step * Z.of_nat k; hardware_concurrency := threads |}.

(** An agent with exploration factor [ef], single-threaded and quiet. *)
Definition agent_with (ef : float) (budget : Z) (seed : Z) : Mcts_agent Lcg :=
  mkAgent ef budget false false (seed_generator seed) None [].

Definition sqrt2 : float := 0x1.6a09e667f3bcdp+0%float.

Definition empty_board : Hex2 := [Empty; Empty; Empty; Empty].

(** A finished game: Red holds (0,1) and (1,0). *)
Definition full_board : Hex2 := [Blue; Red; Red; Blue].

(** Blue to move with two cells left: (1,0) joins Blue's rows at once,
    (0,1) leaves (1,0) to Red, who then joins the columns. *)
Definition endgame_board : Hex2 := [Blue; Empty; Empty; Red].

Definition started (budget : Z) (b : Hex2) : world :=
  mkWorld (agent_with sqrt2 budget 3) [b].

(** One search for Blue from [b], under a clock that ticks once per
    reading. *)
Definition run (budget : Z) (b : Hex2) : outcome (Z * Z) * world :=
  choose_move log_table 20 (clock 0 1 0) 0 Blue (started budget b).

(** The arena after three passes of the loop from [empty_board] with the
    largest finite [double] as exploration factor: three children visited
    once, the fourth not yet. *)
Definition three_tried : tree :=
  [ mkNode 2 3 (-1, -1) Blue [1%nat; 2%nat; 3%nat; 4%nat] None;
    mkNode 0 1 (0, 0) Blue [] (Some 0%nat);
    mkNode 1 1 (0, 1) Blue [] (Some 0%nat);
    mkNode 1 1 (1, 0) Blue [] (Some 0%nat);
    mkNode 0 0 (1, 1) Blue [] (Some 0%nat) ].

(** The same game on a board that reports the other player as the winner. *)
Definition hex2_swapped : BoardOps Hex2 := {|
  get_valid_moves := free_cells 2;
  make_move := fun x y p b => <[Z.to_nat (2 * x + y) := p]> b;
  check_winner := fun b =>
    match hex2_winner b with Blue => Red | Red => Blue | Empty => Empty end
|}.

(** The boards of the game: four cells. *)
Definition hex2_good (b : Hex2) : Prop := length b = 4%nat.

(** A tree of depth two: the root, two children, and a child of the first
    child. *)
Definition deep_tree : tree :=
  [ mkNode 1 2 (-1, -1) Blue [1%nat; 3%nat] None;
    mkNode 1 1 (0, 0) Blue [2%nat] (Some 0%nat);
    mkNode 0 0 (0, 1) Red [] (Some 1%nat);
    mkNode 0 1 (1, 1) Blue [] (Some 0%nat) ].

(** The tree of a search from [empty_board] before the first pass. *)
Definition expanded_empty : tree :=
  [ mkNode 0 0 (-1, -1) Blue [1%nat; 2%nat; 3%nat; 4%nat] None;
    mkNode 0 0 (0, 0) Blue [] (Some 0%nat);
    mkNode 0 0 (0, 1) Blue [] (Some 0%nat);
    mkNode 0 0 (1, 0) Blue [] (Some 0%nat);
    mkNode 0 0 (1, 1) Blue [] (Some 0%nat) ].

(** An agent in single mode about to make its first pass. *)
Definition expanded_single : world :=
  mkWorld (mkAgent sqrt2 6 false false (seed_generator 3) (Some 0%nat)
                   expanded_empty) [empty_board].

(** That agent after its first pass: one rollout from (0,0), won by Red. *)
Definition after_first_pass : world :=
  mkWorld (mkAgent sqrt2 6 false false 679304702 (Some 0%nat)
    [ mkNode 0 1 (-1, -1) Blue [1%nat; 2%nat; 3%nat; 4%nat] None;
      mkNode 0 1 (0, 0) Blue [] (Some 0%nat);
      mkNode 0 0 (0, 1) Blue [] (Some 0%nat);
      mkNode 0 0 (1, 0) Blue [] (Some 0%nat);
      mkNode 0 0 (1, 1) Blue [] (Some 0%nat) ]) [empty_board].

(** The maximum of a 32-bit signed counter. *)
Definition int32_max : Z := 2147483647.

End Examples.

(** * Order and sign of [double] values *)

Module FloatFacts.

Lemma spec_float_nan_dec (x : spec_float) : {x = S754_nan} + {x <> S754_nan}.
Proof. destruct x; (left; reflexivity) || (right; discriminate). Defined.

Lemma SFcompare_key x y :
  x <> S754_nan -> y <> S754_nan ->
  SFcompare x y = Some (lex_cmp (key x) (key y)).
Proof.
  intros Hx Hy.
  destruct x as [[]|[]| |[] mx ex], y as [[]|[]| |[] my ey];
    try congruence; try reflexivity; cbn [SFcompare key lex_cmp].
  rewrite Z.compare_opp, (Z.compare_antisym ex ey).
  destruct (ex ?= ey); cbn; reflexivity.
Qed.

Lemma SFcompare_nan_l y : SFcompare S754_nan y = None.
Proof. reflexivity. Qed.

Lemma SFcompare_nan_r x : SFcompare x S754_nan = None.
Proof. destruct x as [[]|[]| |[] ? ?]; reflexivity. Qed.

Lemma lex_cmp_Lt a b : lex_cmp a b = Lt <-> lex_lt a b.
Proof.
  destruct a as [[a1 a2] a3], b as [[b1 b2] b3]; cbn.
  destruct (Z.compare_spec a1 b1), (Z.compare_spec a2 b2), (Z.compare_spec a3 b3);
    split; intros; try discriminate; try reflexivity; lia.
Qed.

Lemma lex_cmp_Eq a b : lex_cmp a b = Eq <-> a = b.
Proof.
  destruct a as [[a1 a2] a3], b as [[b1 b2] b3]; cbn.
  destruct (Z.compare_spec a1 b1), (Z.compare_spec a2 b2), (Z.compare_spec a3 b3);
    split; intros H'; try discriminate; try reflexivity; try (inversion H'; lia); subst; reflexivity.
Qed.

Lemma lex_cmp_Gt a b : lex_cmp a b = Gt <-> lex_lt b a.
Proof.
  destruct a as [[a1 a2] a3], b as [[b1 b2] b3]; cbn.
  destruct (Z.compare_spec a1 b1), (Z.compare_spec a2 b2), (Z.compare_spec a3 b3);
    split; intros; try discriminate; try reflexivity; lia.
Qed.

Lemma SFltb_iff x y :
  SFltb x y = true <-> not_nan x /\ not_nan y /\ lex_lt (key x) (key y).
Proof.
  unfold SFltb, not_nan. split.
  - intros H.
    destruct (spec_float_nan_dec x) as [->|Hx]; [discriminate|].
    destruct (spec_float_nan_dec y) as [->|Hy]; [rewrite SFcompare_nan_r in H; discriminate|].
    rewrite SFcompare_key in H by assumption.
    repeat split; try assumption. apply lex_cmp_Lt.
    destruct (lex_cmp (key x) (key y)); congruence.
  - intros (Hx & Hy & H). rewrite SFcompare_key by assumption.
    apply lex_cmp_Lt in H. now rewrite H.
Qed.

Lemma SFleb_iff x y :
  SFleb x y = true <->
  not_nan x /\ not_nan y /\ (lex_lt (key x) (key y) \/ key x = key y).
Proof.
  unfold SFleb, not_nan. split.
  - intros H.
    destruct (spec_float_nan_dec x) as [->|Hx]; [discriminate|].
    destruct (spec_float_nan_dec y) as [->|Hy]; [rewrite SFcompare_nan_r in H; discriminate|].
    rewrite SFcompare_key in H by assumption.
    repeat split; try assumption.
    destruct (lex_cmp (key x) (key y)) eqn:E; try discriminate.
    + right. now apply lex_cmp_Eq.
    + left. now apply lex_cmp_Lt.
  - intros (Hx & Hy & [H|H]); rewrite SFcompare_key by assumption.
    + apply lex_cmp_Lt in H. now rewrite H.
    + apply lex_cmp_Eq in H. now rewrite H.
Qed.

Lemma lex_lt_trans a b c : lex_lt a b -> lex_lt b c -> lex_lt a c.
Proof.
  destruct a as [[a1 a2] a3], b as [[b1 b2] b3], c as [[c1 c2] c3]; cbn; lia.
Qed.

Lemma lex_lt_irrefl a : ~ lex_lt a a.
Proof. destruct a as [[a1 a2] a3]; cbn; lia. Qed.

Lemma lex_total a b : lex_lt a b \/ a = b \/ lex_lt b a.
Proof.
  destruct a as [[a1 a2] a3], b as [[b1 b2] b3]; cbn.
  destruct (Z.lt_trichotomy a1 b1) as [?|[?|?]],
           (Z.lt_trichotomy a2 b2) as [?|[?|?]],
           (Z.lt_trichotomy a3 b3) as [?|[?|?]]; subst; auto; try (left; lia); right; right; lia.
Qed.

(** The same facts on primitive floats, through the axioms that specify them. *)
Lemma is_nan_spec f : is_nan f = true <-> Prim2SF f = S754_nan.
Proof.
  unfold is_nan. rewrite FloatAxioms.eqb_spec. unfold SFeqb.
  destruct (spec_float_nan_dec (Prim2SF f)) as [E|E].
  - rewrite E. cbn. tauto.
  - rewrite SFcompare_key by assumption.
    assert (lex_cmp (key (Prim2SF f)) (key (Prim2SF f)) = Eq) as -> by now apply lex_cmp_Eq.
    cbn. split; [discriminate | tauto].
Qed.

Lemma is_nan_false f : is_nan f = false <-> not_nan (Prim2SF f).
Proof.
  unfold not_nan. pose proof (is_nan_spec f) as [H1 H2].
  destruct (is_nan f); split; intros H; try congruence.
  - exfalso. apply H. now apply H1.
  - intros E. specialize (H2 E). discriminate.
Qed.

Lemma ltb_trans (a b c : float) :
  (a <? b)%float = true -> (b <? c)%float = true -> (a <? c)%float = true.
Proof.
  rewrite !FloatAxioms.ltb_spec, !SFltb_iff. intros (? & ? & ?) (? & ? & ?).
  eauto using lex_lt_trans.
Qed.

Lemma leb_ltb_trans (a b c : float) :
  (a <=? b)%float = true -> (b <? c)%float = true -> (a <? c)%float = true.
Proof.
  rewrite !FloatAxioms.ltb_spec, FloatAxioms.leb_spec, !SFltb_iff, SFleb_iff.
  intros (? & ? & [?|E]) (? & ? & ?); repeat split; trivial.
  - eauto using lex_lt_trans.
  - now rewrite E.
Qed.

Lemma ltb_leb_trans (a b c : float) :
  (a <? b)%float = true -> (b <=? c)%float = true -> (a <? c)%float = true.
Proof.
  rewrite !FloatAxioms.ltb_spec, FloatAxioms.leb_spec, !SFltb_iff, SFleb_iff.
  intros (? & ? & ?) (? & ? & [?|E]); repeat split; trivial.
  - eauto using lex_lt_trans.
  - now rewrite <- E.
Qed.

Lemma ltb_leb (a b : float) : (a <? b)%float = true -> (a <=? b)%float = true.
Proof.
  rewrite FloatAxioms.ltb_spec, FloatAxioms.leb_spec, SFltb_iff, SFleb_iff. tauto.
Qed.

Lemma ltb_irrefl (a : float) : (a <? a)%float = false.
Proof.
  destruct (a <? a)%float eqn:E; [|reflexivity].
  rewrite FloatAxioms.ltb_spec, SFltb_iff in E. destruct E as (_ & _ & E).
  now apply lex_lt_irrefl in E.
Qed.

Lemma ltb_asym (a b : float) : (a <? b)%float = true -> (b <? a)%float = false.
Proof.
  intros H. destruct (b <? a)%float eqn:E; [|reflexivity].
  pose proof (ltb_trans _ _ _ H E) as F. now rewrite ltb_irrefl in F.
Qed.

Lemma not_ltb_leb (a b : float) :
  is_nan a = false -> is_nan b = false ->
  (a <? b)%float = false -> (b <=? a)%float = true.
Proof.
  rewrite !is_nan_false. intros Ha Hb H.
  rewrite FloatAxioms.leb_spec, SFleb_iff. repeat split; trivial.
  destruct (lex_total (key (Prim2SF a)) (key (Prim2SF b))) as [L|[E|G]]; auto.
  assert ((a <? b)%float = true) as F by (rewrite FloatAxioms.ltb_spec, SFltb_iff; auto).
  congruence.
Qed.

Lemma ltb_not_nan (a b : float) :
  (a <? b)%float = true -> is_nan a = false /\ is_nan b = false.
Proof.
  rewrite FloatAxioms.ltb_spec, SFltb_iff, !is_nan_false. tauto.
Qed.

Lemma leb_ltb_false (a b : float) :
  (a <=? b)%float = true -> (b <? a)%float = false.
Proof.
  intros H. destruct (b <? a)%float eqn:E; [|reflexivity].
  pose proof (ltb_leb_trans _ _ _ E H) as F. now rewrite ltb_irrefl in F.
Qed.

Lemma shr_1_nonneg mrs : 0 <= shr_m mrs -> 0 <= shr_m (shr_1 mrs).
Proof.
  destruct mrs as [m r s]. cbn.
  destruct m as [|[p|p|]|[p|p|]]; cbn; lia.
Qed.

Lemma iter_pos_inv {A} (P : A -> Prop) (f : A -> A) :
  (forall x, P x -> P (f x)) -> forall n x, P x -> P (SpecFloat.iter_pos f n x).
Proof.
  intros Hf. induction n as [n IH|n IH|]; intros x Hx; cbn; auto.
Qed.

Lemma shr_nonneg mrs e n : 0 <= shr_m mrs -> 0 <= shr_m (fst (shr mrs e n)).
Proof.
  intros H. destruct n; cbn; trivial.
  apply (iter_pos_inv (fun r => 0 <= shr_m r)); auto using shr_1_nonneg.
Qed.

Lemma shr_record_of_loc_m m l : shr_m (shr_record_of_loc m l) = m.
Proof. destruct l as [|[]]; reflexivity. Qed.

Lemma shr_fexp_nonneg p x m e l :
  0 <= m -> 0 <= shr_m (fst (shr_fexp p x m e l)).
Proof.
  intros H. unfold shr_fexp. apply shr_nonneg. now rewrite shr_record_of_loc_m.
Qed.

Lemma round_nearest_even_nonneg m l : 0 <= m -> 0 <= round_nearest_even m l.
Proof.
  intros H. destruct l as [|[]]; cbn; try lia.
  destruct (Z.even m); lia.
Qed.

Lemma binary_round_aux_nonneg p x m e l :
  0 <= m -> nonneg_sf (binary_round_aux p x false m e l).
Proof.
  intros H. unfold binary_round_aux.
  pose proof (shr_fexp_nonneg p x m e l H) as H1.
  destruct (shr_fexp p x m e l) as [mrs' e']. cbn [fst] in H1.
  pose proof (shr_fexp_nonneg p x _ e' loc_Exact
                (round_nearest_even_nonneg _ (loc_of_shr_record mrs') H1)) as H2.
  destruct (shr_fexp p x _ e' loc_Exact) as [mrs'' e'']. cbn [fst] in H2.
  destruct (shr_m mrs'') as [|q|q]; cbn; trivial; [|lia].
  destruct (Z.leb e'' (x - p)); exact I.
Qed.

Lemma binary_normalize_nonneg p x m e :
  0 <= m -> nonneg_sf (binary_normalize p x m e false).
Proof.
  intros H. destruct m as [|q|q]; cbn; trivial; [|lia].
  unfold binary_round. destruct (shl_align _ _ _) as [mz ez].
  apply binary_round_aux_nonneg. lia.
Qed.

Lemma of_uint63_nonneg n : nonneg_sf (Prim2SF (of_uint63 n)).
Proof.
  rewrite of_uint63_spec. apply binary_normalize_nonneg.
  apply Uint63.to_Z_bounded.
Qed.

Lemma double_of_int_nonneg w : 0 <= w -> nonneg_sf (Prim2SF (double_of_int w)).
Proof.
  intros H. unfold double_of_int.
  destruct (Z.ltb_spec w 0); [lia|]. apply of_uint63_nonneg.
Qed.

Lemma SFdiv_nonneg x m e :
  nonneg_sf x -> nonneg_sf (SFdiv prec emax x (S754_finite false m e)).
Proof.
  destruct x as [[]|[]| |[] mx ex]; cbn; try tauto.
  intros _. unfold SFdiv_core_binary.
  set (m' := match _ - _ - _ with Z0 => _ | Z.pos _ => _ | Z.neg _ => _ end).
  assert (0 <= m') as Hm'.
  { subst m'. destruct (_ - _ - _) as [|q|q]; try lia.
    apply Z.shiftl_nonneg. lia. }
  pose proof (Z.div_pos m' (Z.pos m) Hm' ltac:(lia)) as Hq.
  unfold Z.div in Hq. destruct (Z.div_eucl m' (Z.pos m)) as [q r]. cbn in Hq.
  now apply binary_round_aux_nonneg.
Qed.

Lemma nonneg_sf_not_nan x : nonneg_sf x -> not_nan x.
Proof. destruct x as [[]|[]| |[] ? ?]; cbn; unfold not_nan; congruence || tauto. Qed.

Lemma minus_one_lt_nonneg (r : float) :
  nonneg_sf (Prim2SF r) -> (-1 <? r)%float = true.
Proof.
  intros H. rewrite FloatAxioms.ltb_spec.
  change (Prim2SF (-1)%float) with (S754_finite true 4503599627370496 (-52)).
  destruct (Prim2SF r) as [[]|[]| |[] ? ?]; cbn in *; tauto || reflexivity.
Qed.

(** Integers below 2^53 convert exactly, to a finite positive value. *)
Lemma digits2_pos_size p : digits2_pos p = Pos.size p.
Proof. induction p; cbn; congruence. Qed.

Lemma digits2_pos_shift p k :
  digits2_pos (Pos.iter xO p k) = (digits2_pos p + k)%positive.
Proof.
  induction k as [|k IH] using Pos.peano_ind.
  - cbn. lia.
  - rewrite Pos.iter_succ. cbn. rewrite IH. lia.
Qed.

Lemma digits2_pos_bound p : Z.pos p < 2 ^ 53 -> Z.pos (digits2_pos p) <= 53.
Proof.
  intros H. rewrite digits2_pos_size.
  destruct (Z.le_gt_cases (Z.pos (Pos.size p)) 53) as [|G]; trivial. exfalso.
  pose proof (Pos.size_le p) as L.
  apply Pos2Z.pos_le_pos in L. rewrite Pos2Z.inj_pow in L.
  assert (2 ^ 54 <= 2 ^ Z.pos (Pos.size p)) as M
    by (apply Z.pow_le_mono_r; lia).
  change (2 ^ 54) with (2 * 2 ^ 53) in M. lia.
Qed.

Lemma binary_round_aux_normal mz ez :
  Z.pos (digits2_pos mz) = 53 -> -1074 <= ez <= 971 ->
  binary_round_aux prec emax false (Z.pos mz) ez loc_Exact
  = S754_finite false mz ez.
Proof.
  intros Hd He. unfold binary_round_aux.
  assert (shr_fexp prec emax (Z.pos mz) ez loc_Exact
          = (Build_shr_record (Z.pos mz) false false, ez)) as E.
  { unfold shr_fexp, fexp, SpecFloat.emin. cbn [Zdigits2]. rewrite Hd.
    replace (Z.max (53 + ez - prec) (3 - emax - prec) - ez) with 0
      by (unfold prec, emax; lia).
    reflexivity. }
  rewrite E. cbn [shr_m loc_of_shr_record round_nearest_even].
  rewrite E. cbn [shr_m].
  destruct (Z.leb_spec ez (emax - prec)) as [_|G]; [reflexivity|].
  unfold prec, emax in G. lia.
Qed.

Lemma binary_round_small p :
  Z.pos p < 2 ^ 53 ->
  exists m e, binary_round prec emax false p 0 = S754_finite false m e.
Proof.
  intros H. apply digits2_pos_bound in H.
  unfold binary_round, fexp, SpecFloat.emin.
  replace (Z.max (Z.pos (digits2_pos p) + 0 - prec) (3 - emax - prec))
    with (Z.pos (digits2_pos p) - 53) by (unfold prec, emax; lia).
  unfold shl_align.
  destruct (Z.pos (digits2_pos p) - 53 - 0) as [|k|k] eqn:E; try lia.
  - eexists _, _. apply binary_round_aux_normal; lia.
  - eexists _, _. apply binary_round_aux_normal; [|lia].
    rewrite digits2_pos_shift. lia.
Qed.

Lemma double_of_int_finite v :
  0 < v < 2 ^ 53 ->
  exists m e, Prim2SF (double_of_int v) = S754_finite false m e.
Proof.
  intros H. unfold double_of_int.
  destruct (Z.ltb_spec v 0); [lia|].
  rewrite of_uint63_spec.
  rewrite <- (Uint63.is_int v) by (change (2 ^ to_Z digits) with (2 ^ 63); lia).
  destruct v as [|p|p]; try lia. cbn [binary_normalize].
  apply binary_round_small. lia.
Qed.

(** The win ratio of a visited node is a number, and it is above the initial
    [-1.] of the final scan; the ratio of an unvisited node is 0/0 = NaN. *)
Lemma ratio_nonneg w v :
  0 <= w -> 0 < v < 2 ^ 53 ->
  nonneg_sf (Prim2SF (double_of_int w / double_of_int v)).
Proof.
  intros Hw Hv. rewrite FloatAxioms.div_spec.
  destruct (double_of_int_finite v Hv) as (m & e & ->).
  apply SFdiv_nonneg. now apply double_of_int_nonneg.
Qed.

Lemma ratio_above_minus_one w v :
  0 <= w -> 0 < v < 2 ^ 53 ->
  (-1 <? double_of_int w / double_of_int v)%float = true.
Proof. intros. now apply minus_one_lt_nonneg, ratio_nonneg. Qed.

Lemma ratio_not_nan w v :
  0 <= w -> 0 < v < 2 ^ 53 ->
  is_nan (double_of_int w / double_of_int v) = false.
Proof. intros. now apply is_nan_false, nonneg_sf_not_nan, ratio_nonneg. Qed.

Lemma ratio_unvisited : (double_of_int 0 / double_of_int 0)%float = nan.
Proof. reflexivity. Qed.

Lemma above_DBL_MAX (f : float) :
  (DBL_MAX <? f)%float = true -> f = infinity.
Proof.
  rewrite FloatAxioms.ltb_spec, SFltb_iff.
  change (Prim2SF DBL_MAX) with (S754_finite false 9007199254740991 971).
  intros (_ & _ & H).
  pose proof (Prim2SF_valid f) as V.
  apply Prim2SF_inj. change (Prim2SF infinity) with (S754_infinity false).
  destruct (Prim2SF f) as [s|[]| |[] m e]; cbn in H, V; try lia; try reflexivity.
  exfalso. unfold bounded, canonical_mantissa, fexp, SpecFloat.emin in V.
    apply andb_true_iff in V as [V1 V2].
    apply Z.eqb_eq in V1. apply Z.leb_le in V2. unfold prec, emax in *.
    assert (e = 971 /\ 9007199254740991 < Z.pos m) as [-> G] by lia.
    assert (Z.pos (digits2_pos m) = 53) as D by lia.
    pose proof (Pos.size_gt m) as L. rewrite <- digits2_pos_size in L.
    injection D as D. rewrite D in L.
    apply Pos2Z.pos_lt_pos in L. change (Z.pos (2 ^ 53)) with 9007199254740992 in L. lia.
Qed.

Lemma DBL_MAX_finite : (DBL_MAX <? infinity)%float = true.
Proof. reflexivity. Qed.

End FloatFacts.

Import FloatFacts.

(** * The left-to-right scan for a maximum *)

Section Scan.

Context {A : Type} (score : A -> float).

Lemma first_max_keep prefix i x y :
  first_max score prefix i x -> (score x <? score y)%float = false ->
  first_max score (prefix ++ [y]) i x.
Proof.
  intros (Hi & Hn & Hl & Hr) Hlt.
  pose proof (lookup_lt_Some _ _ _ Hi) as Hlen.
  split; [|split; [|split]].
  - rewrite lookup_app_l; trivial.
  - trivial.
  - intros j z Hj Hz Hnz. apply (Hl j z); trivial.
    rewrite lookup_app_l in Hz; trivial. lia.
  - intros j z Hj Hz Hnz.
    destruct (decide (j < length prefix)%nat) as [L|L].
    + rewrite lookup_app_l in Hz by trivial. eauto.
    + rewrite lookup_app_r in Hz by lia.
      destruct (j - length prefix)%nat; cbn in Hz; [|discriminate].
      injection Hz as <-. now apply not_ltb_leb.
Qed.

Lemma first_max_replace prefix i x y :
  first_max score prefix i x -> (score x <? score y)%float = true ->
  first_max score (prefix ++ [y]) (length prefix) y.
Proof.
  intros (Hi & Hn & Hl & Hr) Hlt.
  pose proof (lookup_lt_Some _ _ _ Hi) as Hlen.
  split; [|split; [|split]].
  - rewrite lookup_app_r by lia. now rewrite Nat.sub_diag.
  - now apply ltb_not_nan in Hlt.
  - intros j z Hj Hz Hnz. rewrite lookup_app_l in Hz by trivial.
    destruct (lt_eq_lt_dec j i) as [[L|E]|G].
    + eapply ltb_trans; [|exact Hlt]. eauto.
    + subst j. congruence.
    + eapply leb_ltb_trans; [|exact Hlt]. eauto.
  - intros j z Hj Hz _. apply lookup_lt_Some in Hz.
    rewrite length_app in Hz. cbn in Hz. lia.
Qed.

Lemma scan_from_best rest : forall prefix i x,
  first_max score prefix i x ->
  exists i' x', scan score rest (score x) (Some x) = Some x' /\
                first_max score (prefix ++ rest) i' x'.
Proof.
  induction rest as [|y rest IH]; intros prefix i x H; cbn.
  - exists i, x. now rewrite app_nil_r.
  - destruct (score x <? score y)%float eqn:E.
    + destruct (IH _ _ _ (first_max_replace _ _ _ _ H E)) as (i' & x' & ? & ?).
      exists i', x'. now rewrite <- app_assoc in *.
    + destruct (IH _ _ _ (first_max_keep _ _ _ _ H E)) as (i' & x' & ? & ?).
      exists i', x'. now rewrite <- app_assoc in *.
Qed.

(** From an initial bound that every number among the scores exceeds. *)
Lemma scan_from_bound init rest : forall prefix,
  (forall y, y ∈ rest -> is_nan (score y) = false -> (init <? score y)%float = true) ->
  (forall y, y ∈ prefix -> is_nan (score y) = true) ->
  match scan score rest init None with
  | None => forall y, y ∈ prefix ++ rest -> is_nan (score y) = true
  | Some x => exists i, first_max score (prefix ++ rest) i x
  end.
Proof.
  induction rest as [|y rest IH]; intros prefix Hb Hp; cbn.
  - now rewrite app_nil_r.
  - destruct (init <? score y)%float eqn:E.
    + assert (first_max score (prefix ++ [y]) (length prefix) y) as F.
      { split; [|split; [|split]].
        - rewrite lookup_app_r by lia. now rewrite Nat.sub_diag.
        - now apply ltb_not_nan in E.
        - intros j z Hj Hz Hnz. rewrite lookup_app_l in Hz by trivial.
          apply list_elem_of_lookup_2, Hp in Hz. congruence.
        - intros j z Hj Hz _. apply lookup_lt_Some in Hz.
          rewrite length_app in Hz. cbn in Hz. lia. }
      destruct (scan_from_best rest _ _ _ F) as (i' & x' & -> & ?).
      exists i'. now rewrite <- app_assoc in *.
    + specialize (IH (prefix ++ [y])). rewrite <- app_assoc in IH. apply IH.
      * intros z Hz. apply Hb. now right.
      * intros z Hz. apply elem_of_app in Hz as [Hz|Hz]; [now apply Hp|].
        apply list_elem_of_singleton in Hz as ->.
        destruct (is_nan (score y)) eqn:N; trivial.
        rewrite Hb in E; [discriminate|now left|trivial].
Qed.

End Scan.

(** * Only [choose_move] and the constructor throw *)

Lemma bind_not_thrown {A B} (m : outcome A) (f : A -> outcome B) :
  not_thrown m -> (forall a, not_thrown (f a)) -> not_thrown (m ≫= f).
Proof. destruct m; cbn; auto. Qed.

Section NoThrow.

Context {Board Gen : Type} `{!BoardOps Board} `{!RandomOps Gen}.
Variable log : float -> float.

Lemma expand_loop_not_thrown valid_moves : forall node heap,
  not_thrown (expand_loop node valid_moves heap).
Proof.
  induction valid_moves as [|m ms IH]; intros node heap; cbn; [exact I|].
  destruct (heap !! node); [apply IH|exact I].
Qed.

Lemma select_loop_not_thrown ef heap parent rest : forall best max,
  not_thrown (select_loop log ef heap parent rest best max).
Proof.
  induction rest as [|c rest IH]; intros best max; cbn; [exact I|].
  destruct (heap !! c); [|exact I]. destruct (_ <? _)%float; apply IH.
Qed.

Lemma select_child_not_thrown ef parent_node heap :
  not_thrown (select_child log ef parent_node heap).
Proof.
  unfold select_child. destruct (heap !! parent_node) as [p|]; [|exact I].
  destruct (child_nodes p) as [|c rest]; [exact I|].
  destruct (heap !! c); [apply select_loop_not_thrown|exact I].
Qed.

Lemma playout_loop_not_thrown fuel local : forall current_player boards gen,
  not_thrown (playout_loop fuel local current_player boards (gen : Gen)).
Proof.
  induction fuel as [|fuel IH]; intros p bs g; cbn; [exact I|].
  destruct (bs !! local) as [b|]; [|exact I].
  destruct (is_Empty (check_winner b)); [|exact I].
  destruct (_ <? 0); [exact I|].
  destruct (uniform_int _ _ _) as [k g'].
  destruct (k <? 0); [exact I|].
  destruct (_ !! _) as [mv|]; [|exact I].
  destruct (negb _); [exact I|apply IH].
Qed.

Lemma simulate_random_playout_not_thrown fuel node board boards (gen : Gen) :
  not_thrown (simulate_random_playout fuel node board boards gen).
Proof.
  unfold simulate_random_playout. destruct (boards !! board) as [b|]; [|exact I].
  pose proof (playout_loop_not_thrown fuel (length boards) (player node)
    (boards ++ [make_move (fst (move node)) (snd (move node)) (player node) b]) gen) as H.
  destruct (playout_loop _ _ _ _ _) as [[[? ?] ?]| | |]; trivial.
Qed.

Lemma backpropagate_not_thrown fuel : forall current winner heap,
  not_thrown (backpropagate fuel current winner heap).
Proof.
  induction fuel as [|fuel IH]; intros [p|] winner heap; cbn; try exact I.
  destruct (heap !! p); [apply IH|exact I].
Qed.

Lemma backpropagate_results_not_thrown fuel node results : forall heap,
  not_thrown (backpropagate_results fuel node results heap).
Proof.
  induction results as [|r rs IH]; intros heap; cbn; [exact I|].
  apply bind_not_thrown; [apply backpropagate_not_thrown|apply IH].
Qed.

Lemma playout_batch_not_thrown fuel threads node board : forall boards (gen : Gen),
  not_thrown (playout_batch fuel threads node board boards gen).
Proof.
  induction threads as [|k IH]; intros bs g; cbn; [exact I|].
  apply bind_not_thrown; [apply simulate_random_playout_not_thrown|].
  intros [[winner bs'] g']. apply bind_not_thrown; [apply IH|].
  now intros [[results bs''] g''].
Qed.

Lemma iteration_not_thrown fuel env board (w : @world Board Gen) :
  not_thrown (iteration log fuel env board w).
Proof.
  unfold iteration. destruct (root (this w)) as [r|]; [|exact I].
  apply bind_not_thrown; [apply select_child_not_thrown|]. intros chosen.
  destruct (arena (this w) !! chosen) as [node|]; [|exact I].
  destruct (is_parallelized (this w)).
  - apply bind_not_thrown; [apply playout_batch_not_thrown|].
    intros [[results bs] g].
    apply bind_not_thrown; [apply backpropagate_results_not_thrown|]. now intros.
  - apply bind_not_thrown; [apply simulate_random_playout_not_thrown|].
    intros [[winner bs] g].
    apply bind_not_thrown; [apply backpropagate_not_thrown|]. now intros.
Qed.

Lemma search_loop_not_thrown fuel env end_time board steps :
  forall tick (w : @world Board Gen),
  not_thrown (search_loop log fuel steps env end_time tick board w).
Proof.
  induction steps as [|steps IH]; intros tick w; cbn; [exact I|].
  destruct (now env tick <? end_time); [|exact I].
  apply bind_not_thrown; [apply iteration_not_thrown|]. intros w'. apply IH.
Qed.

Lemma best_child_loop_not_thrown heap children : forall max best,
  not_thrown (best_child_loop heap children max best).
Proof.
  induction children as [|c cs IH]; intros max best; cbn; [exact I|].
  destruct (heap !! c); [|exact I]. destruct (_ <? _)%float; apply IH.
Qed.

End NoThrow.

(** * Facts about the arena *)

Lemma add_children_nil n : add_children [] n = n.
Proof. destruct n. unfold add_children. cbn. now rewrite app_nil_r. Qed.

Lemma add_children_push c cs n :
  add_children cs (push_back c n) = add_children (c :: cs) n.
Proof. unfold add_children, push_back. cbn. now rewrite <- app_assoc. Qed.

Lemma deref_all_Some heap ptrs nodes :
  deref_all heap ptrs = Some nodes <->
  Forall2 (fun p c => heap !! p = Some c) ptrs nodes.
Proof. apply mapM_Some. Qed.

Section ExpandFacts.

Context {Board : Type} `{!BoardOps Board}.

Lemma expand_loop_spec valid_moves : forall heap node n,
  heap !! node = Some n ->
  expand_loop node valid_moves heap
  = Returned (<[node := add_children (seq (length heap) (length valid_moves)) n]>
                (heap ++ map (fun m => Node_new (player n) m (Some node)) valid_moves)).
Proof.
  induction valid_moves as [|m ms IH]; intros heap node n H; cbn.
  - rewrite add_children_nil, app_nil_r. now rewrite list_insert_id.
  - rewrite H. pose proof (lookup_lt_Some _ _ _ H) as L.
    erewrite IH; cycle 1.
    { apply list_lookup_insert_eq. rewrite length_app. cbn. lia. }
    f_equal. rewrite length_insert, length_app, add_children_push. cbn.
    rewrite Nat.add_1_r.
    rewrite <- insert_app_l by (rewrite length_app; cbn; lia).
    rewrite list_insert_insert_eq, <- app_assoc. reflexivity.
Qed.

End ExpandFacts.

Lemma deref_all_appended (heap new : list Node) (node : node_ptr) (n : Node) :
  (node < length heap)%nat ->
  deref_all (<[node := n]> (heap ++ new)) (seq (length heap) (length new))
  = Some new.
Proof.
  intros L. apply deref_all_Some, Forall2_same_length_lookup_2.
  - now rewrite length_seq.
  - intros i p c Hp Hc. apply lookup_seq in Hp as [-> Hi].
    rewrite list_lookup_insert_ne by lia.
    rewrite lookup_app_r by lia.
    now replace (length heap + i - length heap)%nat with i by lia.
Qed.

Section Expansion.

Context {Board : Type} `{!BoardOps Board}.

Lemma expand_node_shape (board : Board) (heap : tree) (node : node_ptr)
    (n : Node) :
  heap !! node = Some n ->
  child_nodes n = [] ->
  exists heap' n' children,
    expand_node node board heap = Returned heap' /\
    heap' !! node = Some n' /\
    child_nodes n' = seq (length heap) (length (get_valid_moves board)) /\
    deref_all heap' (child_nodes n') = Some children /\
    map move children = get_valid_moves board /\
    Forall (fun c => player c = player n /\ parent_node c = Some node /\
                     win_count c = 0 /\ visit_count c = 0) children.
Proof.
  intros H Hc. pose proof (lookup_lt_Some _ _ _ H) as L.
  unfold expand_node. rewrite (expand_loop_spec _ _ _ _ H).
  set (moves := get_valid_moves board).
  set (new := map (fun m => Node_new (player n) m (Some node)) moves).
  assert (length new = length moves) as Hlen by (subst new; now rewrite length_map).
  eexists _, _, new. split; [reflexivity|].
  split; [apply list_lookup_insert_eq; rewrite length_app; lia|].
  cbn [child_nodes add_children]. rewrite Hc, app_nil_l, <- Hlen.
  split; [reflexivity|].
  split; [now apply deref_all_appended|].
  split; [subst new; rewrite map_map; cbn; apply map_id|].
  subst new. apply Forall_forall. intros c Hin.
  apply list_elem_of_fmap in Hin as (m & -> & _). cbn. auto.
Qed.

(** C9. Expanding a node that has no children yet gives it one child per
    legal move, in the order of the board's enumeration: reading the [move]
    fields of the children back yields exactly the list of legal moves, none
    left out and none added; the children are as many as the legal moves
    and are nodes of their own, each carries the player of the expanded node
    and has the expanded node as parent. *)
Theorem expand_node_children (board : Board) (heap : tree) (node : node_ptr)
    (n : Node) :
  heap !! node = Some n ->
  child_nodes n = [] ->
  exists heap' n' children,
    expand_node node board heap = Returned heap' /\
    heap' !! node = Some n' /\
    deref_all heap' (child_nodes n') = Some children /\
    map move children = get_valid_moves board /\
    length (child_nodes n') = length (get_valid_moves board) /\
    NoDup (child_nodes n') /\
    Forall (fun c => player c = player n /\ parent_node c = Some node) children.
Proof.
  intros H Hc.
  destruct (expand_node_shape board heap node n H Hc)
    as (heap' & n' & children & E & Hn & Hs & Hd & Hm & Hf).
  exists heap', n', children. rewrite Hs at 2 3.
  rewrite length_seq. repeat split; trivial; [apply NoDup_seq|].
  eapply Forall_impl; [exact Hf|]. cbn. intuition.
Qed.

End Expansion.

(** * The counters *)

Lemma observable_counters heap : observable heap -> Forall counters_ok heap.
Proof.
  induction 1 as [|heap pl mv par _ IH|heap p n c _ IH Hp|heap p n _ IH Hp
                  |heap p n _ IH Hp]; cbn.
  - constructor.
  - apply Forall_app. split; [assumption|].
    repeat constructor; cbn; lia.
  - apply Forall_insert; trivial.
    pose proof (Forall_lookup_1 _ _ _ _ IH Hp) as K. exact K.
  - apply Forall_insert; trivial.
    pose proof (Forall_lookup_1 _ _ _ _ IH Hp) as K.
    unfold counters_ok in *. cbn. lia.
  - apply Forall_insert; trivial.
    pose proof (Forall_lookup_1 _ _ _ _ IH Hp) as K.
    unfold counters_ok in *. cbn. lia.
Qed.

Lemma observable_credit heap p n winner :
  observable heap -> heap !! p = Some n ->
  observable (<[p := credit winner n]> heap).
Proof.
  intros Ho Hp. unfold credit. destruct (decide _).
  - now apply obs_win.
  - now apply obs_visit.
Qed.

Lemma credited_refl n : credited n n.
Proof. unfold credited. repeat split; lia. Qed.

Lemma credited_trans a b c : credited a b -> credited b c -> credited a c.
Proof.
  unfold credited. intros (? & ? & ? & ? & ?) (? & ? & ? & ? & ?).
  repeat split; try congruence; lia.
Qed.

Lemma credited_credit winner n : credited n (credit winner n).
Proof. unfold credited, credit. destruct (decide _); cbn; repeat split; lia. Qed.

Lemma Forall2_credited_refl heap : Forall2 credited heap heap.
Proof. apply Forall2_same_length_lookup_2; trivial. intros i a b ? ?.
  assert (a = b) as -> by congruence. apply credited_refl. Qed.

Lemma Forall2_credited_trans a b c :
  Forall2 credited a b -> Forall2 credited b c -> Forall2 credited a c.
Proof.
  intros H1 H2. eapply Forall2_trans; eauto.
  intros ? ? ?. apply credited_trans.
Qed.

Lemma Forall2_credited_insert heap p n winner :
  heap !! p = Some n -> Forall2 credited heap (<[p := credit winner n]> heap).
Proof.
  intros Hp. apply Forall2_same_length_lookup_2.
  - now rewrite length_insert.
  - intros i a b Ha Hb. destruct (decide (p = i)) as [->|Hne].
    + rewrite list_lookup_insert_eq in Hb by (eapply lookup_lt_Some; eauto).
      assert (a = n) as -> by congruence. injection Hb as <-.
      apply credited_credit.
    + rewrite list_lookup_insert_ne in Hb by trivial.
      assert (a = b) as -> by congruence. apply credited_refl.
Qed.

Lemma backpropagate_credited fuel : forall current winner heap heap',
  backpropagate fuel current winner heap = Returned heap' ->
  Forall2 credited heap heap'.
Proof.
  induction fuel as [|fuel IH]; intros [p|] winner heap heap' H; cbn in H;
    try discriminate; try (injection H as <-; apply Forall2_credited_refl).
  destruct (heap !! p) as [n|] eqn:Hp; [|discriminate].
  fold (credit winner n) in H. apply IH in H.
  eapply Forall2_credited_trans; [|exact H].
  now apply Forall2_credited_insert.
Qed.

Lemma backpropagate_observable fuel : forall current winner heap heap',
  observable heap ->
  backpropagate fuel current winner heap = Returned heap' ->
  observable heap'.
Proof.
  induction fuel as [|fuel IH]; intros [p|] winner heap heap' Ho H; cbn in H;
    try discriminate; try (now injection H as <-).
  destruct (heap !! p) as [n|] eqn:Hp; [|discriminate].
  fold (credit winner n) in H.
  eapply IH; [|exact H]. now apply observable_credit.
Qed.

Lemma backpropagate_results_credited fuel node results : forall heap heap',
  backpropagate_results fuel node results heap = Returned heap' ->
  Forall2 credited heap heap'.
Proof.
  induction results as [|r rs IH]; intros heap heap' H; cbn in H.
  - injection H as <-. apply Forall2_credited_refl.
  - destruct (backpropagate fuel (Some node) r heap) as [h| | |] eqn:E;
      try discriminate.
    apply backpropagate_credited in E. apply IH in H.
    eapply Forall2_credited_trans; eauto.
Qed.

Lemma backpropagate_results_observable fuel node results : forall heap heap',
  observable heap ->
  backpropagate_results fuel node results heap = Returned heap' ->
  observable heap'.
Proof.
  induction results as [|r rs IH]; intros heap heap' Ho H; cbn in H.
  - now injection H as <-.
  - destruct (backpropagate fuel (Some node) r heap) as [h| | |] eqn:E;
      try discriminate.
    eapply IH; [|exact H]. eapply backpropagate_observable; eauto.
Qed.

Lemma expand_loop_observable valid_moves : forall node heap heap',
  observable heap ->
  expand_loop node valid_moves heap = Returned heap' -> observable heap'.
Proof.
  induction valid_moves as [|m ms IH]; intros node heap heap' Ho H; cbn in H.
  - now injection H as <-.
  - destruct (heap !! node) as [n|] eqn:Hn; [|discriminate].
    apply IH in H; trivial.
    apply obs_link.
    + exact (obs_construct heap (player n) m (Some node) Ho).
    + cbn. now apply lookup_app_l_Some.
Qed.

(** * The rollout *)

Lemma is_Empty_true c : is_Empty c = true <-> c = Empty.
Proof. destruct c; cbn; split; congruence. Qed.

Lemma is_Empty_false c : is_Empty c = false <-> c <> Empty.
Proof. destruct c; cbn; split; congruence. Qed.

Lemma insert_last {A} (pre : list A) (x y : A) :
  <[length pre := y]> (pre ++ [x]) = pre ++ [y].
Proof.
  rewrite insert_app_r_alt by lia. now rewrite Nat.sub_diag.
Qed.

Lemma lookup_last {A} (pre : list A) (x : A) :
  (pre ++ [x]) !! length pre = Some x.
Proof. rewrite lookup_app_r by lia. now rewrite Nat.sub_diag. Qed.

Section Rollout.

Context {Board Gen : Type} `{!BoardOps Board} `{!RandomOps Gen}.

(** The loop plays on its own cell only, and what it returns is a rollout. *)
Lemma playout_loop_sound (pre : list Board) fuel :
  forall cur current gen winner boards' gen',
  playout_loop fuel (length pre) current (pre ++ [cur]) gen
    = Returned (winner, boards', gen') ->
  rollout cur current gen winner gen' /\ exists cur', boards' = pre ++ [cur'].
Proof.
  induction fuel as [|fuel IH]; intros cur p g w bs' g' H; cbn in H;
    [discriminate|].
  rewrite lookup_last in H.
  destruct (is_Empty (check_winner cur)) eqn:E.
  - apply is_Empty_true in E.
    destruct (_ <? 0); [discriminate|].
    destruct (uniform_int _ _ _) as [k g1] eqn:U.
    destruct (Z.ltb_spec k 0); [discriminate|].
    destruct (_ !! _) as [mv|] eqn:M; [|discriminate].
    rewrite insert_last in H.
    destruct (negb _) eqn:N.
    + injection H as <- <- <-. split; [|eauto].
      eapply rollout_move; eauto. apply rollout_won.
      apply is_Empty_false. now apply negb_true_iff in N.
    + apply IH in H as [H1 H2]. split; [|assumption].
      eapply rollout_move; eauto.
  - injection H as <- <- <-. split; [|eauto].
    apply rollout_won. now apply is_Empty_false.
Qed.

Lemma playout_loop_fuel (pre : list Board) fuel :
  forall cur current gen r,
  playout_loop fuel (length pre) current (pre ++ [cur]) gen = Returned r ->
  forall fuel', (fuel <= fuel')%nat ->
  playout_loop fuel' (length pre) current (pre ++ [cur]) gen = Returned r.
Proof.
  induction fuel as [|fuel IH]; intros cur p g r H fuel' L; [discriminate|].
  destruct fuel' as [|fuel']; [lia|]. cbn in H |- *.
  rewrite lookup_last in *.
  destruct (is_Empty (check_winner cur)); [|assumption].
  destruct (_ <? 0); [discriminate|].
  destruct (uniform_int _ _ _) as [k g1].
  destruct (k <? 0); [discriminate|].
  destruct (_ !! _) as [mv|]; [|discriminate].
  rewrite insert_last in *.
  destruct (negb _); [assumption|].
  apply IH; [assumption|lia].
Qed.

Lemma playout_loop_complete (pre : list Board) cur current gen winner gen' :
  rollout cur current gen winner gen' ->
  exists fuel cur',
    playout_loop fuel (length pre) current (pre ++ [cur]) gen
    = Returned (winner, pre ++ [cur'], gen').
Proof.
  induction 1 as [b p g Hw|b p g k g1 mv w g2 Hw U K M _ (fuel & cur' & IH)].
  - exists 1%nat, b. cbn. rewrite lookup_last.
    apply is_Empty_false in Hw. now rewrite Hw.
  - exists (S fuel), cur'. cbn. rewrite lookup_last.
    apply is_Empty_true in Hw. rewrite Hw.
    assert ((Z.of_nat (length (get_valid_moves b)) - 1 <? 0) = false) as ->.
    { apply Z.ltb_ge. apply lookup_lt_Some in M. lia. }
    rewrite U. destruct (Z.ltb_spec k 0); [lia|]. rewrite M, insert_last.
    destruct (negb _) eqn:N; [|exact IH].
    destruct fuel as [|fuel]; [discriminate|]. cbn in IH.
    rewrite lookup_last in IH. apply negb_true_iff in N. rewrite N in IH.
    exact IH.
Qed.

Lemma simulate_random_playout_sound fuel node board boards gen winner boards' gen' original :
  boards !! board = Some original ->
  simulate_random_playout fuel node board boards gen
    = Returned (winner, boards', gen') ->
  boards' = boards /\
  rollout (make_move (fst (move node)) (snd (move node)) (player node) original)
          (player node) gen winner gen'.
Proof.
  intros Hb H. unfold simulate_random_playout in H. rewrite Hb in H.
  destruct (playout_loop _ _ _ _ _) as [[[w bs] g]| | |] eqn:E; try discriminate.
  injection H as <- <- <-.
  apply playout_loop_sound in E as [R (cur' & ->)].
  split; [apply take_app_length|exact R].
Qed.

Lemma simulate_random_playout_complete node board boards gen winner gen' original :
  boards !! board = Some original ->
  rollout (make_move (fst (move node)) (snd (move node)) (player node) original)
          (player node) gen winner gen' ->
  exists fuel0, forall fuel, (fuel0 <= fuel)%nat ->
    simulate_random_playout fuel node board boards gen
    = Returned (winner, boards, gen').
Proof.
  intros Hb R. destruct (playout_loop_complete boards _ _ _ _ _ R) as (fuel0 & cur' & E).
  exists fuel0. intros fuel L. unfold simulate_random_playout. rewrite Hb.
  rewrite (playout_loop_fuel _ _ _ _ _ _ E fuel L).
  now rewrite take_app_length.
Qed.

(** For the two players of the game, the turn passes as the design says:
    the loop's successor of the current player is the opposing player, so
    that the loop's rollouts are the design's. *)
Lemma opponent_other_player p : p <> Empty -> other_player p (opponent p).
Proof. destruct p; [contradiction|constructor|constructor]. Qed.

Lemma other_player_opponent p q : other_player p q -> q = opponent p.
Proof. now destruct 1. Qed.

Lemma other_player_not_Empty p q : other_player p q -> q <> Empty.
Proof. now destruct 1. Qed.

Lemma rollout_alternating (x : Board) current (g : Gen) winner g' :
  rollout x current g winner g' -> current <> Empty ->
  alternating_rollout x current g winner g'.
Proof.
  induction 1 as [|x current g k g1 mv winner g2 Hw Hu Hk Hm _ IH]; intros Hne.
  - now apply alternating_won.
  - pose proof (opponent_other_player current Hne) as Ho.
    eapply alternating_move; eauto.
    apply IH. eapply other_player_not_Empty; eauto.
Qed.

Lemma alternating_rollout_sound (x : Board) current (g : Gen) winner g' :
  alternating_rollout x current g winner g' -> rollout x current g winner g'.
Proof.
  induction 1 as [|x current opposing g k g1 mv winner g2 Hw Ho Hu Hk Hm _ IH].
  - now apply rollout_won.
  - apply other_player_opponent in Ho as ->. eapply rollout_move; eauto.
Qed.

(** C4. For a node of Blue or Red, the rollout simulator plays the node's
    move for the node's player on a copy of the board and then does what
    the design says: while the board has no winner, the turn passes to the
    opposing player (Red after Blue, Blue after Red), who plays the legal
    move whose index the uniform distribution over all legal moves yields;
    the player whose turn it was when the board first reported a winner is
    returned. Whatever the simulator returns is the result of such a
    rollout, every such rollout is what the simulator returns once it is
    given enough steps, the caller's boards are as before, and a node whose
    own move decides the game yields the node's own player. *)
Theorem simulate_random_playout_rollout (node : Node) (board : nat)
    (boards : list Board) (original : Board) (gen : Gen) :
  boards !! board = Some original ->
  player node <> Empty ->
  let start :=
    make_move (fst (move node)) (snd (move node)) (player node) original in
  (forall fuel winner boards' gen',
     simulate_random_playout fuel node board boards gen
       = Returned (winner, boards', gen') ->
     boards' = boards /\
     alternating_rollout start (player node) gen winner gen') /\
  (forall winner gen',
     alternating_rollout start (player node) gen winner gen' ->
     exists fuel0, forall fuel, (fuel0 <= fuel)%nat ->
       simulate_random_playout fuel node board boards gen
       = Returned (winner, boards, gen')) /\
  (check_winner start <> Empty ->
   forall fuel,
     simulate_random_playout (S fuel) node board boards gen
     = Returned (player node, boards, gen)).
Proof.
  intros Hb Hne start. split; [|split].
  - intros fuel winner boards' gen' H.
    destruct (simulate_random_playout_sound _ _ _ _ _ _ _ _ _ Hb H) as [E R].
    split; [exact E|]. now apply rollout_alternating.
  - intros winner gen' R. apply alternating_rollout_sound in R.
    eapply simulate_random_playout_complete; eauto.
  - intros Hw fuel. unfold simulate_random_playout. rewrite Hb. cbn.
    rewrite lookup_last. fold start. apply is_Empty_false in Hw. rewrite Hw.
    now rewrite take_app_length.
Qed.

(** C7, as the code has it. The rollout simulator has no failure of its own
    to report: no call of it throws. From a position without a winner and
    without a legal move it does not return either: it asks for a draw from
    the empty range 0..-1 and for an element of an empty vector, which the
    language leaves undefined. *)
Theorem simulate_random_playout_stalemate (node : Node) (board : nat)
    (boards : list Board) (original : Board) (gen : Gen) :
  boards !! board = Some original ->
  let start :=
    make_move (fst (move node)) (snd (move node)) (player node) original in
  check_winner start = Empty ->
  get_valid_moves start = [] ->
  (forall fuel,
     simulate_random_playout (S fuel) node board boards gen = Undefined) /\
  (forall fuel e,
     simulate_random_playout fuel node board boards gen <> Thrown e).
Proof.
  intros Hb start Hw Hm. split.
  - intros fuel. unfold simulate_random_playout. rewrite Hb. cbn.
    rewrite lookup_last. fold start. rewrite Hw, Hm. reflexivity.
  - intros fuel e E.
    pose proof (simulate_random_playout_not_thrown fuel node board boards gen) as N.
    now rewrite E in N.
Qed.

Lemma simulate_random_playout_frame fuel node board boards (gen : Gen)
    winner boards' gen' :
  simulate_random_playout fuel node board boards gen
    = Returned (winner, boards', gen') ->
  boards' = boards.
Proof.
  intros H. destruct (boards !! board) as [b|] eqn:Hb.
  - now apply (simulate_random_playout_sound _ _ _ _ _ _ _ _ _ Hb) in H.
  - unfold simulate_random_playout in H. now rewrite Hb in H.
Qed.

Lemma playout_batch_frame fuel threads node board :
  forall boards (gen : Gen) results boards' gen',
  playout_batch fuel threads node board boards gen
    = Returned (results, boards', gen') ->
  boards' = boards.
Proof.
  induction threads as [|k IH]; intros bs g rs bs' g' H; cbn in H.
  - now injection H as <- <- <-.
  - destruct (simulate_random_playout _ _ _ _ _) as [[[w1 b1] g1]| | |] eqn:E;
      try discriminate. cbn in H.
    apply simulate_random_playout_frame in E as ->.
    destruct (playout_batch _ _ _ _ _ _) as [[[r2 b2] g2]| | |] eqn:E2;
      try discriminate. cbn in H.
    apply IH in E2 as ->. now injection H as <- <- <-.
Qed.

End Rollout.

(** * The passes of the loop *)

Lemma deref_all_credited heap heap' ptrs nodes :
  Forall2 credited heap heap' ->
  deref_all heap ptrs = Some nodes ->
  exists nodes', deref_all heap' ptrs = Some nodes' /\ Forall2 credited nodes nodes'.
Proof.
  intros Hc Hd. apply deref_all_Some in Hd.
  induction Hd as [|p c ptrs nodes Hp _ (nodes' & IH1 & IH2)].
  - exists []. split; [reflexivity|constructor].
  - destruct (Forall2_lookup_l _ _ _ _ _ Hc Hp) as (c' & Hp' & Hcc).
    exists (c' :: nodes'). split; [|now constructor].
    apply deref_all_Some. constructor; [assumption|now apply deref_all_Some].
Qed.

Lemma deref_all_elem heap ptrs nodes c :
  deref_all heap ptrs = Some nodes -> c ∈ nodes -> c ∈ heap.
Proof.
  intros Hd Hc. apply deref_all_Some in Hd.
  apply list_elem_of_lookup in Hc as [i Hi].
  destruct (Forall2_lookup_r _ _ _ _ _ Hd Hi) as (p & _ & Hp).
  eapply list_elem_of_lookup_2; eauto.
Qed.

Lemma deref_all_member heap ptrs nodes p c :
  deref_all heap ptrs = Some nodes -> p ∈ ptrs -> heap !! p = Some c ->
  c ∈ nodes.
Proof.
  intros Hd Hp Hc. apply deref_all_Some in Hd.
  apply list_elem_of_lookup in Hp as [i Hi].
  destruct (Forall2_lookup_l _ _ _ _ _ Hd Hi) as (c' & Hc' & Hp).
  assert (c' = c) as -> by congruence.
  eapply list_elem_of_lookup_2; eauto.
Qed.

Lemma credited_map_move nodes nodes' :
  Forall2 credited nodes nodes' -> map move nodes' = map move nodes.
Proof.
  induction 1 as [|a b l k (Hm & _) _ IH]; cbn; [reflexivity|]. now rewrite Hm, IH.
Qed.

Section Search.

Context {Board Gen : Type} `{!BoardOps Board} `{!RandomOps Gen}.
Variable log : float -> float.

(** What a pass that returns has done. *)
Lemma iteration_inv fuel env board (w w' : @world Board Gen) :
  iteration log fuel env board w = Returned w' ->
  exists r chosen node results boards' gen' heap',
    root (this w) = Some r /\
    select_child log (exploration_factor (this w)) r (arena (this w))
      = Returned chosen /\
    arena (this w) !! chosen = Some node /\
    (if is_parallelized (this w)
     then playout_batch fuel (hardware_concurrency env) node board (boards w)
            (random_generator (this w)) = Returned (results, boards', gen')
     else exists winner,
            results = [winner] /\
            simulate_random_playout fuel node board (boards w)
              (random_generator (this w)) = Returned (winner, boards', gen')) /\
    backpropagate_results fuel chosen results (arena (this w)) = Returned heap' /\
    w' = mkWorld (set_arena heap' (set_generator gen' (this w))) boards'.
Proof.
  intros H. unfold iteration in H.
  destruct (root (this w)) as [r|]; [|discriminate].
  destruct (select_child _ _ _ _) as [chosen| | |] eqn:S; try discriminate.
  cbn in H.
  destruct (arena (this w) !! chosen) as [node|] eqn:N; [|discriminate].
  destruct (is_parallelized (this w)) eqn:P.
  - destruct (playout_batch _ _ _ _ _ _) as [[[results bs] g]| | |] eqn:B;
      try discriminate. cbn in H.
    destruct (backpropagate_results _ _ _ _) as [h| | |] eqn:E; try discriminate.
    cbn in H. injection H as <-.
    exists r, chosen, node, results, bs, g, h. repeat split; trivial.
  - destruct (simulate_random_playout _ _ _ _ _) as [[[winner bs] g]| | |] eqn:B;
      try discriminate. cbn in H.
    destruct (backpropagate _ _ _ _) as [h| | |] eqn:E; try discriminate.
    cbn in H. injection H as <-.
    exists r, chosen, node, [winner], bs, g, h.
    repeat split; trivial; [eauto|]. cbn. now rewrite E.
Qed.

(** A relation between states that every pass respects is respected by the
    loop. *)
Lemma search_loop_preserves (R : relation (@world Board Gen))
    `{!Reflexive R} `{!Transitive R} fuel env end_time board :
  (forall w w', iteration log fuel env board w = Returned w' -> R w w') ->
  forall steps tick w w',
    search_loop log fuel steps env end_time tick board w = Returned w' -> R w w'.
Proof.
  intros Hstep. induction steps as [|steps IH]; intros tick w w' H; cbn in H;
    [discriminate|].
  destruct (now env tick <? end_time).
  - destruct (iteration log fuel env board w) as [w1| | |] eqn:E;
      try discriminate. cbn in H.
    transitivity w1; eauto.
  - now injection H as <-.
Qed.

#[local] Instance same_search_refl : Reflexive (@same_search Board Gen).
Proof. intros w. repeat split; trivial. apply Forall2_credited_refl. Qed.

#[local] Instance same_search_trans : Transitive (@same_search Board Gen).
Proof.
  intros a b c (? & ? & ? & ? & ? & ?) (? & ? & ? & ? & ? & ?).
  repeat split; try congruence. eapply Forall2_credited_trans; eauto.
Qed.

Lemma same_search_reflexive (w : @world Board Gen) : same_search w w.
Proof. reflexivity. Qed.

Lemma same_search_transitive (w1 w2 w3 : @world Board Gen) :
  same_search w1 w2 -> same_search w2 w3 -> same_search w1 w3.
Proof. intros. etransitivity; eauto. Qed.

#[local] Instance keeps_observable_refl : Reflexive (@keeps_observable Board Gen).
Proof. intros w H. exact H. Qed.

#[local] Instance keeps_observable_trans :
  Transitive (@keeps_observable Board Gen).
Proof. intros a b c H1 H2 H. exact (H2 (H1 H)). Qed.

Lemma iteration_same_search fuel env board (w w' : @world Board Gen) :
  iteration log fuel env board w = Returned w' -> same_search w w'.
Proof.
  intros H. apply iteration_inv in H
    as (r & chosen & node & results & bs & g & h & _ & _ & _ & P & B & ->).
  apply backpropagate_results_credited in B.
  repeat split; trivial. cbn.
  destruct (is_parallelized (this w)).
  - now apply playout_batch_frame in P.
  - destruct P as (winner & _ & P). now apply simulate_random_playout_frame in P.
Qed.

Lemma search_loop_same_search fuel steps env end_time tick board
    (w w' : @world Board Gen) :
  search_loop log fuel steps env end_time tick board w = Returned w' ->
  same_search w w'.
Proof.
  apply (search_loop_preserves same_search).
  apply iteration_same_search.
Qed.

Lemma iteration_observable fuel env board (w w' : @world Board Gen) :
  iteration log fuel env board w = Returned w' -> keeps_observable w w'.
Proof.
  intros H Ho. apply iteration_inv in H
    as (r & chosen & node & results & bs & g & h & _ & _ & _ & _ & B & ->).
  cbn. eapply backpropagate_results_observable; eauto.
Qed.

(** Where a search that has left the loop has got to. *)
Lemma search_inv fuel env board player (w w' : @world Board Gen) :
  search log fuel env board player w = Returned w' ->
  exists b heap,
    boards w !! board = Some b /\
    expand_node 0%nat b [Node_new player (-1, -1) None] = Returned heap /\
    same_search (mkWorld (set_tree (Some 0%nat) heap (this w)) (boards w)) w' /\
    observable (arena (this w')).
Proof.
  unfold search. cbn [make_shared length app]. intros H.
  destruct (boards w !! board) as [b|]; [|discriminate].
  destruct (expand_node 0%nat b [Node_new player (-1, -1) None])
    as [h| | |] eqn:E; try discriminate. cbn in H.
  exists b, h. split; [reflexivity|]. split; [exact E|]. split.
  - exact (search_loop_preserves same_search fuel env _ board
             (iteration_same_search fuel env board) _ _ _ _ H).
  - apply (search_loop_preserves keeps_observable fuel env _ board
             (iteration_observable fuel env board) _ _ _ _ H).
    cbn. eapply expand_loop_observable; [|exact E].
    exact (obs_construct [] player (-1, -1) None obs_empty).
Qed.

Lemma search_not_thrown fuel env board player (w : @world Board Gen) :
  not_thrown (search log fuel env board player w).
Proof.
  unfold search. cbn [make_shared length app].
  destruct (boards w !! board) as [b|]; [|exact I].
  apply bind_not_thrown; [apply expand_loop_not_thrown|].
  intros heap. apply search_loop_not_thrown.
Qed.

(** A call of [choose_move] that returns or throws has left the loop. *)
Lemma choose_move_completed fuel env board player (w w' : @world Board Gen) o :
  choose_move log fuel env board player w = (o, w') ->
  completed o ->
  search log fuel env board player w = Returned w'.
Proof.
  unfold choose_move.
  pose proof (search_not_thrown fuel env board player w) as N.
  destruct (search log fuel env board player w) as [w1| | |];
    try (intros [= <- <-]; contradiction).
  destruct (root (this w1)); intros [= <- <-]; [reflexivity|contradiction].
Qed.

(** C10. [choose_move] leaves every board of the caller as it found it,
    the one it was given by reference included: each rollout plays on a
    copy of its own, which is gone when the rollout returns. This holds
    when the call returns a move and when it throws. *)
Theorem choose_move_board_unchanged (fuel : nat) (env : Env) (board : nat)
    (player : Cell_state) (w w' : @world Board Gen) (o : outcome (Z * Z)) :
  choose_move log fuel env board player w = (o, w') ->
  completed o ->
  boards w' = boards w /\ boards w' !! board = boards w !! board.
Proof.
  intros H C. enough (boards w' = boards w) as E by (now rewrite E).
  apply choose_move_completed in H; trivial.
  apply search_inv in H as (b & h & _ & _ & (_ & _ & _ & _ & _ & F) & _).
  exact F.
Qed.

(** The tree of a search that has left the loop: the root, with one live
    child per legal move, in the board's order. *)
Lemma search_final fuel env board player (w w' : @world Board Gen) :
  search log fuel env board player w = Returned w' ->
  exists b r children,
    boards w !! board = Some b /\
    root (this w') = Some 0%nat /\
    arena (this w') !! 0%nat = Some r /\
    deref_all (arena (this w')) (child_nodes r) = Some children /\
    map move children = get_valid_moves b /\
    Forall counters_ok children.
Proof.
  intros H. apply search_inv in H as (b & h & Hb & E & (C & R & _) & O).
  cbn in C, R.
  destruct (expand_node_shape b [Node_new player (-1, -1) None] 0%nat _
              eq_refl eq_refl) as (h0 & r0 & children0 & E0 & Hr & _ & Hd & Hm & _).
  rewrite E in E0. injection E0 as <-.
  destruct (Forall2_lookup_l _ _ _ _ _ C Hr) as (r & Hr' & (_ & _ & Hc & _)).
  destruct (deref_all_credited _ _ _ _ C Hd) as (children & Hd' & Cc).
  exists b, r, children. rewrite Hc. repeat split; trivial.
  - rewrite <- Hm. now apply credited_map_move.
  - apply Forall_forall. intros c Hin.
    apply observable_counters in O.
    eapply Forall_forall; [exact O|]. eapply deref_all_elem; eauto.
Qed.

End Search.

(** * Enough steps: the search returns *)

Section Fuel.

Context {Board Gen : Type} `{!BoardOps Board} `{!RandomOps Gen}.
Variable log : float -> float.

(** A result, once reached, is reached with every larger step budget. *)

Lemma simulate_random_playout_fuel fuel fuel' node board boards (gen : Gen) r :
  (fuel <= fuel')%nat ->
  simulate_random_playout fuel node board boards gen = Returned r ->
  simulate_random_playout fuel' node board boards gen = Returned r.
Proof.
  intros L H. unfold simulate_random_playout in *.
  destruct (boards !! board) as [b|]; [|discriminate].
  destruct (playout_loop fuel _ _ _ _) as [[[w bs] g]| | |] eqn:E;
    try discriminate.
  now rewrite (playout_loop_fuel _ _ _ _ _ _ E fuel' L).
Qed.

Lemma backpropagate_fuel fuel : forall fuel' current winner heap heap',
  (fuel <= fuel')%nat ->
  backpropagate fuel current winner heap = Returned heap' ->
  backpropagate fuel' current winner heap = Returned heap'.
Proof.
  induction fuel as [|fuel IH]; intros fuel' [p|] winner heap heap' L H;
    cbn in H; try discriminate.
  - now destruct fuel'.
  - destruct fuel' as [|fuel']; [lia|]. cbn.
    destruct (heap !! p) as [n|]; [|discriminate].
    apply IH; [lia|exact H].
  - now destruct fuel'.
Qed.

Lemma backpropagate_results_fuel fuel fuel' node results : forall heap heap',
  (fuel <= fuel')%nat ->
  backpropagate_results fuel node results heap = Returned heap' ->
  backpropagate_results fuel' node results heap = Returned heap'.
Proof.
  induction results as [|r rs IH]; intros heap heap' L H; cbn in *; trivial.
  destruct (backpropagate fuel (Some node) r heap) as [h| | |] eqn:E;
    try discriminate.
  rewrite (backpropagate_fuel _ _ _ _ _ _ L E). cbn in *. now apply IH.
Qed.

Lemma playout_batch_fuel fuel fuel' threads node board :
  forall boards (gen : Gen) r,
  (fuel <= fuel')%nat ->
  playout_batch fuel threads node board boards gen = Returned r ->
  playout_batch fuel' threads node board boards gen = Returned r.
Proof.
  induction threads as [|k IH]; intros bs g r L H; cbn in *; trivial.
  destruct (simulate_random_playout fuel _ _ _ _) as [[[w1 b1] g1]| | |] eqn:E;
    try discriminate.
  rewrite (simulate_random_playout_fuel _ _ _ _ _ _ _ L E). cbn in *.
  destruct (playout_batch fuel _ _ _ _ _) as [[[r2 b2] g2]| | |] eqn:E2;
    try discriminate.
  now rewrite (IH _ _ _ L E2).
Qed.

Lemma iteration_fuel fuel fuel' env board (w w' : @world Board Gen) :
  (fuel <= fuel')%nat ->
  iteration log fuel env board w = Returned w' ->
  iteration log fuel' env board w = Returned w'.
Proof.
  intros L H. unfold iteration in *.
  destruct (root (this w)) as [r|]; [|discriminate].
  destruct (select_child _ _ _ _) as [chosen| | |]; try discriminate.
  cbn in *.
  destruct (arena (this w) !! chosen) as [node|]; [|discriminate].
  destruct (is_parallelized (this w)).
  - destruct (playout_batch fuel _ _ _ _ _) as [[[results bs] g]| | |] eqn:B;
      try discriminate.
    rewrite (playout_batch_fuel _ _ _ _ _ _ _ _ L B). cbn in *.
    destruct (backpropagate_results fuel _ _ _) as [h| | |] eqn:E;
      try discriminate.
    now rewrite (backpropagate_results_fuel _ _ _ _ _ _ L E).
  - destruct (simulate_random_playout fuel _ _ _ _) as [[[winner bs] g]| | |] eqn:B;
      try discriminate.
    rewrite (simulate_random_playout_fuel _ _ _ _ _ _ _ L B). cbn in *.
    destruct (backpropagate fuel _ _ _) as [h| | |] eqn:E; try discriminate.
    now rewrite (backpropagate_fuel _ _ _ _ _ _ L E).
Qed.

Lemma search_loop_fuel fuel fuel' env end_time board steps :
  forall steps' tick (w w' : @world Board Gen),
  (fuel <= fuel')%nat -> (steps <= steps')%nat ->
  search_loop log fuel steps env end_time tick board w = Returned w' ->
  search_loop log fuel' steps' env end_time tick board w = Returned w'.
Proof.
  induction steps as [|steps IH]; intros steps' tick w w' L L' H; cbn in H;
    [discriminate|].
  destruct steps' as [|steps']; [lia|]. cbn.
  destruct (now env tick <? end_time); [|exact H].
  destruct (iteration log fuel env board w) as [w1| | |] eqn:E;
    try discriminate.
  rewrite (iteration_fuel _ _ _ _ _ _ L E). cbn in *.
  apply IH; trivial. lia.
Qed.

Lemma search_fuel fuel fuel' env board player (w w' : @world Board Gen) :
  (fuel <= fuel')%nat ->
  search log fuel env board player w = Returned w' ->
  search log fuel' env board player w = Returned w'.
Proof.
  intros L H. unfold search in *. cbn [make_shared length app] in *.
  destruct (boards w !! board) as [b|]; [|discriminate].
  destruct (expand_node 0%nat b _) as [h| | |]; try discriminate. cbn in *.
  eapply search_loop_fuel; eauto.
Qed.

End Fuel.

(** ** The shape of the tree *)

Lemma tree_shape_credited pl moves heap heap' :
  Forall2 credited heap heap' -> tree_shape pl moves heap ->
  tree_shape pl moves heap'.
Proof.
  intros C [(r & Hr & Hp & Hc) Hk]. split.
  - destruct (Forall2_lookup_l _ _ _ _ _ C Hr) as (r' & Hr' & (_ & _ & E1 & E2 & _)).
    exists r'. repeat split; congruence.
  - intros p Lp. destruct (Hk p Lp) as (c & Hc' & Hpar & Hpl & Hm).
    destruct (Forall2_lookup_l _ _ _ _ _ C Hc') as (c' & Hc'' & (E0 & E1 & _ & E2 & _)).
    exists c'. repeat split; congruence.
Qed.

Lemma lookup_map {A B} (f : A -> B) (l : list A) : forall i,
  map f l !! i = f <$> (l !! i).
Proof. induction l as [|x l IH]; intros [|i]; cbn; trivial. Qed.

Lemma expand_node_tree_shape {Board} `{!BoardOps Board} (b : Board) pl heap :
  expand_node 0%nat b [Node_new pl (-1, -1) None] = Returned heap ->
  tree_shape pl (get_valid_moves b) heap.
Proof.
  unfold expand_node.
  rewrite (expand_loop_spec _ [Node_new pl (-1, -1) None] 0%nat _ eq_refl).
  intros [= <-]. split.
  - eexists. split; [reflexivity|]. split; reflexivity.
  - intros p Lp. cbn [length app].
    destruct p as [|p]; [lia|].
    destruct (lookup_lt_is_Some_2 (get_valid_moves b) p ltac:(lia)) as [m Hm].
    exists (Node_new pl m (Some 0%nat)).
    rewrite lookup_cons_ne_0 by lia. cbn [Nat.pred].
    rewrite lookup_map, Hm.
    repeat split. eapply list_elem_of_lookup_2; eauto.
Qed.

Lemma select_loop_returns log ef heap parent rest : forall best max,
  Forall (fun p => is_Some (heap !! p)) rest ->
  exists p, select_loop log ef heap parent rest best max = Returned p /\
            (p = best \/ p ∈ rest).
Proof.
  induction rest as [|c rest IH]; intros best max H; cbn.
  - eauto.
  - destruct (Forall_cons_1 _ _ _ H) as [[n Hn] H']. rewrite Hn.
    destruct (max <? _)%float.
    + destruct (IH c (calculate_uct_score log ef n parent) H') as (p & -> & [->|Hin]);
        eexists; split; try reflexivity; right; [left|now right].
    + destruct (IH best max H') as (p & -> & [->|Hin]);
        eexists; split; try reflexivity; [now left|right; now right].
Qed.

Lemma select_child_returns log ef pl moves heap :
  tree_shape pl moves heap -> moves <> [] ->
  exists p, select_child log ef 0%nat heap = Returned p /\
            (1 <= p <= length moves)%nat.
Proof.
  intros [(r & Hr & _ & Hc) Hk] Hne. unfold select_child. rewrite Hr, Hc.
  destruct moves as [|m moves]; [contradiction|]. cbn [length seq].
  destruct (Hk 1%nat ltac:(cbn; lia)) as (c & Hc1 & _). rewrite Hc1.
  destruct (select_loop_returns log ef heap r (seq 2 (length moves)) 1%nat
              (calculate_uct_score log ef c r)) as (p & -> & Hp).
  - apply Forall_forall. intros p Hp. apply elem_of_seq in Hp.
    destruct (Hk p ltac:(cbn; lia)) as (c' & -> & _). eauto.
  - exists p. split; [reflexivity|]. cbn.
    destruct Hp as [->|Hp]; [lia|]. apply elem_of_seq in Hp. lia.
Qed.

(** A backpropagation from a child of the root credits the child, then the
    root, and ends. *)
Lemma backpropagate_child fuel p c r winner heap :
  heap !! p = Some c -> parent_node c = Some 0%nat -> p <> 0%nat ->
  heap !! 0%nat = Some r -> parent_node r = None ->
  backpropagate (S (S fuel)) (Some p) winner heap
  = Returned (<[0%nat := credit winner r]> (<[p := credit winner c]> heap)).
Proof.
  intros Hc Hpc Hne Hr Hpr. cbn [backpropagate]. rewrite Hc.
  fold (credit winner c).
  assert (parent_node (credit winner c) = Some 0%nat) as ->
    by (unfold credit; destruct (decide _); exact Hpc).
  rewrite list_lookup_insert_ne, Hr by trivial.
  fold (credit winner r).
  assert (parent_node (credit winner r) = None) as ->
    by (unfold credit; destruct (decide _); exact Hpr).
  now destruct fuel.
Qed.

Lemma visit_count_credit winner n :
  visit_count (credit winner n) = visit_count n + 1.
Proof. unfold credit. now destruct (decide _). Qed.

Lemma visits_le_insert m heap p n :
  visits_le m heap -> visit_count n <= m -> visits_le m (<[p := n]> heap).
Proof. intros H Hn. now apply Forall_insert. Qed.

Lemma visits_le_mono m m' heap : m <= m' -> visits_le m heap -> visits_le m' heap.
Proof. intros L H. eapply Forall_impl; [exact H|]. cbn. intros. lia. Qed.

Lemma credited_visits heap heap' p c :
  Forall2 credited heap heap' -> heap !! p = Some c ->
  exists c', heap' !! p = Some c' /\ visit_count c <= visit_count c'.
Proof.
  intros C Hc. destruct (Forall2_lookup_l _ _ _ _ _ C Hc) as (c' & Hc' & Hcc).
  exists c'. split; [assumption|]. destruct Hcc as (_ & _ & _ & _ & ?). lia.
Qed.

Lemma backpropagate_results_single fuel p winner heap :
  backpropagate_results fuel p [winner] heap
  = backpropagate fuel (Some p) winner heap.
Proof. cbn. now destruct (backpropagate fuel (Some p) winner heap). Qed.

(** ** Every pass returns *)

Section Progress.

Context {Board Gen : Type} `{!BoardOps Board} `{!RandomOps Gen}.
Variable log : float -> float.

(** The position searched from and the player searched for; every rollout
    from a legal first move comes to an end. *)
Variables (b : Board) (pl : Cell_state).

Hypothesis rollouts_end : forall (mv : Z * Z) (g : Gen),
  mv ∈ get_valid_moves b ->
  exists winner g',
    rollout (make_move (fst mv) (snd mv) pl b) pl g winner g'.

Lemma simulate_random_playout_returns node board boards (g : Gen) :
  boards !! board = Some b -> player node = pl ->
  move node ∈ get_valid_moves b ->
  exists fuel0 winner g', forall fuel, (fuel0 <= fuel)%nat ->
    simulate_random_playout fuel node board boards g
    = Returned (winner, boards, g').
Proof.
  intros Hb Hp Hm. destruct (rollouts_end (move node) g Hm) as (winner & g' & R).
  rewrite <- Hp in R.
  destruct (simulate_random_playout_complete _ _ _ _ _ _ _ Hb R) as (fuel0 & H).
  eauto.
Qed.

Lemma playout_batch_returns threads node board boards :
  boards !! board = Some b -> player node = pl ->
  move node ∈ get_valid_moves b ->
  forall g : Gen,
  exists fuel0 results g',
    length results = threads /\
    forall fuel, (fuel0 <= fuel)%nat ->
      playout_batch fuel threads node board boards g
      = Returned (results, boards, g').
Proof.
  intros Hb Hp Hm. induction threads as [|k IH]; intros g.
  - exists 0%nat, [], g. split; [reflexivity|]. reflexivity.
  - destruct (simulate_random_playout_returns node board boards g Hb Hp Hm)
      as (f1 & winner & g1 & H1).
    destruct (IH g1) as (f2 & results & g2 & Hl & H2).
    exists (Nat.max f1 f2), (winner :: results), g2.
    split; [cbn; now rewrite Hl|].
    intros fuel L. cbn. rewrite H1 by lia. cbn. rewrite H2 by lia. reflexivity.
Qed.

Lemma backpropagate_results_returns p results : forall heap,
  tree_shape pl (get_valid_moves b) heap ->
  (1 <= p <= length (get_valid_moves b))%nat ->
  exists heap',
    (forall fuel,
       backpropagate_results (S (S fuel)) p results heap = Returned heap') /\
    (forall m, visits_le m heap ->
       visits_le (m + Z.of_nat (length results)) heap') /\
    (forall c, heap !! p = Some c ->
       exists c', heap' !! p = Some c' /\
                  visit_count c + Z.of_nat (length results) <= visit_count c').
Proof.
  induction results as [|winner results IH]; intros heap Sh Lp.
  - exists heap. split; [reflexivity|]. split.
    + intros m H. cbn. now rewrite Z.add_0_r.
    + intros c Hc. exists c. split; [assumption|]. cbn. lia.
  - pose proof Sh as [(r & Hr & Hpr & _) Hk].
    destruct (Hk p Lp) as (c & Hc & Hpc & _).
    assert (p <> 0%nat) as Hne by lia.
    set (heap1 := <[0%nat := credit winner r]> (<[p := credit winner c]> heap)).
    assert (forall fuel,
      backpropagate (S (S fuel)) (Some p) winner heap = Returned heap1) as B
      by (intros; now apply backpropagate_child).
    assert (tree_shape pl (get_valid_moves b) heap1) as S1.
    { eapply tree_shape_credited; [|exact Sh].
      eapply (backpropagate_credited 2). apply (B 0%nat). }
    destruct (IH heap1 S1 Lp) as (heap' & H1 & H2 & H3).
    exists heap'. split; [|split].
    + intros fuel. cbn [backpropagate_results]. rewrite B. apply H1.
    + intros m H. cbn [length].
      replace (m + Z.of_nat (S (length results)))
        with (m + 1 + Z.of_nat (length results)) by lia.
      apply H2. subst heap1.
      apply visits_le_insert; [apply visits_le_insert|].
      * eapply visits_le_mono; [|exact H]. lia.
      * rewrite visit_count_credit.
        pose proof (Forall_lookup_1 _ _ _ _ H Hc) as V. cbn in V. lia.
      * rewrite visit_count_credit.
        pose proof (Forall_lookup_1 _ _ _ _ H Hr) as V. cbn in V. lia.
    + intros c0 Hc0. assert (c0 = c) as -> by congruence.
      destruct (H3 (credit winner c)) as (c' & Hc' & V).
      { subst heap1. rewrite list_lookup_insert_ne by lia.
        apply list_lookup_insert_eq. eapply lookup_lt_Some; eauto. }
      exists c'. split; [assumption|]. rewrite visit_count_credit in V.
      cbn [length]. lia.
Qed.

Lemma ready_same_search board (w w' : @world Board Gen) :
  same_search w w' -> ready b pl board w -> ready b pl board w'.
Proof.
  intros (C & R & _ & _ & _ & B) (Hb & Hr & Sh).
  split; [congruence|]. split; [congruence|].
  eapply tree_shape_credited; eauto.
Qed.

Lemma iteration_returns env board (w : @world Board Gen) :
  ready b pl board w -> get_valid_moves b <> [] ->
  exists fuel0 w',
    (forall fuel, (fuel0 <= fuel)%nat ->
       iteration log fuel env board w = Returned w') /\
    (forall m, visits_le m (arena (this w)) ->
       visits_le (m + Z.of_nat (batch_size env w)) (arena (this w'))) /\
    ((1 <= batch_size env w)%nat -> Forall counters_ok (arena (this w)) ->
     exists p c, (1 <= p <= length (get_valid_moves b))%nat /\
                 arena (this w') !! p = Some c /\ 1 <= visit_count c).
Proof.
  intros (Hb & Hr & Sh) Hne.
  destruct (select_child_returns log (exploration_factor (this w)) _ _ _ Sh Hne)
    as (p & Hsel & Lp).
  pose proof Sh as [_ Hk]. destruct (Hk p Lp) as (c & Hc & _ & Hpl & Hm).
  unfold batch_size, iteration. rewrite Hr, Hsel. cbn [mbind outcome_bind].
  rewrite Hc. destruct (is_parallelized (this w)).
  - destruct (playout_batch_returns (hardware_concurrency env) c board (boards w)
                Hb Hpl Hm (random_generator (this w)))
      as (f1 & results & g' & Hl & H1).
    destruct (backpropagate_results_returns p results _ Sh Lp)
      as (heap' & H2 & V & Vp).
    exists (Nat.max f1 2), (mkWorld (set_arena heap' (set_generator g' (this w)))
                              (boards w)).
    split; [|split].
    + intros fuel L. rewrite H1 by lia. cbn [mbind outcome_bind].
      destruct fuel as [|[|fuel]]; try lia. now rewrite H2.
    + intros m H. cbn. rewrite <- Hl. now apply V.
    + intros LK Ok. destruct (Vp c Hc) as (c' & Hc' & Hv).
      exists p, c'. repeat split; try lia; trivial.
      pose proof (Forall_lookup_1 _ _ _ _ Ok Hc) as [? ?]. lia.
  - destruct (simulate_random_playout_returns c board (boards w)
                (random_generator (this w)) Hb Hpl Hm)
      as (f1 & winner & g' & H1).
    destruct (backpropagate_results_returns p [winner] _ Sh Lp)
      as (heap' & H2 & V & Vp).
    exists (Nat.max f1 2), (mkWorld (set_arena heap' (set_generator g' (this w)))
                              (boards w)).
    split; [|split].
    + intros fuel L. rewrite H1 by lia. cbn [mbind outcome_bind].
      destruct fuel as [|[|fuel]]; try lia.
      rewrite <- backpropagate_results_single. now rewrite H2.
    + intros m H. cbn. now apply (V m).
    + intros _ Ok. destruct (Vp c Hc) as (c' & Hc' & Hv).
      exists p, c'. repeat split; try lia; trivial.
      pose proof (Forall_lookup_1 _ _ _ _ Ok Hc) as [? ?]. cbn in Hv. lia.
Qed.

(** ** The loop comes to an end *)

Lemma batch_size_same_search env (w w' : @world Board Gen) :
  same_search w w' -> batch_size env w' = batch_size env w.
Proof. intros (_ & _ & _ & _ & E & _). unfold batch_size. now rewrite E. Qed.

Lemma search_loop_returns env board end_time :
  get_valid_moves b <> [] ->
  forall (n tick : nat) (w : @world Board Gen),
  ready b pl board w ->
  (forall k, (tick <= k < tick + n)%nat -> now env k < end_time) ->
  end_time <= now env (tick + n)%nat ->
  exists fuel0 w',
    (forall fuel steps, (fuel0 <= fuel)%nat -> (n < steps)%nat ->
       search_loop log fuel steps env end_time tick board w = Returned w') /\
    (forall m, visits_le m (arena (this w)) ->
       visits_le (m + Z.of_nat (n * batch_size env w)) (arena (this w'))) /\
    ((1 <= n)%nat -> (1 <= batch_size env w)%nat ->
     Forall counters_ok (arena (this w)) ->
     exists p c, (1 <= p <= length (get_valid_moves b))%nat /\
                 arena (this w') !! p = Some c /\ 1 <= visit_count c).
Proof.
  intros Hne. induction n as [|n IH]; intros tick w Rw Hlt Hge.
  - exists 0%nat, w. split; [|split].
    + intros fuel [|steps] _ L; [lia|]. cbn [search_loop].
      rewrite Nat.add_0_r in Hge.
      now rewrite (proj2 (Z.ltb_ge _ _) Hge).
    + intros m H. cbn. now rewrite Z.add_0_r.
    + lia.
  - destruct (iteration_returns env board w Rw Hne) as (f1 & w1 & H1 & V1 & P1).
    pose proof (iteration_same_search log _ _ _ _ _ (H1 f1 (le_n _))) as S1.
    pose proof (ready_same_search _ _ _ S1 Rw) as Rw1.
    pose proof (batch_size_same_search env _ _ S1) as K1.
    destruct (IH (S tick) w1 Rw1) as (f2 & w' & H2 & V2 & _).
    { intros k Lk. apply Hlt. lia. }
    { now replace (S tick + n)%nat with (tick + S n)%nat by lia. }
    exists (Nat.max f1 f2), w'. split; [|split].
    + intros fuel [|steps] Lf Ls; [lia|]. cbn [search_loop].
      rewrite (proj2 (Z.ltb_lt _ _) (Hlt tick ltac:(lia))).
      rewrite H1 by lia. cbn [mbind outcome_bind]. apply H2; lia.
    + intros m H. apply V1, V2 in H. rewrite K1 in H.
      cbn [Nat.mul]. rewrite Nat2Z.inj_add, Z.add_assoc. exact H.
    + intros _ LK Ok. destruct (P1 LK Ok) as (p & c & Lp & Hc & Hv).
      pose proof (search_loop_same_search log _ _ _ _ _ _ _ _
        (H2 f2 (S n) (le_n _) (le_n _))) as (C & _).
      destruct (credited_visits _ _ _ _ C Hc) as (c' & Hc' & Hv').
      exists p, c'. repeat split; try lia; trivial.
Qed.



End Progress.

(** * The two selection loops as scans *)

Lemma first_max_zip {A B} (score : B -> float) (xs : list A) (ys : list B) i x y :
  first_max (fun it => score (snd it)) (zip xs ys) i (x, y) ->
  length xs = length ys ->
  xs !! i = Some x /\ first_max score ys i y.
Proof.
  intros (Hi & Hn & Hl & Hr) Hlen.
  apply lookup_zip_with_Some in Hi as (x0 & y0 & [= -> ->] & Hx & Hy).
  split; [assumption|]. split; [assumption|]. split; [exact Hn|]. split.
  - intros j y' Hj Hy' Hn'.
    destruct (lookup_lt_is_Some_2 xs j) as [x' Hx'].
    { rewrite Hlen. eapply lookup_lt_Some; eauto. }
    apply (Hl j (x', y')); trivial.
    apply lookup_zip_with_Some. eauto.
  - intros j y' Hj Hy' Hn'.
    destruct (lookup_lt_is_Some_2 xs j) as [x' Hx'].
    { rewrite Hlen. eapply lookup_lt_Some; eauto. }
    apply (Hr j (x', y')); trivial.
    apply lookup_zip_with_Some. eauto.
Qed.

Lemma best_child_loop_scan heap ptrs nodes :
  Forall2 (fun p c => heap !! p = Some c) ptrs nodes ->
  forall max best,
  best_child_loop heap ptrs max (fst <$> best)
  = Returned (fst <$> scan (fun it => win_ratio (snd it)) (zip ptrs nodes) max best).
Proof.
  induction 1 as [|p c ptrs nodes Hp _ IH]; intros max best; cbn; [reflexivity|].
  rewrite Hp. fold (win_ratio c).
  destruct (max <? win_ratio c)%float.
  - exact (IH (win_ratio c) (Some (p, c))).
  - apply IH.
Qed.

Lemma win_ratio_visited c :
  counters_ok c -> 0 < visit_count c < 2 ^ 53 ->
  is_nan (win_ratio c) = false /\ (-1 <? win_ratio c)%float = true.
Proof.
  intros [H1 H2] Hv. unfold win_ratio.
  split; [apply ratio_not_nan|apply ratio_above_minus_one]; lia.
Qed.

Lemma win_ratio_unvisited c :
  counters_ok c -> visit_count c = 0 -> is_nan (win_ratio c) = true.
Proof.
  intros [H1 H2] Hv. unfold win_ratio.
  assert (win_count c = 0) as -> by lia. now rewrite Hv.
Qed.

Lemma win_ratio_nan_iff c :
  counters_ok c -> visit_count c < 2 ^ 53 ->
  (is_nan (win_ratio c) = false <-> 0 < visit_count c).
Proof.
  intros Hc Hb. destruct (Z.eq_dec (visit_count c) 0) as [E|N].
  - rewrite (win_ratio_unvisited c Hc E). split; [discriminate|lia].
  - assert (0 < visit_count c < 2 ^ 53) as Hv by (destruct Hc; lia).
    destruct (win_ratio_visited c Hc Hv) as [-> _]. split; [lia|trivial].
Qed.

(** What the final scan decides, on a root whose children are live. *)
Lemma decide_move_spec heap root r children :
  heap !! root = Some r ->
  deref_all heap (child_nodes r) = Some children ->
  Forall counters_ok children ->
  Forall (fun c => visit_count c < 2 ^ 53) children ->
  (decide_move heap root = Thrown insufficient_statistics /\
   Forall (fun c => visit_count c = 0) children) \/
  (exists i c,
     decide_move heap root = Returned (move c) /\
     children !! i = Some c /\ 0 < visit_count c /\
     (forall j c', (j < i)%nat -> children !! j = Some c' -> 0 < visit_count c' ->
        (win_ratio c' <? win_ratio c)%float = true) /\
     (forall j c', (i < j)%nat -> children !! j = Some c' -> 0 < visit_count c' ->
        (win_ratio c' <=? win_ratio c)%float = true)).
Proof.
  intros Hr Hd Hc Hb. apply deref_all_Some in Hd.
  pose proof (Forall2_length _ _ _ Hd) as Hlen.
  unfold decide_move. rewrite Hr.
  pose proof (best_child_loop_scan _ _ _ Hd (-1)%float None) as B.
  change (fst <$> None) with (@None nat) in B. rewrite B. clear B.
  set (score := fun it : nat * Node => win_ratio (snd it)).
  assert (forall y, y ∈ zip (child_nodes r) children ->
            counters_ok (snd y) /\ visit_count (snd y) < 2 ^ 53) as Hin.
  { intros [p c] Hy. apply list_elem_of_lookup in Hy as [i Hi].
    apply lookup_zip_with_Some in Hi as (? & ? & [= <- <-] & _ & Hi).
    apply list_elem_of_lookup_2 in Hi. cbn.
    split; eapply Forall_forall in Hi; eauto; exact Hi. }
  pose proof (scan_from_bound score (-1)%float (zip (child_nodes r) children) []) as S.
  cbn [app] in S.
  destruct (scan score _ _ None) as [[p c]|] eqn:E; cbn.
  - right. destruct S as [i F].
    + intros y Hy Hn. destruct (Hin y Hy) as [H1 H2].
      apply win_ratio_nan_iff in Hn; trivial.
      apply win_ratio_visited; trivial. lia.
    + intros y Hy. inversion Hy.
    + apply first_max_zip in F as (Hp & Hi & Hn & Hl & Hg); trivial.
      pose proof (proj1 (Forall_lookup _ _) Hc i c Hi) as Hci.
      pose proof (proj1 (Forall_lookup _ _) Hb i c Hi) as Hbi. cbn in Hbi.
      exists i, c.
      rewrite (Forall2_lookup_lr _ _ _ _ _ _ Hd Hp Hi).
      split; [reflexivity|]. split; [assumption|].
      split; [now apply win_ratio_nan_iff|]. split.
      * intros j c' Hj Hj' Hv. apply (Hl j c'); trivial.
        apply win_ratio_nan_iff; trivial.
        -- exact (proj1 (Forall_lookup _ _) Hc j c' Hj').
        -- exact (proj1 (Forall_lookup _ _) Hb j c' Hj').
      * intros j c' Hj Hj' Hv. apply (Hg j c'); trivial.
        apply win_ratio_nan_iff; trivial.
        -- exact (proj1 (Forall_lookup _ _) Hc j c' Hj').
        -- exact (proj1 (Forall_lookup _ _) Hb j c' Hj').
  - left. split; [reflexivity|].
    apply Forall_lookup. intros i c Hi.
    destruct (lookup_lt_is_Some_2 (child_nodes r) i) as [p Hp].
    { rewrite Hlen. eapply lookup_lt_Some; eauto. }
    assert ((p, c) ∈ zip (child_nodes r) children) as Hy.
    { eapply list_elem_of_lookup_2. apply lookup_zip_with_Some. eauto. }
    assert (is_nan (score (p, c)) = true) as Hn.
    { apply S; trivial.
      - intros y Hy' Hn. destruct (Hin y Hy') as [H1 H2].
        apply win_ratio_nan_iff in Hn; trivial.
        apply win_ratio_visited; trivial. lia.
      - intros y Hy'. inversion Hy'. }
    destruct (Hin _ Hy) as [H1 H2]. cbn in *.
    destruct (Z.eq_dec (visit_count c) 0) as [|N]; trivial.
    assert (0 < visit_count c) as Hv by (destruct H1; lia).
    apply win_ratio_nan_iff in Hv; trivial.
    subst score. cbn in Hn. fold (win_ratio c) in Hn. congruence.
Qed.

(** * The final decision *)

Section Decision.

Context {Board Gen : Type} `{!BoardOps Board} `{!RandomOps Gen}.
Variable log : float -> float.

Lemma choose_move_decides fuel env board player (w w' : @world Board Gen) :
  search log fuel env board player w = Returned w' ->
  choose_move log fuel env board player w
  = (decide_move (arena (this w')) 0%nat, w').
Proof.
  intros H. unfold choose_move. rewrite H.
  now apply search_final in H as (_ & _ & _ & _ & -> & _).
Qed.





(** C5, as the code has it. On a board without legal moves the expansion
    leaves the root without children, and [choose_move] has no error of its
    own for this case: the only error it can end with is the
    insufficient-statistics error, and it ends with that one, returning no
    coordinate, when the budget is already used up at the first reading of
    the clock, so that no pass of the loop runs. *)
Theorem choose_move_no_legal_moves (fuel : nat) (env : Env) (board : nat)
    (player : Cell_state) (w : @world Board Gen) (b : Board) :
  boards w !! board = Some b ->
  get_valid_moves b = [] ->
  let end_time := now env 0 + max_decision_time (this w) in
  expand_node 0%nat b [Node_new player (-1, -1) None]
    = Returned [Node_new player (-1, -1) None] /\
  (forall e, fst (choose_move log fuel env board player w) = Thrown e ->
     e = insufficient_statistics) /\
  ((now env 1 <? end_time) = false ->
   fst (choose_move log (S fuel) env board player w)
   = Thrown insufficient_statistics).
Proof.
  intros Hb Hm end_time.
  assert (forall f,
    fst (choose_move log f env board player w) =
    match f with
    | O => OutOfFuel
    | S _ => if now env 1 <? end_time then Undefined
             else Thrown insufficient_statistics
    end) as E.
  { intros f. unfold choose_move, search, expand_node.
    cbn [make_shared length app]. rewrite Hb, Hm.
    cbn [expand_loop mbind outcome_bind this max_decision_time set_tree].
    fold end_time. destruct f as [|f]; [reflexivity|]. cbn [search_loop].
    destruct (now env 1 <? end_time); reflexivity. }
  split; [|split].
  - unfold expand_node. now rewrite Hm.
  - intros e. rewrite E. destruct fuel; [discriminate|].
    destruct (now env 1 <? end_time); congruence.
  - intros T. now rewrite E, T.
Qed.

End Decision.

(** * The selector *)

Section Selector.

Variable log : float -> float.

Lemma select_loop_scan ef heap parent rest nodes :
  Forall2 (fun p c => heap !! p = Some c) rest nodes ->
  forall best cb max,
  exists p c,
    scan (fun it => calculate_uct_score log ef (snd it) parent)
         (zip rest nodes) max (Some (best, cb)) = Some (p, c) /\
    select_loop log ef heap parent rest best max = Returned p.
Proof.
  induction 1 as [|p c rest nodes Hp _ IH]; intros best cb max; cbn.
  - eauto.
  - rewrite Hp. destruct (max <? _)%float; apply IH.
Qed.

(** C2, as the code has it. For a node with at least one child, the
    selector gives a visited child the score
    [win_count / visit_count
     + exploration_factor * sqrt (log parent.visit_count / visit_count)]
    in [double] arithmetic and an unvisited child the largest finite
    [double], a value that no score other than +infinity exceeds. When no
    score is NaN it returns the first child with the greatest score:
    strictly above every child before it, at least every child after it.
    If moreover every visited child scores below the largest finite
    [double], a child that has not been visited is returned whenever there
    is one. *)
Theorem select_child_first_max (ef : float) (heap : tree)
    (parent_ptr : nat) (parent : Node) (children : list Node) :
  heap !! parent_ptr = Some parent ->
  child_nodes parent <> [] ->
  deref_all heap (child_nodes parent) = Some children ->
  let score := fun c => calculate_uct_score log ef c parent in
  Forall (fun c => is_nan (score c) = false) children ->
  (forall c, visit_count c = 0 -> score c = DBL_MAX) /\
  (forall c, visit_count c <> 0 ->
     score c =
     (double_of_int (win_count c) / double_of_int (visit_count c)
      + ef * PrimFloat.sqrt (log (double_of_int (visit_count parent))
                             / double_of_int (visit_count c)))%float) /\
  (forall x : float, (DBL_MAX <? x)%float = true -> x = infinity) /\
  exists i p c,
    select_child log ef parent_ptr heap = Returned p /\
    child_nodes parent !! i = Some p /\ children !! i = Some c /\
    (forall j c', (j < i)%nat -> children !! j = Some c' ->
       (score c' <? score c)%float = true) /\
    (forall j c', (i < j)%nat -> children !! j = Some c' ->
       (score c' <=? score c)%float = true) /\
    (Forall (fun c' => visit_count c' <> 0 -> (score c' <? DBL_MAX)%float = true)
            children ->
     (exists c', c' ∈ children /\ visit_count c' = 0) ->
     visit_count c = 0).
Proof.
  intros Hp Hne Hd score Hn.
  assert (forall c, visit_count c = 0 -> score c = DBL_MAX) as S0.
  { intros c E. unfold score, calculate_uct_score. now rewrite E. }
  split; [exact S0|]. split.
  { intros c E. unfold score, calculate_uct_score.
    destruct (Z.eqb_spec (visit_count c) 0); [contradiction|reflexivity]. }
  split; [exact above_DBL_MAX|].
  apply deref_all_Some in Hd.
  pose proof (Forall2_length _ _ _ Hd) as Hlen.
  unfold select_child. rewrite Hp.
  destruct Hd as [|p0 c0 rest nodes Hp0 Hd]; [contradiction|]. rewrite Hp0.
  destruct (select_loop_scan ef heap parent rest nodes Hd p0 c0
              (calculate_uct_score log ef c0 parent)) as (p & c & Hs & ->).
  set (sc := fun it : nat * Node => score (snd it)) in *.
  assert (first_max sc [(p0, c0)] 0 (p0, c0)) as F0.
  { split; [reflexivity|]. split.
    - exact (Forall_inv Hn).
    - split; intros j y Hj Hy; [lia|]. destruct j; [lia|discriminate]. }
  destruct (scan_from_best sc (zip rest nodes) _ _ _ F0) as (i & x & Hs' & F).
  assert (x = (p, c)) as -> by (unfold sc, score in Hs'; cbn in Hs'; congruence).
  clear Hs Hs'.
  change ([(p0, c0)] ++ zip rest nodes) with (zip (p0 :: rest) (c0 :: nodes)) in F.
  apply first_max_zip in F as (Hi & Hc & _ & Hl & Hg); trivial.
  exists i, p, c. split; [reflexivity|]. split; [assumption|].
  split; [assumption|].
  assert (forall j c', (c0 :: nodes) !! j = Some c' -> is_nan (score c') = false) as Nn.
  { intros j c' Hj. exact (proj1 (Forall_lookup _ _) Hn j c' Hj). }
  split; [intros j c' Hj Hc'; apply (Hl j c'); eauto|].
  split; [intros j c' Hj Hc'; apply (Hg j c'); eauto|].
  intros Hbelow (c' & Hin & Hv').
  destruct (Z.eq_dec (visit_count c) 0) as [|Hv]; trivial. exfalso.
  pose proof (proj1 (Forall_lookup _ _) Hbelow i c Hc Hv) as Lc. cbn in Lc.
  apply list_elem_of_lookup in Hin as [j Hj].
  pose proof (S0 c' Hv') as Sc'.
  destruct (lt_eq_lt_dec j i) as [[L|E]|G].
  - pose proof (Hl j c' L Hj (Nn _ _ Hj)) as X. cbn in X. rewrite Sc' in X.
    apply ltb_asym in X. congruence.
  - subst j. congruence.
  - pose proof (Hg j c' G Hj (Nn _ _ Hj)) as X. cbn in X. rewrite Sc' in X.
    apply leb_ltb_false in X. congruence.
Qed.

End Selector.

(** * Runs under different clocks *)

Section Determinism.

Context {Board Gen : Type} `{!BoardOps Board} `{!RandomOps Gen}.
Variable log : float -> float.

Lemma iteration_clock fuel env1 env2 board (w : @world Board Gen) :
  is_parallelized (this w) = false ->
  iteration log fuel env1 board w = iteration log fuel env2 board w.
Proof. intros P. unfold iteration. now rewrite P. Qed.

Lemma search_loop_clock fuel env1 env2 end1 end2 board last steps :
  forall tick (w : @world Board Gen),
  is_parallelized (this w) = false ->
  (tick <= last)%nat ->
  (forall k, (tick <= k <= last)%nat ->
     (now env1 k <? end1) = (now env2 k <? end2)) ->
  (now env1 last <? end1) = false ->
  search_loop log fuel steps env1 end1 tick board w
  = search_loop log fuel steps env2 end2 tick board w.
Proof.
  induction steps as [|steps IH]; intros tick w P L A F; cbn; [reflexivity|].
  rewrite <- (A tick) by lia.
  destruct (now env1 tick <? end1) eqn:T; [|reflexivity].
  assert (tick <> last) by congruence.
  rewrite (iteration_clock fuel env1 env2 board w P).
  destruct (iteration log fuel env2 board w) as [w1| | |] eqn:E; try reflexivity.
  cbn. apply IH; try lia.
  - apply iteration_same_search in E as (_ & _ & _ & _ & E & _). congruence.
  - intros k Hk. apply A. lia.
Qed.

(** C8, as the code has it. In single-threaded mode, two runs of
    [choose_move] from the same state of the agent (the same state of the
    generator in particular), on the same position and with the same time
    budget, make the same choice and leave the same state behind, provided
    their clocks let the loop make the same number of passes. *)
Theorem choose_move_deterministic (fuel : nat) (env1 env2 : Env) (board : nat)
    (player : Cell_state) (w : @world Board Gen) (n : nat) :
  is_parallelized (this w) = false ->
  passes env1 (max_decision_time (this w)) n ->
  passes env2 (max_decision_time (this w)) n ->
  choose_move log fuel env1 board player w
  = choose_move log fuel env2 board player w.
Proof.
  intros P [A1 B1] [A2 B2]. unfold choose_move.
  enough (search log fuel env1 board player w
          = search log fuel env2 board player w) as -> by reflexivity.
  unfold search. cbn [make_shared length app].
  destruct (boards w !! board) as [b|]; [|reflexivity].
  destruct (expand_node 0%nat b _) as [h| | |]; try reflexivity.
  cbn [mbind outcome_bind this max_decision_time set_tree].
  apply (search_loop_clock fuel env1 env2 _ _ board (S n)); trivial; try lia.
  intros k Hk. destruct (decide (k = S n)) as [->|Hne].
  - destruct (Z.ltb_spec (now env1 (S n)) (now env1 0 + max_decision_time (this w)));
      destruct (Z.ltb_spec (now env2 (S n)) (now env2 0 + max_decision_time (this w)));
      trivial; lia.
  - specialize (A1 k ltac:(lia)). specialize (A2 k ltac:(lia)).
    destruct (Z.ltb_spec (now env1 k) (now env1 0 + max_decision_time (this w)));
      destruct (Z.ltb_spec (now env2 k) (now env2 0 + max_decision_time (this w)));
      trivial; lia.
Qed.

End Determinism.

(** * Backpropagation along the parent pointers *)

Lemma parent_node_credit winner n : parent_node (credit winner n) = parent_node n.
Proof. unfold credit. now destruct (decide _). Qed.

Lemma player_credit winner n : player (credit winner n) = player n.
Proof. unfold credit. now destruct (decide _). Qed.

Lemma win_count_credit winner n :
  win_count (credit winner n)
  = win_count n + (if decide (winner = player n) then 1 else 0).
Proof. unfold credit. cbn. destruct (decide _); cbn; lia. Qed.

Lemma on_path_le heap p i :
  parents_first heap -> on_path heap p i -> (i <= p)%nat.
Proof.
  intros PF. induction 1 as [p|p n q i Hn Hq _ IH]; [lia|].
  specialize (PF _ _ _ Hn Hq). lia.
Qed.

(** The path only depends on the parent pointers. *)
Lemma on_path_same_parents heap heap' p i :
  (forall k n, heap !! k = Some n ->
     exists n', heap' !! k = Some n' /\ parent_node n' = parent_node n) ->
  on_path heap p i -> on_path heap' p i.
Proof.
  intros Same. induction 1 as [p|p n q i Hn Hq _ IH]; [constructor|].
  destruct (Same _ _ Hn) as (n' & Hn' & E).
  eapply on_path_up; eauto. congruence.
Qed.

Lemma on_path_credit heap k n winner p i :
  heap !! k = Some n ->
  on_path (<[k := credit winner n]> heap) p i <-> on_path heap p i.
Proof.
  intros Hk. pose proof (lookup_lt_Some _ _ _ Hk) as L.
  split; apply on_path_same_parents; intros j m Hj.
  - destruct (decide (j = k)) as [->|Hne].
    + rewrite list_lookup_insert_eq in Hj by trivial. injection Hj as <-.
      exists n. split; [assumption|]. now rewrite parent_node_credit.
    + rewrite list_lookup_insert_ne in Hj by congruence. eauto.
  - destruct (decide (j = k)) as [->|Hne].
    + exists (credit winner n). rewrite list_lookup_insert_eq by trivial.
      split; [reflexivity|]. rewrite parent_node_credit. congruence.
    + exists m. now rewrite list_lookup_insert_ne by congruence.
Qed.

Lemma parents_first_credit heap k n winner :
  heap !! k = Some n -> parents_first heap ->
  parents_first (<[k := credit winner n]> heap).
Proof.
  intros Hk PF i m q Hi Hq. pose proof (lookup_lt_Some _ _ _ Hk) as L.
  destruct (decide (i = k)) as [->|Hne].
  - rewrite list_lookup_insert_eq in Hi by trivial. injection Hi as <-.
    rewrite parent_node_credit in Hq. eauto.
  - rewrite list_lookup_insert_ne in Hi by congruence. eauto.
Qed.

Lemma backpropagate_along_path winner : forall p heap,
  parents_first heap -> is_Some (heap !! p) ->
  exists heap',
    (forall fuel, (p < fuel)%nat ->
       backpropagate fuel (Some p) winner heap = Returned heap') /\
    length heap' = length heap /\
    (forall i n, heap !! i = Some n ->
       (on_path heap p i -> heap' !! i = Some (credit winner n)) /\
       (~ on_path heap p i -> heap' !! i = Some n)).
Proof.
  induction p as [p IH] using lt_wf_ind. intros heap PF [n Hn].
  pose proof (lookup_lt_Some _ _ _ Hn) as L.
  set (heap1 := <[p := credit winner n]> heap).
  assert (forall fuel,
    backpropagate (S fuel) (Some p) winner heap
    = backpropagate fuel (parent_node n) winner heap1) as Step.
  { intros fuel. cbn [backpropagate]. rewrite Hn. fold (credit winner n).
    now rewrite parent_node_credit. }
  destruct (parent_node n) as [q|] eqn:Hq.
  - pose proof (PF _ _ _ Hn Hq) as Lq.
    destruct (IH q Lq heap1) as (heap' & Run & Len & Eff).
    { now apply parents_first_credit. }
    { apply lookup_lt_is_Some. subst heap1. rewrite length_insert. lia. }
    exists heap'. split; [|split].
    + intros [|fuel] Lf; [lia|]. rewrite Step. apply Run. lia.
    + rewrite Len. subst heap1. apply length_insert.
    + intros i m Hi. destruct (decide (i = p)) as [->|Hne].
      * assert (m = n) as -> by congruence.
        split; [intros _|intros N; destruct N; constructor].
        destruct (Eff p (credit winner n)) as [_ Keep].
        { subst heap1. now apply list_lookup_insert_eq. }
        apply Keep. intros P. apply on_path_credit in P; [|exact Hn].
        apply (on_path_le _ _ _ PF) in P. lia.
      * destruct (Eff i m) as [Hit Miss].
        { subst heap1. now rewrite list_lookup_insert_ne by congruence. }
        split; intros P.
        -- apply Hit. apply on_path_credit; [exact Hn|].
           inversion P; subst; [congruence|].
           assert (q0 = q) as -> by congruence. assumption.
        -- apply Miss. intros P'. apply P.
           apply on_path_credit in P'; [|exact Hn].
           eapply on_path_up; eauto.
  - exists heap1. split; [|split].
    + intros [|fuel] Lf; [lia|]. rewrite Step. now destruct fuel.
    + subst heap1. apply length_insert.
    + intros i m Hi. destruct (decide (i = p)) as [->|Hne].
      * assert (m = n) as -> by congruence.
        split; [intros _|intros N; destruct N; constructor].
        subst heap1. now apply list_lookup_insert_eq.
      * split; intros P.
        -- inversion P; subst; congruence.
        -- subst heap1. now rewrite list_lookup_insert_ne by congruence.
Qed.

(** X7. Backpropagation on any tree whose parents come first, on a machine
    whose counters have the maximum [counter_max], from a node whose
    ancestors' counters are all below that maximum (so that no increment
    overflows): it ends within as many steps as the cell index of the node
    plus one, credits every node on the way from the node to the root once
    (one visit, and one win where the winner is the node's player), the
    counters staying within the maximum, and leaves every other node and
    the size of the arena as they are. *)
Theorem backpropagate_credits_path (counter_max : Z) (winner : Cell_state)
    (p : nat) (heap : tree) :
  parents_first heap ->
  is_Some (heap !! p) ->
  (forall i n, heap !! i = Some n -> on_path heap p i ->
     visit_count n < counter_max /\ win_count n < counter_max) ->
  exists heap',
    (forall fuel, (p < fuel)%nat ->
       backpropagate fuel (Some p) winner heap = Returned heap') /\
    length heap' = length heap /\
    (forall i n, heap !! i = Some n ->
       (on_path heap p i ->
        exists n', heap' !! i = Some n' /\
          visit_count n' = visit_count n + 1 /\
          win_count n'
          = win_count n + (if decide (winner = player n) then 1 else 0) /\
          visit_count n' <= counter_max /\ win_count n' <= counter_max /\
          credited n n') /\
       (~ on_path heap p i -> heap' !! i = Some n)).
Proof.
  intros PF Hp Hbelow.
  destruct (backpropagate_along_path winner p heap PF Hp)
    as (heap' & Run & Len & Eff).
  exists heap'. split; [exact Run|]. split; [exact Len|].
  intros i n Hi. destruct (Eff i n Hi) as [Hit Miss]. split; [|exact Miss].
  intros P. destruct (Hbelow i n Hi P) as [Hv Hw].
  exists (credit winner n). split; [auto|].
  rewrite visit_count_credit, win_count_credit.
  repeat split; try apply credited_credit; try lia.
  destruct (decide _); lia.
Qed.

(** * What an expansion leaves as it is *)

Section ExpansionFrame.

Context {Board : Type} `{!BoardOps Board}.

(** X2. Expanding any live node, with or without children: the arena grows by
    one fresh node per legal move, placed after the nodes it had; the new
    nodes have no visits, no wins and no children, and are appended to the
    children the node already had, which stay in place; the node keeps its
    counters, move, player and parent, and every other node is left as it
    is. Without legal moves nothing changes, even for a pointer that
    designates no node; with legal moves such a pointer is dereferenced. *)
Theorem expand_node_appends (board : Board) (heap : tree) (node : node_ptr) :
  let moves := get_valid_moves board in
  (forall n, heap !! node = Some n ->
     exists heap' n',
       expand_node node board heap = Returned heap' /\
       length heap' = (length heap + length moves)%nat /\
       heap' !! node = Some n' /\
       child_nodes n' = child_nodes n ++ seq (length heap) (length moves) /\
       win_count n' = win_count n /\ visit_count n' = visit_count n /\
       move n' = move n /\ player n' = player n /\
       parent_node n' = parent_node n /\
       (forall i, (i < length heap)%nat -> i <> node -> heap' !! i = heap !! i) /\
       (forall k mv, moves !! k = Some mv ->
          heap' !! (length heap + k)%nat
          = Some (Node_new (player n) mv (Some node)))) /\
  (heap !! node = None ->
     (moves = [] -> expand_node node board heap = Returned heap) /\
     (moves <> [] -> expand_node node board heap = Undefined)).
Proof.
  intros moves. split.
  - intros n Hn. pose proof (lookup_lt_Some _ _ _ Hn) as L.
    unfold expand_node. rewrite (expand_loop_spec _ _ _ _ Hn). fold moves.
    eexists _, _. split; [reflexivity|].
    split; [now rewrite length_insert, length_app, length_map|].
    split; [apply list_lookup_insert_eq; rewrite length_app; lia|].
    cbn [add_children child_nodes win_count visit_count move player parent_node].
    repeat (split; [reflexivity|]). split.
    + intros i Li Hne. rewrite list_lookup_insert_ne by congruence.
      now apply lookup_app_l.
    + intros k mv Hk. pose proof (lookup_lt_Some _ _ _ Hk) as Lk.
      rewrite list_lookup_insert_ne by lia.
      rewrite lookup_app_r by lia.
      replace (length heap + k - length heap)%nat with k by lia.
      now rewrite list_lookup_fmap, Hk.
  - intros Hn. unfold expand_node. fold moves. split.
    + now intros ->.
    + intros Hne. destruct moves as [|mv moves']; [contradiction|].
      cbn. now rewrite Hn.
Qed.

End ExpansionFrame.

(** * What a pass does to the tree *)

Lemma credit_all_snoc results winner n :
  credit_all (results ++ [winner]) n = credit winner (credit_all results n).
Proof. unfold credit_all. now rewrite foldl_app. Qed.

Lemma credit_all_cons winner results n :
  credit_all (winner :: results) n = credit_all results (credit winner n).
Proof. reflexivity. Qed.

Lemma credited_credit_all results : forall n, credited n (credit_all results n).
Proof.
  induction results as [|winner results IH]; intros n.
  - apply credited_refl.
  - rewrite credit_all_cons. eapply credited_trans; [apply credited_credit|apply IH].
Qed.

Lemma visit_count_credit_all results : forall n,
  visit_count (credit_all results n)
  = visit_count n + Z.of_nat (length results).
Proof.
  induction results as [|winner results IH]; intros n.
  - cbn. lia.
  - rewrite credit_all_cons, IH, visit_count_credit. cbn [length]. lia.
Qed.

Lemma win_count_credit_all results : forall n,
  win_count (credit_all results n)
  = win_count n + wins_of (player n) results.
Proof.
  unfold wins_of. induction results as [|winner results IH]; intros n.
  - cbn. lia.
  - rewrite credit_all_cons, IH, win_count_credit, player_credit.
    rewrite filter_cons. destruct (decide (winner = player n)); cbn [length]; lia.
Qed.

Lemma wins_of_bounds pl results :
  0 <= wins_of pl results <= Z.of_nat (length results).
Proof.
  unfold wins_of. pose proof (length_filter (fun winner => winner = pl) results).
  lia.
Qed.

(** The backpropagations of a batch from a child of the root. *)
Lemma backpropagate_results_child p results : forall fuel c r heap,
  heap !! p = Some c -> parent_node c = Some 0%nat -> p <> 0%nat ->
  heap !! 0%nat = Some r -> parent_node r = None ->
  backpropagate_results (S (S fuel)) p results heap
  = Returned (<[0%nat := credit_all results r]>
                (<[p := credit_all results c]> heap)).
Proof.
  induction results as [|winner results IH]; intros fuel c r heap Hc Hpc Hne Hr Hpr.
  - cbn. now rewrite (list_insert_id _ _ _ Hc), (list_insert_id _ _ _ Hr).
  - cbn [backpropagate_results].
    rewrite (backpropagate_child fuel p c r winner heap Hc Hpc Hne Hr Hpr).
    cbn [mbind outcome_bind].
    pose proof (lookup_lt_Some _ _ _ Hc) as Lp.
    pose proof (lookup_lt_Some _ _ _ Hr) as L0.
    rewrite (IH fuel (credit winner c) (credit winner r)).
    + f_equal. rewrite !credit_all_cons.
      rewrite (list_insert_insert_ne _ p 0%nat) by congruence.
      now rewrite !list_insert_insert_eq.
    + rewrite list_lookup_insert_ne by congruence.
      now apply list_lookup_insert_eq.
    + now rewrite parent_node_credit.
    + assumption.
    + apply list_lookup_insert_eq. now rewrite length_insert.
    + now rewrite parent_node_credit.
Qed.

Lemma flat_tree_shape pl moves heap :
  flat_tree pl moves heap -> tree_shape pl moves heap.
Proof.
  intros (r & leaves & -> & _ & _ & Hp & Hc & F). split.
  - exists r. auto.
  - intros p Lp. destruct p as [|k]; [lia|].
    destruct (lookup_lt_is_Some_2 moves k ltac:(lia)) as [mv Hmv].
    destruct (Forall2_lookup_r _ _ _ _ _ F Hmv) as (c & Hc' & <- & Hpl & Hpar & _).
    exists c. repeat split; trivial. eapply list_elem_of_lookup_2; eauto.
Qed.

Lemma flat_tree_length pl moves heap :
  flat_tree pl moves heap -> length heap = S (length moves).
Proof.
  intros (r & leaves & -> & _ & _ & _ & _ & F).
  cbn. now rewrite (Forall2_length _ _ _ F).
Qed.

Lemma flat_tree_credited pl moves heap heap' :
  Forall2 credited heap heap' -> flat_tree pl moves heap ->
  flat_tree pl moves heap'.
Proof.
  intros C (r & leaves & -> & Hm & Hpl & Hp & Hc & F).
  apply Forall2_cons_inv_l in C as (r' & leaves' & (E1 & E2 & E3 & E4 & _) & C & ->).
  exists r', leaves'. repeat split; try congruence.
  clear -F C. revert leaves' C. induction F as [|c mv leaves moves Hc F IH];
    intros leaves' C.
  - apply Forall2_nil_inv_l in C as ->. constructor.
  - apply Forall2_cons_inv_l in C as (c' & ls' & (E1 & E2 & E3 & E4 & _) & C & ->).
    constructor; [|now apply IH].
    destruct Hc as (? & ? & ? & ?). repeat split; congruence.
Qed.

Lemma expand_node_flat {Board} `{!BoardOps Board} (b : Board) pl heap :
  expand_node 0%nat b [Node_new pl (-1, -1) None] = Returned heap ->
  flat_tree pl (get_valid_moves b) heap.
Proof.
  unfold expand_node.
  rewrite (expand_loop_spec _ [Node_new pl (-1, -1) None] 0%nat _ eq_refl).
  intros [= <-]. eexists _, _. split; [reflexivity|].
  repeat (split; [reflexivity|]).
  apply Forall2_fmap_l, Forall_Forall2_diag, Forall_forall.
  intros mv _. repeat split.
Qed.

Lemma select_child_bounds log ef pl moves heap p :
  tree_shape pl moves heap ->
  select_child log ef 0%nat heap = Returned p ->
  (1 <= p <= length moves)%nat /\ moves <> [].
Proof.
  intros Sh H. destruct moves as [|mv moves].
  - destruct Sh as [(r & Hr & _ & Hc) _]. unfold select_child in H.
    rewrite Hr, Hc in H. discriminate.
  - destruct (select_child_returns log ef pl (mv :: moves) heap Sh ltac:(discriminate))
      as (p' & E & L).
    split; [congruence|discriminate].
Qed.

Section PassEffect.

Context {Board Gen : Type} `{!BoardOps Board} `{!RandomOps Gen}.
Variable log : float -> float.

Lemma playout_batch_results fuel threads (node : Node) board original :
  forall boards (gen : Gen) results boards' gen',
  boards !! board = Some original ->
  playout_batch fuel threads node board boards gen
    = Returned (results, boards', gen') ->
  length results = threads /\
  Forall (fun winner => exists g g',
            rollout (make_move (fst (move node)) (snd (move node)) (player node)
                               original) (player node) g winner g')
         results.
Proof.
  induction threads as [|k IH]; intros bs g results bs' g' Hb H; cbn in H.
  - injection H as <- <- <-. split; [reflexivity|constructor].
  - destruct (simulate_random_playout fuel _ _ _ _) as [[[w1 b1] g1]| | |] eqn:E;
      try discriminate. cbn in H.
    destruct (playout_batch fuel _ _ _ _ _) as [[[r2 b2] g2]| | |] eqn:E2;
      try discriminate. cbn in H. injection H as <- <- <-.
    destruct (simulate_random_playout_sound _ _ _ _ _ _ _ _ _ Hb E) as [-> R].
    destruct (IH _ _ _ _ _ Hb E2) as [Hl F].
    split; [cbn; now rewrite Hl|]. constructor; eauto.
Qed.

(** One pass from a world that is ready for it. *)
Lemma iteration_effect (b : Board) pl fuel env board (w w' : @world Board Gen) :
  ready b pl board w ->
  iteration log fuel env board w = Returned w' ->
  exists p c r results,
    (1 <= p <= length (get_valid_moves b))%nat /\
    select_child log (exploration_factor (this w)) 0%nat (arena (this w))
      = Returned p /\
    arena (this w) !! p = Some c /\ arena (this w) !! 0%nat = Some r /\
    length results = batch_size env w /\
    Forall (fun winner => exists g g',
              rollout (make_move (fst (move c)) (snd (move c)) pl b) pl
                      g winner g') results /\
    arena (this w')
    = <[0%nat := credit_all results r]>
        (<[p := credit_all results c]> (arena (this w))).
Proof.
  intros (Hb & Hroot & Sh) H.
  apply iteration_inv in H
    as (r0 & p & c & results & bs & g & h & Hr0 & Hsel & Hc & P & B & ->).
  assert (r0 = 0%nat) as -> by congruence.
  destruct (select_child_bounds _ _ _ _ _ _ Sh Hsel) as [Lp _].
  pose proof Sh as [(r & Hr & Hpr & _) Hk].
  destruct (Hk p Lp) as (c' & Hc' & Hpc & Hpl & _).
  assert (c' = c) as -> by congruence.
  exists p, c, r, results. repeat (split; [assumption || lia|]).
  assert (length results = batch_size env w /\
          Forall (fun winner => exists g g',
              rollout (make_move (fst (move c)) (snd (move c)) pl b) pl
                      g winner g') results) as [Hl F].
  { unfold batch_size. rewrite <- Hpl. destruct (is_parallelized (this w)).
    - eapply playout_batch_results; eauto.
    - destruct P as (winner & -> & P). split; [reflexivity|].
      apply simulate_random_playout_sound with (original := b) in P as [_ R];
        trivial.
      repeat constructor. eauto. }
  split; [exact Hl|]. split; [exact F|]. cbn.
  apply (backpropagate_results_fuel fuel (S (S fuel))) in B; [|lia].
  rewrite (backpropagate_results_child p results fuel c r) in B; trivial; [|lia].
  congruence.
Qed.

End PassEffect.

Lemma sum_visits_cons n nodes :
  sum_visits (n :: nodes) = visit_count n + sum_visits nodes.
Proof. reflexivity. Qed.

Lemma sum_wins_cons n nodes :
  sum_wins (n :: nodes) = win_count n + sum_wins nodes.
Proof. reflexivity. Qed.

Lemma sum_visits_insert leaves : forall k c c',
  leaves !! k = Some c ->
  sum_visits (<[k := c']> leaves)
  = sum_visits leaves - visit_count c + visit_count c'.
Proof.
  induction leaves as [|x leaves IH]; intros [|k] c c' H; try discriminate.
  - injection H as ->.
    change (<[0%nat := c']> (c :: leaves)) with (c' :: leaves).
    rewrite !sum_visits_cons. lia.
  - change (<[S k := c']> (x :: leaves)) with (x :: <[k := c']> leaves).
    cbn in H. rewrite !sum_visits_cons, (IH k c c' H). lia.
Qed.

Lemma sum_wins_insert leaves : forall k c c',
  leaves !! k = Some c ->
  sum_wins (<[k := c']> leaves)
  = sum_wins leaves - win_count c + win_count c'.
Proof.
  induction leaves as [|x leaves IH]; intros [|k] c c' H; try discriminate.
  - injection H as ->.
    change (<[0%nat := c']> (c :: leaves)) with (c' :: leaves).
    rewrite !sum_wins_cons. lia.
  - change (<[S k := c']> (x :: leaves)) with (x :: <[k := c']> leaves).
    cbn in H. rewrite !sum_wins_cons, (IH k c c' H). lia.
Qed.

Lemma deref_all_leaves r leaves :
  deref_all (r :: leaves) (seq 1 (length leaves)) = Some leaves.
Proof. exact (deref_all_appended [r] leaves 0%nat r (Nat.lt_0_1)). Qed.

Section PassTotals.

Context {Board Gen : Type} `{!BoardOps Board} `{!RandomOps Gen}.
Variable log : float -> float.
Variables (b : Board) (pl : Cell_state).

Lemma iteration_totals fuel env board m (w w' : @world Board Gen) :
  kept b pl board m w ->
  iteration log fuel env board w = Returned w' ->
  kept b pl board (m + Z.of_nat (batch_size env w)) w'.
Proof.
  intros (Hb & Hroot & Fl & T) H.
  pose proof (iteration_same_search log _ _ _ _ _ H) as (C & Hroot' & _ & _ & _ & Hb').
  assert (ready b pl board w) as Rw
    by (split; [|split]; trivial; now apply flat_tree_shape).
  destruct (iteration_effect log b pl _ _ _ _ _ Rw H)
    as (p & c & r & results & Lp & _ & Hc & Hr & Hl & _ & E).
  split; [congruence|]. split; [congruence|].
  split; [eapply flat_tree_credited; eauto|].
  destruct T as (r0 & leaves & Ea & Hv & Sv & Sw).
  destruct Fl as (r1 & leaves1 & Ea1 & _ & Hpl & _ & _ & F).
  rewrite Ea in Ea1. injection Ea1 as <- <-.
  rewrite Ea in Hr, Hc, E. cbn in Hr. injection Hr as <-.
  destruct p as [|k]; [lia|]. cbn in Hc, E.
  assert (player c = pl) as Hpc.
  { destruct (Forall2_lookup_l _ _ _ _ _ F Hc) as (mv & _ & _ & ? & _).
    assumption. }
  exists (credit_all results r0), (<[k := credit_all results c]> leaves).
  split; [exact E|].
  rewrite (sum_visits_insert _ _ _ _ Hc), (sum_wins_insert _ _ _ _ Hc).
  rewrite !visit_count_credit_all, !win_count_credit_all, Hl, Hpc, Hpl.
  repeat split; lia.
Qed.

Lemma search_loop_totals fuel env end_time board : forall n steps tick m
    (w w' : @world Board Gen),
  kept b pl board m w ->
  (forall k, (tick <= k < tick + n)%nat -> now env k < end_time) ->
  end_time <= now env (tick + n)%nat ->
  search_loop log fuel steps env end_time tick board w = Returned w' ->
  kept b pl board (m + Z.of_nat (n * batch_size env w)) w'.
Proof.
  induction n as [|n IH]; intros [|steps] tick m w w' K Hlt Hge H;
    try discriminate; cbn [search_loop] in H.
  - rewrite Nat.add_0_r in Hge. rewrite (proj2 (Z.ltb_ge _ _) Hge) in H.
    injection H as <-. cbn. now rewrite Z.add_0_r.
  - rewrite (proj2 (Z.ltb_lt _ _) (Hlt tick ltac:(lia))) in H.
    destruct (iteration log fuel env board w) as [w1| | |] eqn:E;
      try discriminate. cbn [mbind outcome_bind] in H.
    pose proof (iteration_totals _ _ _ _ _ _ K E) as K1.
    pose proof (iteration_same_search log _ _ _ _ _ E) as (_ & _ & _ & _ & Ep & _).
    apply (IH steps (S tick) _ w1 w' K1) in H.
    + replace (batch_size env w1) with (batch_size env w) in H
        by (unfold batch_size; now rewrite Ep).
      cbn [Nat.mul]. rewrite Nat2Z.inj_add, Z.add_assoc. exact H.
    + intros k Lk. apply Hlt. lia.
    + now replace (S tick + n)%nat with (tick + S n)%nat by lia.
Qed.

Lemma sum_visits_fresh (moves : list (Z * Z)) parent :
  sum_visits (map (fun m => Node_new pl m parent) moves) = 0 /\
  sum_wins (map (fun m => Node_new pl m parent) moves) = 0.
Proof.
  induction moves as [|mv moves [IH1 IH2]]; [split; reflexivity|].
  cbn [map]. rewrite sum_visits_cons, sum_wins_cons, IH1, IH2. split; reflexivity.
Qed.

Lemma search_totals fuel env board n (w w' : @world Board Gen) :
  search log fuel env board pl w = Returned w' ->
  passes env (max_decision_time (this w)) n ->
  boards w !! board = Some b ->
  flat_tree pl (get_valid_moves b) (arena (this w')) /\
  totals (Z.of_nat (n * batch_size env w)) (arena (this w')).
Proof.
  intros H [Hlt Hge] Hb. unfold search in H. cbn [make_shared length app] in H.
  rewrite Hb in H.
  destruct (expand_node 0%nat b _) as [h0| | |] eqn:E0; try discriminate.
  cbn [mbind outcome_bind] in H.
  eapply (search_loop_totals _ _ _ _ n _ 1%nat 0) in H.
  - destruct H as (_ & _ & Fl & T). split; [exact Fl|]. exact T.
  - split; [exact Hb|]. split; [reflexivity|].
    split; [now apply expand_node_flat|]. cbn.
    unfold expand_node in E0.
    rewrite (expand_loop_spec _ [Node_new pl (-1, -1) None] 0%nat _ eq_refl)
      in E0.
    injection E0 as <-. eexists _, _. split; [reflexivity|].
    destruct (sum_visits_fresh (get_valid_moves b) (Some 0%nat)) as [-> ->].
    repeat split.
  - intros k Lk. apply Hlt. lia.
  - now replace (1 + n)%nat with (S n) by lia.
Qed.

End PassTotals.

(** * The counters on a machine *)

Lemma observable_below_range counter_max heap :
  observable_below counter_max heap -> Forall (within_range counter_max) heap.
Proof.
  induction 1 as [|heap pl mv par Hm _ IH|heap p n c _ IH Hp|heap p n _ IH Hp Hv
                  |heap p n _ IH Hp Hv]; cbn.
  - constructor.
  - apply Forall_app. split; [assumption|].
    repeat constructor; cbn; lia.
  - apply Forall_insert; trivial.
    pose proof (Forall_lookup_1 _ _ _ _ IH Hp) as K. exact K.
  - apply Forall_insert; trivial.
    pose proof (Forall_lookup_1 _ _ _ _ IH Hp) as K.
    unfold within_range in *. cbn. lia.
  - apply Forall_insert; trivial.
    pose proof (Forall_lookup_1 _ _ _ _ IH Hp) as K.
    unfold within_range in *. cbn. lia.
Qed.

Lemma observable_below_credit counter_max heap p n winner :
  observable_below counter_max heap -> heap !! p = Some n ->
  visit_count n < counter_max ->
  observable_below counter_max (<[p := credit winner n]> heap).
Proof.
  intros Ho Hp Hv. unfold credit. destruct (decide _).
  - now apply below_win.
  - now apply below_visit.
Qed.

(** The counters only grow: a bound on a later state bounds the earlier. *)
Lemma visits_le_credited counter_max heap heap' :
  Forall2 credited heap heap' -> visits_le counter_max heap' ->
  visits_le counter_max heap.
Proof.
  intros C. induction C as [|a a' l l' (_ & _ & _ & _ & Ha) _ IH]; intros V.
  - constructor.
  - apply Forall_cons in V as [Va V]. apply Forall_cons.
    split; [cbn in *; lia|now apply IH].
Qed.

Lemma backpropagate_observable_below counter_max fuel :
  forall current winner heap heap',
  backpropagate fuel current winner heap = Returned heap' ->
  visits_le counter_max heap' ->
  observable_below counter_max heap -> observable_below counter_max heap'.
Proof.
  induction fuel as [|fuel IH]; intros [p|] winner heap heap' H V Ho; cbn in H;
    try discriminate; try (now injection H as <-).
  destruct (heap !! p) as [n|] eqn:Hp; [|discriminate].
  fold (credit winner n) in H.
  eapply IH; [exact H|exact V|].
  apply observable_below_credit; trivial.
  apply backpropagate_credited in H.
  destruct (credited_visits _ _ p (credit winner n) H) as (c' & Hc' & Hv).
  { apply list_lookup_insert_eq. eapply lookup_lt_Some; eauto. }
  pose proof (Forall_lookup_1 _ _ _ _ V Hc') as Vc. cbn in Vc.
  rewrite visit_count_credit in Hv. lia.
Qed.

Lemma backpropagate_results_observable_below counter_max fuel node results :
  forall heap heap',
  backpropagate_results fuel node results heap = Returned heap' ->
  visits_le counter_max heap' ->
  observable_below counter_max heap -> observable_below counter_max heap'.
Proof.
  induction results as [|r rs IH]; intros heap heap' H V Ho; cbn in H.
  - now injection H as <-.
  - destruct (backpropagate fuel (Some node) r heap) as [h| | |] eqn:E;
      try discriminate. cbn in H.
    eapply IH; [exact H|exact V|].
    eapply backpropagate_observable_below; [exact E| |exact Ho].
    eapply visits_le_credited; [|exact V].
    eapply backpropagate_results_credited; eauto.
Qed.

Lemma expand_loop_observable_below counter_max valid_moves :
  0 <= counter_max ->
  forall node heap heap',
  observable_below counter_max heap ->
  expand_loop node valid_moves heap = Returned heap' ->
  observable_below counter_max heap'.
Proof.
  intros Hm.
  induction valid_moves as [|m ms IH]; intros node heap heap' Ho H; cbn in H.
  - now injection H as <-.
  - destruct (heap !! node) as [n|] eqn:Hn; [|discriminate].
    apply IH in H; trivial.
    apply below_link.
    + exact (below_construct counter_max heap (player n) m (Some node) Hm Ho).
    + cbn. now apply lookup_app_l_Some.
Qed.

Lemma visit_le_sum leaves :
  Forall (fun c => 0 <= visit_count c) leaves ->
  Forall (fun c => visit_count c <= sum_visits leaves) leaves.
Proof.
  induction 1 as [|c leaves Hc H IH]; [constructor|].
  assert (0 <= sum_visits leaves) as Hs.
  { clear -H. induction H as [|x l Hx _ IHl]; cbn; [lia|].
    change (0 <= visit_count x + sum_visits l). lia. }
  rewrite sum_visits_cons. constructor; [lia|].
  eapply Forall_impl; [exact IH|]. cbn. intros; lia.
Qed.

(** ** A backpropagation credits no node twice *)

Lemma height_unique heap current k :
  height heap current k -> forall k', height heap current k' -> k = k'.
Proof.
  induction 1 as [|p n k Hn _ IH]; intros k' H'; inversion H'; subst; trivial.
  f_equal. apply IH. congruence.
Qed.

Lemma height_same_parents heap heap' current k :
  (forall j m, heap !! j = Some m ->
     exists m', heap' !! j = Some m' /\ parent_node m' = parent_node m) ->
  height heap current k -> height heap' current k.
Proof.
  intros Same. induction 1 as [|p n k Hn _ IH]; [constructor|].
  destruct (Same _ _ Hn) as (n' & Hn' & E).
  eapply height_up; [exact Hn'|]. now rewrite E.
Qed.

Lemma height_credit heap p n winner current k :
  heap !! p = Some n ->
  height (<[p := credit winner n]> heap) current k <-> height heap current k.
Proof.
  intros Hp. pose proof (lookup_lt_Some _ _ _ Hp) as L.
  split; apply height_same_parents; intros j m Hj.
  - destruct (decide (j = p)) as [->|Hne].
    + rewrite list_lookup_insert_eq in Hj by trivial. injection Hj as <-.
      exists n. split; [assumption|]. now rewrite parent_node_credit.
    + rewrite list_lookup_insert_ne in Hj by congruence. eauto.
  - destruct (decide (j = p)) as [->|Hne].
    + exists (credit winner n). rewrite list_lookup_insert_eq by trivial.
      split; [reflexivity|]. rewrite parent_node_credit. congruence.
    + exists m. now rewrite list_lookup_insert_ne by congruence.
Qed.

Lemma backpropagate_step fuel p n winner heap :
  heap !! p = Some n ->
  backpropagate (S fuel) (Some p) winner heap
  = backpropagate fuel (parent_node n) winner (<[p := credit winner n]> heap).
Proof.
  intros Hp. cbn [backpropagate]. rewrite Hp. fold (credit winner n).
  now rewrite parent_node_credit.
Qed.

(** A backpropagation that returns has gone up a chain that ends. *)
Lemma backpropagate_height fuel : forall current winner heap heap',
  backpropagate fuel current winner heap = Returned heap' ->
  exists k, height heap current k.
Proof.
  induction fuel as [|fuel IH]; intros [p|] winner heap heap' H;
    try (exists 0%nat; constructor); [discriminate|].
  destruct (heap !! p) as [n|] eqn:Hp; [|cbn in H; now rewrite Hp in H].
  rewrite (backpropagate_step _ _ _ _ _ Hp) in H. apply IH in H as [k Hk].
  apply height_credit in Hk; [|exact Hp].
  exists (S k). eapply height_up; eauto.
Qed.

Lemma backpropagate_once winner : forall k current heap heap' fuel,
  height heap current k ->
  backpropagate fuel current winner heap = Returned heap' ->
  forall i n, heap !! i = Some n ->
    exists n', heap' !! i = Some n' /\
      visit_count n <= visit_count n' <= visit_count n + 1 /\
      (forall j, height heap (Some i) j -> (k < j)%nat -> n' = n).
Proof.
  induction k as [|k IH]; intros current heap heap' fuel Hk H i n Hi.
  - inversion Hk; subst. destruct fuel; cbn in H; injection H as <-.
    all: exists n; split; [assumption|]; split; [lia|trivial].
  - inversion Hk as [|p np k' Hp Hpar]; subst.
    destruct fuel as [|fuel]; [discriminate|].
    rewrite (backpropagate_step _ _ _ _ _ Hp) in H.
    assert (height (<[p := credit winner np]> heap) (parent_node np) k) as Hk1
      by (now apply height_credit).
    destruct (decide (i = p)) as [->|Hne].
    + assert (n = np) as -> by congruence.
      destruct (IH _ _ _ _ Hk1 H p (credit winner np)) as (n' & Hn' & _ & Same).
      { apply list_lookup_insert_eq. eapply lookup_lt_Some; eauto. }
      assert (n' = credit winner np) as ->.
      { apply (Same (S k)); [|lia]. apply height_credit; trivial. }
      exists (credit winner np). split; [assumption|].
      rewrite visit_count_credit. split; [lia|].
      intros j Hj Lj. pose proof (height_unique _ _ _ Hk _ Hj). lia.
    + destruct (IH _ _ _ _ Hk1 H i n) as (n' & Hn' & Hv & Same).
      { now rewrite list_lookup_insert_ne by congruence. }
      exists n'. split; [assumption|]. split; [assumption|].
      intros j Hj Lj. apply (Same j); [|lia]. now apply height_credit.
Qed.

(** From counters below the maximum, a backpropagation stays within it. *)
Lemma backpropagate_within counter_max fuel current winner heap heap' :
  Forall (fun n => visit_count n < counter_max) heap ->
  backpropagate fuel current winner heap = Returned heap' ->
  visits_le counter_max heap'.
Proof.
  intros Hb H. destruct (backpropagate_height _ _ _ _ _ H) as [k Hk].
  apply Forall_lookup. intros i n' Hn'.
  pose proof (backpropagate_credited _ _ _ _ _ H) as C.
  destruct (Forall2_lookup_r _ _ _ _ _ C Hn') as (n & Hn & _).
  destruct (backpropagate_once winner k _ _ _ _ Hk H i n Hn) as (n2 & Hn2 & Hv & _).
  assert (n2 = n') as -> by congruence.
  pose proof (Forall_lookup_1 _ _ _ _ Hb Hn) as B. cbn in *. lia.
Qed.

Section MachineCounters.

Context {Board Gen : Type} `{!BoardOps Board} `{!RandomOps Gen}.
Variable log : float -> float.

Lemma iteration_observable_below counter_max fuel env board
    (w w' : @world Board Gen) :
  iteration log fuel env board w = Returned w' ->
  visits_le counter_max (arena (this w')) ->
  observable_below counter_max (arena (this w)) ->
  observable_below counter_max (arena (this w')).
Proof.
  intros H V Ho. apply iteration_inv in H
    as (r & chosen & node & results & bs & g & h & _ & _ & _ & _ & B & ->).
  cbn in *. eapply backpropagate_results_observable_below; eauto.
Qed.

Lemma search_loop_observable_below counter_max fuel env end_time board :
  forall steps tick (w w' : @world Board Gen),
  search_loop log fuel steps env end_time tick board w = Returned w' ->
  visits_le counter_max (arena (this w')) ->
  observable_below counter_max (arena (this w)) ->
  observable_below counter_max (arena (this w')).
Proof.
  induction steps as [|steps IH]; intros tick w w' H V Ho; cbn in H;
    [discriminate|].
  destruct (now env tick <? end_time).
  - destruct (iteration log fuel env board w) as [w1| | |] eqn:E;
      try discriminate. cbn in H.
    eapply IH; [exact H|exact V|].
    eapply iteration_observable_below; [exact E| |exact Ho].
    eapply visits_le_credited; [|exact V].
    now apply search_loop_same_search in H as (C & _).
  - now injection H as <-.
Qed.

(** A search of [n] passes: no counter exceeds the number of rollouts. *)
Lemma search_visits_le fuel env board player n (w w' : @world Board Gen) :
  search log fuel env board player w = Returned w' ->
  passes env (max_decision_time (this w)) n ->
  visits_le (Z.of_nat (n * batch_size env w)) (arena (this w')).
Proof.
  intros H Hp.
  destruct (search_inv log _ _ _ _ _ _ H) as (b & h0 & Hb & _ & _ & O).
  destruct (search_totals log b player _ _ _ n _ _ H Hp Hb) as [_ T].
  destruct T as (r & leaves & E & Hv & Sv & _).
  apply observable_counters in O. rewrite E in *.
  apply Forall_cons in O as [_ Ol].
  apply Forall_cons. split; [cbn; lia|].
  rewrite <- Sv. apply visit_le_sum.
  eapply Forall_impl; [exact Ol|]. intros c [? ?]. cbn. lia.
Qed.

Lemma search_observable_below counter_max fuel env board player n
    (w w' : @world Board Gen) :
  search log fuel env board player w = Returned w' ->
  passes env (max_decision_time (this w)) n ->
  Z.of_nat (n * batch_size env w) <= counter_max ->
  observable_below counter_max (arena (this w')).
Proof.
  intros H Hp Hm.
  pose proof (search_visits_le _ _ _ _ _ _ _ H Hp) as V.
  apply (visits_le_mono _ counter_max) in V; [|exact Hm].
  unfold search in H. cbn [make_shared length app] in H.
  destruct (boards w !! board) as [b|]; [|discriminate].
  destruct (expand_node 0%nat b _) as [h0| | |] eqn:E0; try discriminate.
  cbn [mbind outcome_bind] in H.
  eapply search_loop_observable_below; [exact H|exact V|]. cbn.
  eapply (expand_loop_observable_below counter_max); [lia| |exact E0].
  exact (below_construct counter_max [] player (-1, -1) None ltac:(lia)
           (below_empty counter_max)).
Qed.

(** C1. The counters are machine integers; let [counter_max] be the
    maximum of their type. Both counters of a node are zero when it is
    constructed. In every state of the arena that a search goes through
    without incrementing a counter that has reached the maximum, every node
    has [0 <= win_count <= visit_count <= counter_max]. A backpropagation
    from a state in which every counter is below the maximum credits no
    node twice, so that no increment overflows: it takes such a state to
    such a state and changes nothing but the counters, adding to
    [win_count] of a node no more than it adds to its [visit_count]. The
    arena that [choose_move] leaves behind after [n] passes of the loop is
    such a state whenever the rollouts of the search, [n] times the size of
    a batch, are no more than [counter_max]. *)
Theorem counters_invariant :
  (forall player move parent,
     win_count (Node_new player move parent) = 0 /\
     visit_count (Node_new player move parent) = 0) /\
  (forall counter_max heap,
     observable_below counter_max heap ->
     Forall (fun n => 0 <= win_count n <= visit_count n /\
                      visit_count n <= counter_max) heap) /\
  (forall counter_max fuel current winner heap heap',
     Forall (fun n => visit_count n < counter_max) heap ->
     backpropagate fuel current winner heap = Returned heap' ->
     Forall2 credited heap heap' /\
     Forall (fun n => visit_count n <= counter_max) heap' /\
     (observable_below counter_max heap ->
      observable_below counter_max heap')) /\
  (forall counter_max fuel env board player (w w' : @world Board Gen) o n,
     passes env (max_decision_time (this w)) n ->
     Z.of_nat (n * batch_size env w) <= counter_max ->
     choose_move log fuel env board player w = (o, w') ->
     completed o ->
     observable_below counter_max (arena (this w'))).
Proof.
  split; [intros; split; reflexivity|].
  split; [exact observable_below_range|].
  split.
  - intros counter_max fuel current winner heap heap' Hb H.
    pose proof (backpropagate_within _ _ _ _ _ _ Hb H) as V.
    split; [eapply backpropagate_credited; eauto|]. split; [exact V|].
    intros Ho. eapply backpropagate_observable_below; eauto.
  - intros counter_max fuel env board player w w' o n Hp Hm H C.
    apply choose_move_completed in H; trivial.
    eapply search_observable_below; eauto.
Qed.

End MachineCounters.

(** * What a search leaves behind, and what it can return *)

Lemma best_child_loop_member heap children : forall max best p,
  best_child_loop heap children max best = Returned (Some p) ->
  best = Some p \/ p ∈ children.
Proof.
  induction children as [|child children IH]; intros max best p H; cbn in H.
  - injection H as ->. now left.
  - destruct (heap !! child) as [c|]; [|discriminate].
    destruct (max <? _)%float; apply IH in H as [H|H].
    + injection H as ->. right. left.
    + right. now right.
    + now left.
    + right. now right.
Qed.

Section Results.

Context {Board Gen : Type} `{!BoardOps Board} `{!RandomOps Gen}.
Variable log : float -> float.

(** X11. Whatever [choose_move] returns is one of the legal moves of the
    caller's board: the final scan can only settle on a child of the root,
    and these carry the legal moves. *)
Theorem choose_move_returns_legal_move (fuel : nat) (env : Env) (board : nat)
    (player : Cell_state) (w w' : @world Board Gen) (b : Board)
    (mv : Z * Z) :
  boards w !! board = Some b ->
  choose_move log fuel env board player w = (Returned mv, w') ->
  mv ∈ get_valid_moves b.
Proof.
  intros Hb H.
  pose proof (choose_move_completed log _ _ _ _ _ _ _ H I) as Hs.
  destruct (search_final log _ _ _ _ _ _ Hs)
    as (b' & r & children & Hb' & _ & Hr & Hd & Hm & _).
  assert (b' = b) as -> by congruence.
  rewrite (choose_move_decides _ _ _ _ _ _ _ Hs) in H.
  injection H as H. unfold decide_move in H. rewrite Hr in H.
  destruct (best_child_loop _ _ _ _) as [[p|]| | |] eqn:B; try discriminate.
  cbn in H. destruct (arena (this w') !! p) as [c|] eqn:Hc; [|discriminate].
  injection H as <-.
  apply best_child_loop_member in B as [B|B]; [discriminate|].
  rewrite <- Hm. apply list_elem_of_fmap. exists c. split; [reflexivity|].
  eapply deref_all_member; eauto.
Qed.

(** X10. When [choose_move] has returned or thrown, the agent holds the tree of
    this search and nothing else: the root in the first cell, for the
    player searched for, and one leaf per legal move of the board, in the
    board's order, each a child of the root without children of its own;
    however long the loop ran, nothing below the root's children was
    expanded. The configuration of the agent is the one it had. *)
Theorem choose_move_leaves_flat_tree (fuel : nat) (env : Env) (board : nat)
    (player : Cell_state) (w w' : @world Board Gen) (b : Board)
    (o : outcome (Z * Z)) :
  boards w !! board = Some b ->
  choose_move log fuel env board player w = (o, w') ->
  completed o ->
  root (this w') = Some 0%nat /\
  flat_tree player (get_valid_moves b) (arena (this w')) /\
  length (arena (this w')) = S (length (get_valid_moves b)) /\
  exploration_factor (this w') = exploration_factor (this w) /\
  max_decision_time (this w') = max_decision_time (this w) /\
  is_parallelized (this w') = is_parallelized (this w).
Proof.
  intros Hb H Ho.
  pose proof (choose_move_completed log _ _ _ _ _ _ _ H Ho) as Hs.
  destruct (search_inv log _ _ _ _ _ _ Hs)
    as (b' & h0 & Hb' & E0 & (C & R & Ef & Et & Ep & _) & _).
  assert (b' = b) as -> by congruence. cbn in C, R, Ef, Et, Ep.
  pose proof (flat_tree_credited _ _ _ _ C (expand_node_flat _ _ _ E0)) as Fl.
  repeat split; trivial. eapply flat_tree_length, Fl.
Qed.

(** X9. The counters of the root after a search of [n] passes whose
    rollouts, [n] times the size of a batch, are no more than the maximum
    [counter_max] of the counters' machine type: the root's visits are the
    rollouts run, both its visits and its wins are those of its children
    taken together (the children carry the root's player, so that a rollout
    won is a win for both), and no counter of the tree has passed the
    maximum. *)
Theorem choose_move_root_totals (counter_max : Z) (fuel : nat) (env : Env)
    (board : nat) (player : Cell_state) (w w' : @world Board Gen) (b : Board)
    (o : outcome (Z * Z)) (n : nat) :
  boards w !! board = Some b ->
  passes env (max_decision_time (this w)) n ->
  Z.of_nat (n * batch_size env w) <= counter_max ->
  choose_move log fuel env board player w = (o, w') ->
  completed o ->
  exists r children,
    arena (this w') !! 0%nat = Some r /\
    deref_all (arena (this w')) (child_nodes r) = Some children /\
    visit_count r = Z.of_nat (n * batch_size env w) /\
    sum_visits children = visit_count r /\
    sum_wins children = win_count r /\
    Forall (fun n => win_count n <= counter_max /\
                     visit_count n <= counter_max) (arena (this w')).
Proof.
  intros Hb Hp Hm H Ho.
  pose proof (choose_move_completed log _ _ _ _ _ _ _ H Ho) as Hs.
  pose proof (observable_below_range _ _
    (search_observable_below log counter_max _ _ _ _ _ _ _ Hs Hp Hm)) as Range.
  destruct (search_totals log b player _ _ _ n _ _ Hs Hp Hb) as [Fl T].
  destruct T as (r & leaves & E & Hv & Sv & Sw).
  destruct Fl as (r' & leaves' & E' & _ & _ & _ & Hc & F).
  rewrite E in E'. injection E' as <- <-.
  exists r, leaves. rewrite E. split; [reflexivity|].
  split; [rewrite Hc, <- (Forall2_length _ _ _ F); apply deref_all_leaves|].
  repeat (split; [congruence|]).
  rewrite <- E. eapply Forall_impl; [exact Range|].
  intros x [? ?]. cbn. lia.
Qed.

(** X8. One pass of the loop, from a state the loop can be in, when no two
    rollouts run at the same time (single mode, or parallel mode with at
    most one hardware thread) and every counter is below the maximum
    [counter_max] of its machine type: one child of the root is selected,
    the rollouts of the pass (one, or none) are run from its move for the
    player searched for, Blue or Red, and
    exactly the selected child and the root are credited: one visit each
    per rollout, one win each per rollout won by their player, within the
    maximum. Every other node and every board are left as they are. *)
Theorem iteration_credits_child_and_root (counter_max : Z) (fuel : nat)
    (env : Env) (board : nat) (b : Board) (pl : Cell_state)
    (w w' : @world Board Gen) :
  ready b pl board w ->
  pl <> Empty ->
  (batch_size env w <= 1)%nat ->
  Forall (fun n => win_count n < counter_max /\ visit_count n < counter_max)
         (arena (this w)) ->
  iteration log fuel env board w = Returned w' ->
  exists p c r c' r' results,
    (1 <= p <= length (get_valid_moves b))%nat /\
    arena (this w) !! p = Some c /\ arena (this w) !! 0%nat = Some r /\
    arena (this w') !! p = Some c' /\ arena (this w') !! 0%nat = Some r' /\
    length results = batch_size env w /\
    Forall (fun winner => exists g g',
              alternating_rollout
                (make_move (fst (move c)) (snd (move c)) pl b) pl
                g winner g') results /\
    visit_count c' = visit_count c + Z.of_nat (batch_size env w) /\
    visit_count r' = visit_count r + Z.of_nat (batch_size env w) /\
    win_count c' = win_count c + wins_of (player c) results /\
    win_count r' = win_count r + wins_of (player r) results /\
    Forall (fun n => win_count n <= counter_max /\
                     visit_count n <= counter_max) [c'; r'] /\
    (forall i, i <> 0%nat -> i <> p ->
       arena (this w') !! i = arena (this w) !! i) /\
    boards w' = boards w.
Proof.
  intros Rw Hpl HK Hbelow H.
  pose proof (iteration_same_search log _ _ _ _ _ H) as (_ & _ & _ & _ & _ & Hb).
  destruct (iteration_effect log b pl _ _ _ _ _ Rw H)
    as (p & c & r & results & Lp & _ & Hc & Hr & Hl & F & E).
  pose proof (lookup_lt_Some _ _ _ Hc) as L1.
  pose proof (lookup_lt_Some _ _ _ Hr) as L0.
  pose proof (Forall_lookup_1 _ _ _ _ Hbelow Hc) as [Bc1 Bc2].
  pose proof (Forall_lookup_1 _ _ _ _ Hbelow Hr) as [Br1 Br2].
  pose proof (wins_of_bounds (player c) results) as Wc.
  pose proof (wins_of_bounds (player r) results) as Wr.
  exists p, c, r, (credit_all results c), (credit_all results r), results.
  rewrite E, <- Hl.
  split; [exact Lp|]. split; [exact Hc|]. split; [exact Hr|].
  split. { rewrite list_lookup_insert_ne by lia. now apply list_lookup_insert_eq. }
  split. { apply list_lookup_insert_eq. now rewrite length_insert. }
  split; [reflexivity|].
  split.
  { eapply Forall_impl; [exact F|]. intros winner (g & g' & R).
    exists g, g'. now apply rollout_alternating. }
  split; [apply visit_count_credit_all|].
  split; [apply visit_count_credit_all|].
  split; [apply win_count_credit_all|].
  split; [apply win_count_credit_all|].
  split.
  { repeat constructor;
      rewrite ?visit_count_credit_all, ?win_count_credit_all; lia. }
  split; [|exact Hb].
  intros i H0 Hp. now rewrite !list_lookup_insert_ne by congruence.
Qed.

End Results.

(** * Edge cases of the selector and of the search *)

Lemma ltb_nan_l (a b : float) : is_nan a = true -> (a <? b)%float = false.
Proof.
  intros H. destruct (a <? b)%float eqn:E; [|reflexivity].
  apply ltb_not_nan in E as [E _]. congruence.
Qed.

Section SelectorEdges.

Variable log : float -> float.

Lemma select_loop_keeps ef heap parent rest best max :
  Forall (fun p => exists c, heap !! p = Some c /\
            (max <? calculate_uct_score log ef c parent)%float = false) rest ->
  select_loop log ef heap parent rest best max = Returned best.
Proof.
  induction 1 as [|p rest (c & Hc & Hs) _ IH]; cbn; [reflexivity|].
  now rewrite Hc, Hs.
Qed.

Lemma select_loop_result ef heap parent rest : forall best max p,
  select_loop log ef heap parent rest best max = Returned p ->
  p = best \/
  exists c, p ∈ rest /\ heap !! p = Some c /\
            is_nan (calculate_uct_score log ef c parent) = false.
Proof.
  induction rest as [|child rest IH]; intros best max p H; cbn in H.
  - injection H as ->. now left.
  - destruct (heap !! child) as [c|] eqn:Hc; [|discriminate].
    destruct (max <? _)%float eqn:E; apply IH in H as [->|(c' & Hin & Hc' & Hn)].
    + right. exists c. split; [left|]. split; [assumption|].
      now apply ltb_not_nan in E.
    + right. exists c'. split; [now right|auto].
    + now left.
    + right. exists c'. split; [now right|auto].
Qed.

(** With no child visited yet, the selector returns the first child. *)
Lemma select_child_unvisited ef heap parent_ptr parent first rest children :
  heap !! parent_ptr = Some parent ->
  child_nodes parent = first :: rest ->
  deref_all heap (child_nodes parent) = Some children ->
  Forall (fun c => visit_count c = 0) children ->
  select_child log ef parent_ptr heap = Returned first.
Proof.
  intros Hp Hc Hd Hv. unfold select_child. rewrite Hp, Hc.
  rewrite Hc in Hd. apply deref_all_Some in Hd.
  apply Forall2_cons_inv_l in Hd as (c & cs & Hfirst & Hd & ->).
  rewrite Hfirst. apply Forall_cons in Hv as [Hv0 Hv].
  apply select_loop_keeps.
  apply Forall_forall. intros p Hin.
  apply list_elem_of_lookup in Hin as [i Hi].
  destruct (Forall2_lookup_l _ _ _ _ _ Hd Hi) as (c' & Hc' & Hp').
  exists c'. split; [assumption|].
  unfold calculate_uct_score. rewrite Hv0.
  rewrite (proj1 (Forall_lookup _ _) Hv _ _ Hc'). reflexivity.
Qed.

(** X3. A score that is NaN takes part in no comparison. When the score of the
    first child is NaN (an exploration factor that is NaN, or infinite
    against a logarithm of zero, will do), the selector returns the first
    child, whatever the scores of the others, unvisited children included;
    and a child other than the first is only ever returned with a score
    that is not NaN. *)
Theorem select_child_nan_scores (ef : float) (heap : tree) (parent_ptr : nat)
    (parent : Node) (first : node_ptr) (rest : list node_ptr)
    (children : list Node) (c0 : Node) :
  heap !! parent_ptr = Some parent ->
  child_nodes parent = first :: rest ->
  deref_all heap (child_nodes parent) = Some children ->
  heap !! first = Some c0 ->
  let score := fun c => calculate_uct_score log ef c parent in
  (is_nan (score c0) = true ->
   select_child log ef parent_ptr heap = Returned first) /\
  (forall p, select_child log ef parent_ptr heap = Returned p ->
     p = first \/
     exists c, p ∈ rest /\ heap !! p = Some c /\ is_nan (score c) = false).
Proof.
  intros Hp Hc Hd Hfirst score. unfold select_child. rewrite Hp, Hc, Hfirst.
  split.
  - intros Hnan. apply select_loop_keeps.
    rewrite Hc in Hd. apply deref_all_Some in Hd.
    apply Forall2_cons_inv_l in Hd as (c & cs & _ & Hd & _).
    apply Forall_forall. intros p Hin.
    apply list_elem_of_lookup in Hin as [i Hi].
    destruct (Forall2_lookup_l _ _ _ _ _ Hd Hi) as (c' & _ & Hp').
    exists c'. split; [assumption|]. now apply ltb_nan_l.
  - intros p H. now apply select_loop_result in H.
Qed.

End SelectorEdges.

Section SearchEdges.

Context {Board Gen : Type} `{!BoardOps Board} `{!RandomOps Gen}.
Variable log : float -> float.

(** The decision over a tree in which no child of the root was visited. *)
Lemma decide_move_unvisited heap r children :
  heap !! 0%nat = Some r ->
  deref_all heap (child_nodes r) = Some children ->
  Forall (fun c => win_count c = 0 /\ visit_count c = 0) children ->
  decide_move heap 0%nat = Thrown insufficient_statistics.
Proof.
  intros Hr Hd Hz.
  destruct (decide_move_spec heap 0%nat r children Hr Hd) as [[E _]|(i & c & _ & Hi & Hv & _)].
  - eapply Forall_impl; [exact Hz|]. intros c [? ?]. unfold counters_ok. lia.
  - eapply Forall_impl; [exact Hz|]. intros c [? ?]. cbn. lia.
  - exact E.
  - apply list_elem_of_lookup_2 in Hi.
    eapply Forall_forall in Hz; [|exact Hi]. lia.
Qed.

(** The world in which the loop starts: the tree is the fresh expansion. *)
Lemma expanded_world (b : Board) player board (w : @world Board Gen) :
  boards w !! board = Some b ->
  exists h0 r children,
    expand_node 0%nat b [Node_new player (-1, -1) None] = Returned h0 /\
    h0 !! 0%nat = Some r /\
    deref_all h0 (child_nodes r) = Some children /\
    map move children = get_valid_moves b /\
    Forall (fun c => win_count c = 0 /\ visit_count c = 0) children /\
    Forall (fun n => visit_count n = 0) h0 /\
    ready b player board
      (mkWorld (set_tree (Some 0%nat) h0 (this w)) (boards w)).
Proof.
  intros Hb.
  destruct (expand_node_shape b [Node_new player (-1, -1) None] 0%nat _
              eq_refl eq_refl) as (h0 & r & children & E0 & Hr & _ & Hd & Hm & Hz).
  exists h0, r, children. repeat (split; [assumption|]).
  split. { eapply Forall_impl; [exact Hz|]. cbn. tauto. }
  split.
  - pose proof E0 as E. unfold expand_node in E.
    rewrite (expand_loop_spec _ [Node_new player (-1, -1) None] 0%nat _ eq_refl)
      in E.
    injection E as <-. apply Forall_cons. split; [reflexivity|].
    apply Forall_fmap, Forall_forall. now intros mv _.
  - split; [exact Hb|]. split; [reflexivity|]. now apply expand_node_tree_shape.
Qed.

Lemma search_unfold (b : Board) player board fuel env h0 (w : @world Board Gen) :
  boards w !! board = Some b ->
  expand_node 0%nat b [Node_new player (-1, -1) None] = Returned h0 ->
  search log fuel env board player w
  = search_loop log fuel fuel env (now env 0%nat + max_decision_time (this w))
      1 board (mkWorld (set_tree (Some 0%nat) h0 (this w)) (boards w)).
Proof.
  intros Hb E0. unfold search. cbn [make_shared length app]. now rewrite Hb, E0.
Qed.

(** X12. A budget that is used up at the first reading of the clock in the loop
    (a budget of zero, say): whatever the board, [choose_move] runs no
    rollout, draws no random number, and throws the insufficient-statistics
    error, leaving the expanded tree without a single visit. *)
Theorem choose_move_zero_budget (env : Env) (board : nat)
    (player : Cell_state) (w : @world Board Gen) (b : Board) :
  boards w !! board = Some b ->
  now env 0%nat + max_decision_time (this w) <= now env 1%nat ->
  exists w',
    (forall fuel, (1 <= fuel)%nat ->
       choose_move log fuel env board player w
       = (Thrown insufficient_statistics, w')) /\
    random_generator (this w') = random_generator (this w) /\
    boards w' = boards w /\
    length (arena (this w')) = S (length (get_valid_moves b)) /\
    Forall (fun n => visit_count n = 0) (arena (this w')).
Proof.
  intros Hb Hge.
  destruct (expanded_world b player board w Hb)
    as (h0 & r & children & E0 & Hr & Hd & Hm & Hz & Hv & _).
  exists (mkWorld (set_tree (Some 0%nat) h0 (this w)) (boards w)).
  split; [|repeat split; trivial].
  - intros [|fuel] L; [lia|]. unfold choose_move.
    rewrite (search_unfold b _ _ _ _ h0 _ Hb E0). cbn [search_loop].
    rewrite (proj2 (Z.ltb_ge _ _) Hge). cbn [this root set_tree arena].
    now rewrite (decide_move_unvisited h0 r children Hr Hd Hz).
  - cbn. eapply flat_tree_length, expand_node_flat, E0.
Qed.

(** The fresh expansion, cell by cell. *)
Lemma fresh_tree (b : Board) player :
  exists r leaves,
    expand_node 0%nat b [Node_new player (-1, -1) None] = Returned (r :: leaves) /\
    child_nodes r = seq 1 (length leaves) /\
    map move leaves = get_valid_moves b /\
    Forall (fun c => win_count c = 0 /\ visit_count c = 0) leaves.
Proof.
  unfold expand_node.
  rewrite (expand_loop_spec _ [Node_new player (-1, -1) None] 0%nat _ eq_refl).
  eexists _, _. split; [reflexivity|]. split; [|split].
  - cbn. now rewrite length_map.
  - rewrite map_map. apply map_id.
  - apply Forall_fmap, Forall_forall. now intros mv _.
Qed.

Lemma iteration_no_threads (b : Board) pl env board (w : @world Board Gen) :
  ready b pl board w -> get_valid_moves b <> [] ->
  is_parallelized (this w) = true -> hardware_concurrency env = 0%nat ->
  forall fuel, iteration log fuel env board w = Returned w.
Proof.
  intros (Hb & Hr & Sh) Hne Hpar Hz fuel.
  destruct (select_child_returns log (exploration_factor (this w)) _ _ _ Sh Hne)
    as (p & Hsel & Lp).
  destruct Sh as [_ Hk]. destruct (Hk p Lp) as (c & Hc & _).
  unfold iteration. rewrite Hr, Hsel. cbn [mbind outcome_bind].
  rewrite Hc, Hpar, Hz. cbn.
  destruct w as [[ef t par v g r h] bs]. reflexivity.
Qed.

Lemma search_loop_no_threads (b : Board) pl env end_time board
    (w : @world Board Gen) fuel :
  ready b pl board w -> get_valid_moves b <> [] ->
  is_parallelized (this w) = true -> hardware_concurrency env = 0%nat ->
  forall n steps tick,
  (n < steps)%nat ->
  (forall k, (tick <= k < tick + n)%nat -> now env k < end_time) ->
  end_time <= now env (tick + n)%nat ->
  search_loop log fuel steps env end_time tick board w = Returned w.
Proof.
  intros Rw Hne Hpar Hz. induction n as [|n IH]; intros [|steps] tick L Hlt Hge;
    try lia; cbn [search_loop].
  - rewrite Nat.add_0_r in Hge. now rewrite (proj2 (Z.ltb_ge _ _) Hge).
  - rewrite (proj2 (Z.ltb_lt _ _) (Hlt tick ltac:(lia))).
    rewrite (iteration_no_threads b pl env board w Rw Hne Hpar Hz).
    cbn [mbind outcome_bind]. apply IH; [lia| |].
    + intros k Lk. apply Hlt. lia.
    + now replace (S tick + n)%nat with (tick + S n)%nat by lia.
Qed.

(** X14. Parallel mode on a machine for which [thread::hardware_concurrency()]
    is 0 (the value the standard library gives when it cannot tell): every
    pass selects a child and then runs no rollout at all, so that however
    long the budget, [choose_move] ends with the insufficient-statistics
    error, no node visited and no random number drawn. *)
Theorem choose_move_no_hardware_threads (env : Env) (board : nat)
    (player : Cell_state) (w : @world Board Gen) (b : Board) (n : nat) :
  boards w !! board = Some b ->
  get_valid_moves b <> [] ->
  is_parallelized (this w) = true ->
  hardware_concurrency env = 0%nat ->
  passes env (max_decision_time (this w)) n ->
  exists w',
    (forall fuel, (n < fuel)%nat ->
       choose_move log fuel env board player w
       = (Thrown insufficient_statistics, w')) /\
    random_generator (this w') = random_generator (this w) /\
    Forall (fun n => visit_count n = 0) (arena (this w')).
Proof.
  intros Hb Hne Hpar Hz [Hlt Hge].
  destruct (expanded_world b player board w Hb)
    as (h0 & r & children & E0 & Hr & Hd & Hm & Hzero & Hv & Rw).
  exists (mkWorld (set_tree (Some 0%nat) h0 (this w)) (boards w)).
  split; [|split; trivial].
  intros fuel L. unfold choose_move.
  rewrite (search_unfold b _ _ _ _ h0 _ Hb E0).
  rewrite (search_loop_no_threads b player env _ board _ fuel Rw Hne Hpar Hz n).
  - cbn [this root set_tree arena].
    now rewrite (decide_move_unvisited h0 r children Hr Hd Hzero).
  - exact L.
  - intros k Lk. apply Hlt. lia.
  - now replace (1 + n)%nat with (S n) by lia.
Qed.

Lemma move_credit_all results n : move (credit_all results n) = move n.
Proof. now destruct (credited_credit_all results n) as (? & _). Qed.

Lemma child_nodes_credit_all results n :
  child_nodes (credit_all results n) = child_nodes n.
Proof. now destruct (credited_credit_all results n) as (_ & _ & ? & _). Qed.

Lemma counters_ok_credit_all results n :
  counters_ok n -> counters_ok (credit_all results n).
Proof.
  intros [? ?]. unfold counters_ok.
  rewrite visit_count_credit_all, win_count_credit_all.
  pose proof (wins_of_bounds (player n) results). lia.
Qed.

(** X13. A budget that lets exactly one pass run: the first child is selected,
    since no child has been visited, it alone is credited, and
    [choose_move] returns the first legal move of the board, whatever the
    rollouts gave. *)
Theorem choose_move_single_pass (env : Env) (board : nat)
    (player : Cell_state) (w : @world Board Gen) (b : Board)
    (first : Z * Z) (others : list (Z * Z)) :
  boards w !! board = Some b ->
  get_valid_moves b = first :: others ->
  (forall (mv : Z * Z) (g : Gen), mv ∈ get_valid_moves b ->
     exists winner g',
       rollout (make_move (fst mv) (snd mv) player b) player g winner g') ->
  passes env (max_decision_time (this w)) 1 ->
  (1 <= batch_size env w)%nat ->
  Z.of_nat (batch_size env w) < 2 ^ 53 ->
  exists fuel0 w',
    forall fuel, (fuel0 <= fuel)%nat ->
      choose_move log fuel env board player w = (Returned first, w').
Proof.
  intros Hb Hmoves Hend [Hlt Hge] HK Hbound.
  destruct (fresh_tree b player) as (r & leaves & E0 & Hch & Hm & Hzero).
  set (w0 := mkWorld (set_tree (Some 0%nat) (r :: leaves) (this w)) (boards w)).
  assert (ready b player board w0) as Rw.
  { split; [exact Hb|]. split; [reflexivity|]. now apply expand_node_tree_shape. }
  assert (get_valid_moves b <> []) as Hne by (rewrite Hmoves; discriminate).
  destruct (iteration_returns log b player Hend env board w0 Rw Hne)
    as (f1 & w1 & H1 & _).
  destruct (iteration_effect log b player _ _ _ _ _ Rw (H1 f1 (le_n _)))
    as (p & c & r' & results & _ & Hsel & Hc & Hr' & Hl & _ & E).
  rewrite Hmoves in Hm. destruct leaves as [|c0 leaves]; [discriminate|].
  injection Hm as Hm0 Hm. cbn [length seq] in Hch.
  assert (p = 1%nat) as ->.
  { cbn [this arena w0 set_tree exploration_factor] in Hsel.
    rewrite (select_child_unvisited log _ (r :: c0 :: leaves) 0%nat r 1%nat
               (seq 2 (length leaves)) (c0 :: leaves)) in Hsel.
    - congruence.
    - reflexivity.
    - exact Hch.
    - rewrite Hch. apply (deref_all_leaves r (c0 :: leaves)).
    - eapply Forall_impl; [exact Hzero|]. cbn. tauto. }
  cbn in Hc, Hr', E. injection Hc as <-. injection Hr' as <-.
  set (c1 := credit_all results c0) in *.
  set (r1 := credit_all results r) in *.
  assert (batch_size env w0 = batch_size env w) as HK0 by reflexivity.
  rewrite HK0 in Hl.
  assert (decide_move (arena (this w1)) 0%nat = Returned first) as D.
  { rewrite E.
    destruct (decide_move_spec (r1 :: c1 :: leaves) 0%nat r1 (c1 :: leaves))
      as [[_ U]|(i & c' & -> & Hi & Hv & _)].
    - reflexivity.
    - subst r1. rewrite child_nodes_credit_all, Hch.
      apply (deref_all_leaves _ (c1 :: leaves)).
    - apply Forall_cons in Hzero as [Z0 Zs]. apply Forall_cons. split.
      + apply counters_ok_credit_all. unfold counters_ok. lia.
      + eapply Forall_impl; [exact Zs|]. intros x [? ?]. unfold counters_ok. lia.
    - apply Forall_cons in Hzero as [Z0 Zs]. apply Forall_cons. split.
      + subst c1. rewrite visit_count_credit_all. lia.
      + eapply Forall_impl; [exact Zs|]. intros x [? ?]. cbn. lia.
    - apply Forall_cons in U as [U _]. apply Forall_cons in Hzero as [Z0 _].
      subst c1. rewrite visit_count_credit_all in U. lia.
    - destruct i as [|i].
      + injection Hi as <-. subst c1. now rewrite move_credit_all, Hm0.
      + cbn in Hi. apply list_elem_of_lookup_2 in Hi.
        apply Forall_cons in Hzero as [_ Zs].
        eapply Forall_forall in Zs; [|exact Hi]. lia. }
  exists (Nat.max f1 2), w1. intros fuel L. unfold choose_move.
  rewrite (search_unfold b _ _ _ _ _ _ Hb E0). fold w0.
  destruct fuel as [|[|fuel]]; try lia. cbn [search_loop].
  rewrite (proj2 (Z.ltb_lt _ _) (Hlt 1%nat ltac:(lia))).
  rewrite H1 by lia. cbn [mbind outcome_bind].
  rewrite (proj2 (Z.ltb_ge _ _) Hge).
  pose proof (iteration_same_search log _ _ _ _ _ (H1 f1 (le_n _)))
    as (_ & -> & _).
  cbn [this root set_tree w0]. now rewrite D.
Qed.

End SearchEdges.

(** * Rollouts on a board that keeps its contract *)

Lemma opponent_not_Empty p : opponent p <> Empty.
Proof. now destruct p. Qed.

Lemma opponent_involutive p : p <> Empty -> opponent (opponent p) = p.
Proof. now destruct p. Qed.

Section RolloutWinner.

Context {Board Gen : Type} `{!BoardOps Board} `{!RandomOps Gen}.

Lemma rollout_winner (x : Board) current (g : Gen) winner g' :
  rollout x current g winner g' ->
  current <> Empty -> winner = current \/ winner = opponent current.
Proof.
  induction 1 as [|x current g k g1 mv winner g2 _ _ _ _ _ IH]; intros Hne.
  - now left.
  - destruct (IH (opponent_not_Empty current)) as [->| ->].
    + now right.
    + left. now apply opponent_involutive.
Qed.

(** X4. The rollout names one of the two players: for a node of Blue or Red it
    returns the node's player or the other one, never [Empty]. *)
Theorem simulate_random_playout_names_a_player (fuel : nat) (node : Node)
    (board : nat) (boards boards' : list Board) (gen gen' : Gen)
    (winner : Cell_state) :
  player node <> Empty ->
  simulate_random_playout fuel node board boards gen
    = Returned (winner, boards', gen') ->
  (winner = player node \/ winner = opponent (player node)) /\
  winner <> Empty.
Proof.
  intros Hne H.
  destruct (boards !! board) as [original|] eqn:Hb;
    [|unfold simulate_random_playout in H; now rewrite Hb in H].
  destruct (simulate_random_playout_sound _ _ _ _ _ _ _ _ _ Hb H) as [_ R].
  apply rollout_winner in R; trivial. split; [exact R|].
  destruct R as [->| ->]; [exact Hne|apply opponent_not_Empty].
Qed.

End RolloutWinner.

Section WinnerIdentity.

(** Two boards that differ at most in which player they report as the
    winner. *)
Context {Board Gen : Type} `{!RandomOps Gen}.
Variables (ops ops' : BoardOps Board).

Hypothesis same_moves : forall x,
  @get_valid_moves _ ops' x = @get_valid_moves _ ops x.
Hypothesis same_move : forall r c p x,
  @make_move _ ops' r c p x = @make_move _ ops r c p x.
Hypothesis same_end : forall x,
  is_Empty (@check_winner _ ops' x) = is_Empty (@check_winner _ ops x).

Lemma playout_loop_winner_identity fuel local :
  forall current boards (gen : Gen),
  @playout_loop _ _ ops' _ fuel local current boards gen
  = @playout_loop _ _ ops _ fuel local current boards gen.
Proof.
  induction fuel as [|fuel IH]; intros current boards gen; cbn; [reflexivity|].
  destruct (boards !! local) as [x|]; [|reflexivity].
  rewrite same_end, same_moves.
  destruct (is_Empty _); [|reflexivity].
  destruct (_ <? 0); [reflexivity|].
  destruct (uniform_int _ _ _) as [k g1].
  destruct (k <? 0); [reflexivity|].
  destruct (_ !! _) as [mv|]; [|reflexivity].
  rewrite same_move, same_end. now rewrite IH.
Qed.

(** X5. The rollout asks the board whether the game is over, never who has won:
    its result is the player who moved last, and it is the same on two
    boards that agree on the moves and on when the game is over, whichever
    player each of them reports as the winner. *)
Theorem simulate_random_playout_ignores_winner_identity (fuel : nat)
    (node : Node) (board : nat) (boards : list Board) (gen : Gen) :
  @simulate_random_playout _ _ ops' _ fuel node board boards gen
  = @simulate_random_playout _ _ ops _ fuel node board boards gen.
Proof.
  unfold simulate_random_playout.
  destruct (boards !! board) as [original|]; [|reflexivity].
  now rewrite same_move, playout_loop_winner_identity.
Qed.

End WinnerIdentity.

Section Contract.

Context {Board Gen : Type} `{!BoardOps Board} `{!RandomOps Gen}.

(** The contract of the collaborators: on the boards of a game ([good]), a
    player who plays a legal move uses it up and stays within the game; a
    board without legal moves has a winner; and a draw from a range that is
    not empty lies within it. *)
Variable good : Board -> Prop.

Hypothesis move_used_up : forall x mv p,
  good x -> mv ∈ get_valid_moves x -> p <> Empty ->
  good (make_move (fst mv) (snd mv) p x) /\
  (length (get_valid_moves (make_move (fst mv) (snd mv) p x))
   < length (get_valid_moves x))%nat.

Hypothesis no_stalemate : forall x,
  good x -> get_valid_moves x = [] -> check_winner x <> Empty.

Hypothesis draw_in_range : forall a b (g : Gen),
  a <= b -> a <= fst (uniform_int a b g) <= b.

Lemma playout_loop_ends (pre : list Board) : forall fuel x current (g : Gen),
  good x -> (length (get_valid_moves x) < fuel)%nat ->
  exists winner x' g',
    playout_loop fuel (length pre) current (pre ++ [x]) g
    = Returned (winner, pre ++ [x'], g').
Proof.
  induction fuel as [|fuel IH]; intros x current g Hx L; [lia|].
  cbn [playout_loop]. rewrite lookup_last.
  destruct (is_Empty (check_winner x)) eqn:E; [|eauto].
  apply is_Empty_true in E.
  destruct (get_valid_moves x) as [|m0 ms] eqn:Hm.
  { now destruct (no_stalemate x Hx Hm). }
  set (last := Z.of_nat (length (m0 :: ms)) - 1).
  assert (0 <= last) as Hlast by (subst last; cbn [length]; lia).
  rewrite (proj2 (Z.ltb_ge _ _) Hlast).
  pose proof (draw_in_range 0 last g Hlast) as D.
  destruct (uniform_int 0 last g) as [k g1]. cbn in D.
  rewrite (proj2 (Z.ltb_ge _ _) (proj1 D)).
  destruct (lookup_lt_is_Some_2 (m0 :: ms) (Z.to_nat k)) as [mv Hmv].
  { subst last. cbn [length] in *. lia. }
  rewrite Hmv, insert_last.
  assert (mv ∈ get_valid_moves x) as Hin
    by (rewrite Hm; eapply list_elem_of_lookup_2; eauto).
  destruct (move_used_up x mv (opponent current) Hx Hin (opponent_not_Empty _))
    as [Hx' Hless].
  destruct (negb _); [eauto|].
  apply IH; [exact Hx'|]. rewrite Hm in Hless. cbn [length] in *. lia.
Qed.


(** Rollouts from every legal move end. *)
Lemma contract_rollouts_end (original : Board) (pl : Cell_state) :
  good original -> pl <> Empty ->
  forall (mv : Z * Z) (g : Gen), mv ∈ get_valid_moves original ->
  exists winner g',
    rollout (make_move (fst mv) (snd mv) pl original) pl g winner g'.
Proof.
  intros Hx Hne mv g Hin.
  destruct (move_used_up original mv pl Hx Hin Hne) as [Hx' _].
  destruct (playout_loop_ends [] (S (length (get_valid_moves
              (make_move (fst mv) (snd mv) pl original)))) _ pl g Hx' ltac:(lia))
    as (winner & x' & g' & E).
  exists winner, g'.
  now apply (playout_loop_sound []) in E as [R _].
Qed.

End Contract.

Section ContractSearch.

Context {Board Gen : Type} `{!BoardOps Board} `{!RandomOps Gen}.
Variable log : float -> float.
Variable good : Board -> Prop.

Hypothesis move_used_up : forall x mv p,
  good x -> mv ∈ get_valid_moves x -> p <> Empty ->
  good (make_move (fst mv) (snd mv) p x) /\
  (length (get_valid_moves (make_move (fst mv) (snd mv) p x))
   < length (get_valid_moves x))%nat.

Hypothesis no_stalemate : forall x,
  good x -> get_valid_moves x = [] -> check_winner x <> Empty.

Hypothesis draw_in_range : forall a b (g : Gen),
  a <= b -> a <= fst (uniform_int a b g) <= b.


End ContractSearch.

(** * The two modes, and the constructor *)

Section Modes.

Context {Board Gen : Type} `{!BoardOps Board} `{!RandomOps Gen}.
Variable log : float -> float.

Lemma in_mode_id flag (w : @world Board Gen) :
  is_parallelized (this w) = flag -> in_mode flag w = w.
Proof. destruct w as [[ef t par v g r h] bs]. cbn. now intros ->. Qed.

Lemma iteration_one_thread fuel env board (w : @world Board Gen) :
  hardware_concurrency env = 1%nat ->
  iteration log fuel env board (in_mode true w)
  = outcome_map (in_mode true) (iteration log fuel env board (in_mode false w)).
Proof.
  intros H1. unfold iteration. cbn [in_mode this set_parallel root arena
    exploration_factor is_parallelized random_generator boards].
  destruct (root (this w)) as [r|]; [|reflexivity].
  destruct (select_child _ _ _ _) as [p| | |]; try reflexivity.
  cbn [mbind outcome_bind].
  destruct (arena (this w) !! p) as [node|]; [|reflexivity].
  rewrite H1. cbn [playout_batch].
  destruct (simulate_random_playout _ _ _ _ _) as [[[winner bs] g]| | |];
    try reflexivity.
  cbn [mbind outcome_bind backpropagate_results].
  now destruct (backpropagate _ _ _ _).
Qed.

Lemma search_loop_one_thread fuel env end_time board :
  hardware_concurrency env = 1%nat ->
  forall steps tick (w : @world Board Gen),
  is_parallelized (this w) = false ->
  search_loop log fuel steps env end_time tick board (in_mode true w)
  = outcome_map (in_mode true)
      (search_loop log fuel steps env end_time tick board w).
Proof.
  intros H1. induction steps as [|steps IH]; intros tick w Hw; [reflexivity|].
  cbn [search_loop]. destruct (now env tick <? end_time); [|reflexivity].
  rewrite (iteration_one_thread _ _ _ _ H1), (in_mode_id false w Hw).
  destruct (iteration log fuel env board w) as [w1| | |] eqn:E; try reflexivity.
  cbn [outcome_map mbind outcome_bind]. apply IH.
  apply iteration_same_search in E as (_ & _ & _ & _ & -> & _). exact Hw.
Qed.

(** X15. Parallel mode on a machine with one hardware thread is single mode: an
    agent in parallel mode does, pass by pass, what the same agent in
    single mode does, and [choose_move] ends in the same way, with the
    same move, the same tree and the same generator. *)
Theorem choose_move_one_thread (fuel : nat) (env : Env) (board : nat)
    (player : Cell_state) (w : @world Board Gen) :
  hardware_concurrency env = 1%nat ->
  choose_move log fuel env board player (in_mode true w)
  = (fst (choose_move log fuel env board player (in_mode false w)),
     in_mode true (snd (choose_move log fuel env board player (in_mode false w)))).
Proof.
  intros H1. unfold choose_move, search. cbn [make_shared length app].
  cbn [in_mode boards this].
  destruct (boards w !! board) as [b|]; [|reflexivity].
  destruct (expand_node 0%nat b _) as [h0| | |]; try reflexivity.
  cbn [mbind outcome_bind].
  set (w0 := mkWorld (set_tree (Some 0%nat) h0 (set_parallel false (this w)))
                     (boards w)).
  change (mkWorld (set_tree (Some 0%nat) h0 (set_parallel true (this w)))
                  (boards w)) with (in_mode true w0).
  change (max_decision_time (this (in_mode true w0)))
    with (max_decision_time (this w0)).
  rewrite (search_loop_one_thread _ _ _ _ H1 _ _ w0 eq_refl).
  destruct (search_loop log fuel fuel env _ 1 board w0) as [w1| | |];
    try reflexivity.
  cbn [outcome_map in_mode this set_parallel root arena].
  now destruct (root (this w1)).
Qed.

(** X16. A position without legal moves while the budget lasts: the root has no
    children, and the first pass of the loop reads the first element of
    its empty vector of children. [choose_move] neither returns nor throws;
    its behaviour is undefined. *)
Theorem choose_move_no_moves_undefined (fuel : nat) (env : Env) (board : nat)
    (player : Cell_state) (w : @world Board Gen) (b : Board) :
  boards w !! board = Some b ->
  get_valid_moves b = [] ->
  now env 1%nat < now env 0%nat + max_decision_time (this w) ->
  choose_move log (S fuel) env board player w = (Undefined, w).
Proof.
  intros Hb Hm Hlt. unfold choose_move, search. cbn [make_shared length app].
  rewrite Hb. unfold expand_node. rewrite Hm. cbn [expand_loop mbind outcome_bind].
  cbn [search_loop this set_tree max_decision_time].
  rewrite (proj2 (Z.ltb_lt _ _) Hlt). reflexivity.
Qed.

(** X1. What the constructor's argument [is_parallelized] is good for: it
    can make the constructor throw, and nothing else. The constructed agent
    runs, in every pass of every search, one rollout if the class declares
    the member as false, and [hardware_concurrency] rollouts if it declares
    it as true, whatever was passed: after [n] passes the root has that
    many visits per pass, as long as the rollouts of the search are no more
    than the maximum [counter_max] of the counters' machine type, which no
    counter then exceeds. *)
Theorem constructor_drops_parallel_argument (counter_max : Z)
    (declared : bool) (entropy : Z)
    (ef : float) (budget : Z) (parallel verbose : bool)
    (agent : Mcts_agent Gen) (fuel : nat) (env : Env) (board : nat)
    (player : Cell_state) (bs : list Board) (b : Board)
    (o : outcome (Z * Z)) (w' : @world Board Gen) (n : nat) :
  Mcts_agent_new declared entropy ef budget parallel verbose = Returned agent ->
  bs !! board = Some b ->
  passes env budget n ->
  Z.of_nat (n * (if declared then hardware_concurrency env else 1))
    <= counter_max ->
  choose_move log fuel env board player (mkWorld agent bs) = (o, w') ->
  completed o ->
  (parallel && verbose = false) /\
  is_parallelized agent = declared /\
  exists r,
    arena (this w') !! 0%nat = Some r /\
    visit_count r
    = Z.of_nat (n * (if declared then hardware_concurrency env else 1)) /\
    Forall (fun n => visit_count n <= counter_max) (arena (this w')).
Proof.
  unfold Mcts_agent_new. intros Hnew Hb Hp Hm H Ho.
  destruct (parallel && verbose) eqn:Hpv; [discriminate|].
  injection Hnew as <-. split; [reflexivity|]. split; [reflexivity|].
  pose proof (choose_move_completed log _ _ _ _ _ _ _ H Ho) as Hs.
  pose proof (search_visits_le log _ _ _ _ _ _ _ Hs Hp) as V.
  destruct (search_totals log b player _ _ _ n _ _ Hs Hp Hb) as [_ T].
  destruct T as (r & leaves & E & Hv & _). exists r. rewrite E.
  split; [reflexivity|]. split; [exact Hv|].
  rewrite <- E. eapply visits_le_mono; [|exact V]. exact Hm.
Qed.

End Modes.

(** * Every child is tried before any is tried again *)

Section SelectorOrder.

Variable log : float -> float.

Lemma score_unvisited ef c r :
  visit_count c = 0 -> calculate_uct_score log ef c r = DBL_MAX.
Proof. intros H. unfold calculate_uct_score. now rewrite H. Qed.

Lemma select_loop_first_unvisited ef heap parent u post : forall pre best max,
  (max <? DBL_MAX)%float = true ->
  Forall (fun p => exists c, heap !! p = Some c /\
            (calculate_uct_score log ef c parent <? DBL_MAX)%float = true) pre ->
  (exists cu, heap !! u = Some cu /\ visit_count cu = 0) ->
  Forall (fun p => exists c, heap !! p = Some c /\
            (DBL_MAX <? calculate_uct_score log ef c parent)%float = false) post ->
  select_loop log ef heap parent (pre ++ u :: post) best max = Returned u.
Proof.
  intros pre best max Hmax Hpre (cu & Hu & Hv) Hpost. revert best max Hmax.
  induction Hpre as [|p pre (c & Hc & Hs) _ IH]; intros best max Hmax.
  - cbn. rewrite Hu, (score_unvisited _ _ _ Hv), Hmax.
    now apply select_loop_keeps.
  - cbn. rewrite Hc.
    destruct (max <? calculate_uct_score log ef c parent)%float; now apply IH.
Qed.

(** The selector on a root whose first [k] leaves have tame scores and whose
    other leaves have not been visited: the next leaf is selected. *)
Lemma select_child_next_unvisited ef r leaves k :
  child_nodes r = seq 1 (length leaves) ->
  (k < length leaves)%nat ->
  (forall i c, leaves !! i = Some c ->
     ((i < k)%nat ->
      (calculate_uct_score log ef c r <? DBL_MAX)%float = true) /\
     ((k <= i)%nat -> visit_count c = 0)) ->
  select_child log ef 0%nat (r :: leaves) = Returned (S k).
Proof.
  intros Hch Lk H. unfold select_child. cbn [lookup list_lookup]. rewrite Hch.
  assert (forall a n, (k <= a)%nat -> (a + n <= length leaves)%nat ->
            Forall (fun p => exists c, (r :: leaves) !! p = Some c /\
              (DBL_MAX <? calculate_uct_score log ef c r)%float = false)
              (seq (S a) n)) as Post.
  { intros a n La Ln. apply Forall_forall. intros p Hp. apply elem_of_seq in Hp.
    destruct p as [|i]; [lia|].
    destruct (lookup_lt_is_Some_2 leaves i ltac:(lia)) as [c Hc].
    exists c. split; [exact Hc|].
    destruct (H i c Hc) as [_ Hz]. now rewrite (score_unvisited _ _ _ (Hz ltac:(lia))). }
  destruct (lookup_lt_is_Some_2 leaves k Lk) as [cu Hcu].
  destruct (H k cu Hcu) as [_ Hzu]. specialize (Hzu (le_n _)).
  destruct k as [|k'].
  - destruct leaves as [|c0 leaves']; [cbn in Lk; lia|].
    cbn [length seq]. cbn in Hcu. injection Hcu as ->.
    cbn [lookup list_lookup]. rewrite (score_unvisited _ _ _ Hzu).
    apply select_loop_keeps. apply (Post 1%nat); cbn [length]; lia.
  - destruct leaves as [|c0 leaves']; [cbn in Lk; lia|].
    cbn [length seq] in *. cbn [lookup list_lookup].
    destruct (H 0%nat c0 eq_refl) as [Hs0 _]. specialize (Hs0 ltac:(lia)).
    replace (length leaves') with (k' + S (length leaves' - S k'))%nat by lia.
    rewrite seq_app. cbn [seq].
    apply select_loop_first_unvisited.
    + exact Hs0.
    + apply Forall_forall. intros p Hp. apply elem_of_seq in Hp.
      destruct p as [|i]; [lia|].
      destruct (lookup_lt_is_Some_2 (c0 :: leaves') i ltac:(cbn; lia)) as [c Hc].
      exists c. split; [exact Hc|]. destruct (H i c Hc) as [Hs _].
      apply Hs. lia.
    + exists cu. split; [|exact Hzu]. exact Hcu.
    + apply (Post (S (S k'))); cbn [length]; lia.
Qed.

End SelectorOrder.

Section Coverage.

Context {Board Gen : Type} `{!BoardOps Board} `{!RandomOps Gen}.
Variable log : float -> float.
Variables (b : Board) (pl : Cell_state).

Hypothesis rollouts_end : forall (mv : Z * Z) (g : Gen),
  mv ∈ get_valid_moves b ->
  exists winner g',
    rollout (make_move (fst mv) (snd mv) pl b) pl g winner g'.

Lemma iteration_tries_next env board bound k (w : @world Board Gen) :
  tried b pl board (Z.of_nat (batch_size env w)) k w ->
  (k < length (get_valid_moves b))%nat ->
  (1 <= batch_size env w)%nat ->
  tame log (exploration_factor (this w)) bound ->
  Z.of_nat (S k) * Z.of_nat (batch_size env w) <= bound ->
  exists fuel0 w1,
    (forall fuel, (fuel0 <= fuel)%nat ->
       iteration log fuel env board w = Returned w1) /\
    same_search w w1 /\
    tried b pl board (Z.of_nat (batch_size env w)) (S k) w1.
Proof.
  intros (Rw & r & leaves & Ea & Hlen & Hch & Hv & Hok & Hord) Lk HK Ht Hb.
  assert (get_valid_moves b <> []) as Hne
    by (intros E; rewrite E in Lk; cbn in Lk; lia).
  destruct (iteration_returns log b pl rollouts_end env board w Rw Hne)
    as (f1 & w1 & H1 & _).
  pose proof (iteration_same_search log _ _ _ _ _ (H1 f1 (le_n _))) as S1.
  destruct (iteration_effect log b pl _ _ _ _ _ Rw (H1 f1 (le_n _)))
    as (p & c & r' & results & _ & Hsel & Hc & Hr' & Hl & _ & E).
  rewrite Ea in Hsel, Hc, Hr', E.
  rewrite (select_child_next_unvisited log _ r leaves k Hch) in Hsel; [|lia|].
  2: { intros i ci Hi. destruct (Hord i ci Hi) as [Hvis Hzero].
       split; [|exact Hzero]. intros Li. apply Ht.
       - eapply Forall_lookup_1; eauto.
       - rewrite (Hvis Li). nia.
       - rewrite Hv. nia. }
  injection Hsel as <-. cbn in Hc, Hr', E. injection Hr' as <-.
  exists f1, w1. split; [exact H1|]. split; [exact S1|].
  split; [eapply ready_same_search; eauto|].
  exists (credit_all results r), (<[k := credit_all results c]> leaves).
  split; [exact E|]. rewrite length_insert.
  split; [exact Hlen|]. split; [now rewrite child_nodes_credit_all|].
  split; [rewrite visit_count_credit_all, Hv, Hl; lia|].
  split.
  - apply Forall_insert; [exact Hok|]. apply counters_ok_credit_all.
    eapply Forall_lookup_1; eauto.
  - intros i ci Hi. destruct (decide (i = k)) as [->|Hik].
    + rewrite list_lookup_insert_eq in Hi by (eapply lookup_lt_Some; eauto).
      injection Hi as <-. rewrite visit_count_credit_all, Hl.
      destruct (Hord k c Hc) as [_ Hz]. rewrite (Hz (le_n _)).
      split; intros; lia.
    + rewrite list_lookup_insert_ne in Hi by congruence.
      destruct (Hord i ci Hi) as [Hvis Hzero].
      split; intros L; [apply Hvis|apply Hzero]; lia.
Qed.

Lemma search_loop_tries_in_order env board end_time bound : forall j k tick
    (w : @world Board Gen),
  tried b pl board (Z.of_nat (batch_size env w)) k w ->
  (k + j <= length (get_valid_moves b))%nat ->
  (1 <= batch_size env w)%nat ->
  tame log (exploration_factor (this w)) bound ->
  Z.of_nat (k + j) * Z.of_nat (batch_size env w) <= bound ->
  (forall t, (tick <= t < tick + j)%nat -> now env t < end_time) ->
  exists fuel0 wj,
    tried b pl board (Z.of_nat (batch_size env w)) (k + j) wj /\
    same_search w wj /\
    forall fuel steps, (fuel0 <= fuel)%nat ->
      search_loop log fuel (j + steps) env end_time tick board w
      = search_loop log fuel steps env end_time (tick + j) board wj.
Proof.
  induction j as [|j IH]; intros k tick w T Lk HK Ht Hb Hlt.
  - exists 0%nat, w. rewrite !Nat.add_0_r. split; [exact T|].
    split; [apply same_search_reflexive|]. reflexivity.
  - destruct (iteration_tries_next env board bound k w T ltac:(lia) HK Ht ltac:(nia))
      as (f1 & w1 & H1 & S1 & T1).
    pose proof S1 as (_ & _ & Eef & _ & Epar & _).
    assert (batch_size env w1 = batch_size env w) as EK
      by (unfold batch_size; now rewrite Epar).
    destruct (IH (S k) (S tick) w1) as (f2 & wj & Tj & Sj & Hj).
    { now rewrite EK. }
    { lia. }
    { now rewrite EK. }
    { now rewrite Eef. }
    { rewrite EK. replace (S k + j)%nat with (k + S j)%nat by lia. exact Hb. }
    { intros t Lt. apply Hlt. lia. }
    exists (Nat.max f1 f2), wj.
    rewrite EK in Tj. replace (k + S j)%nat with (S k + j)%nat by lia.
    split; [exact Tj|]. split; [eapply same_search_transitive; eauto|].
    intros fuel steps L. cbn [Nat.add search_loop].
    rewrite (proj2 (Z.ltb_lt _ _) (Hlt tick ltac:(lia))).
    rewrite H1 by lia. cbn [mbind outcome_bind].
    rewrite Hj by lia. now replace (S tick + j)%nat with (tick + S j)%nat by lia.
Qed.

Lemma fresh_tree_root r leaves :
  expand_node 0%nat b [Node_new pl (-1, -1) None] = Returned (r :: leaves) ->
  visit_count r = 0 /\ win_count r = 0.
Proof.
  unfold expand_node.
  rewrite (expand_loop_spec _ [Node_new pl (-1, -1) None] 0%nat _ eq_refl).
  intros [= <- _]. split; reflexivity.
Qed.

(** X18. The order in which the children are tried. Suppose the scores of
    visited children stay below the largest finite [double] for counters up
    to the number of rollouts of the search (so that none is NaN or
    overflows), every rollout ends, and a batch has at least one rollout.
    Then the search tries the children from left to right, one pass each,
    before it tries any child again: after [n] passes the first [n]
    children have had at least one batch of rollouts each and, while [n] is
    below the number of legal moves, the others have had none. *)
Theorem choose_move_tries_every_child (env : Env) (board : nat)
    (w : @world Board Gen) (n : nat) :
  boards w !! board = Some b ->
  get_valid_moves b <> [] ->
  passes env (max_decision_time (this w)) n ->
  (1 <= batch_size env w)%nat ->
  tame log (exploration_factor (this w)) (Z.of_nat (n * batch_size env w)) ->
  exists fuel0 w' r children,
    (forall fuel, (fuel0 <= fuel)%nat ->
       snd (choose_move log fuel env board pl w) = w') /\
    arena (this w') !! 0%nat = Some r /\
    deref_all (arena (this w')) (child_nodes r) = Some children /\
    map move children = get_valid_moves b /\
    forall i c, children !! i = Some c ->
      ((i < n)%nat -> Z.of_nat (batch_size env w) <= visit_count c) /\
      ((n <= i)%nat -> visit_count c = 0).
Proof.
  intros Hb Hne [Hlt Hge] HK Ht.
  destruct (fresh_tree b pl) as (r0 & leaves0 & E0 & Hch0 & Hm0 & Hz0).
  destruct (fresh_tree_root r0 leaves0 E0) as [Hv0 _].
  set (w0 := mkWorld (set_tree (Some 0%nat) (r0 :: leaves0) (this w)) (boards w)).
  set (size := Z.of_nat (batch_size env w)).
  set (m := length (get_valid_moves b)).
  set (end_time := now env 0%nat + max_decision_time (this w)).
  assert (ready b pl board w0) as R0.
  { split; [exact Hb|]. split; [reflexivity|]. now apply expand_node_tree_shape. }
  assert (tried b pl board size 0 w0) as T0.
  { split; [exact R0|]. exists r0, leaves0. split; [reflexivity|].
    split; [now rewrite <- Hm0, length_map|]. split; [exact Hch0|].
    split; [rewrite Hv0; lia|]. split.
    - eapply Forall_impl; [exact Hz0|]. intros c [? ?]. unfold counters_ok. lia.
    - intros i c Hi. split; [lia|]. intros _.
      eapply Forall_lookup_1 in Hz0; [|exact Hi]. tauto. }
  set (j := Nat.min n m).
  destruct (search_loop_tries_in_order env board end_time
              (Z.of_nat (n * batch_size env w)) j 0%nat 1%nat w0 T0)
    as (f1 & wj & Tj & Sj & Hj).
  { subst j m. lia. }
  { exact HK. }
  { exact Ht. }
  { change (batch_size env w0) with (batch_size env w). subst j. nia. }
  { intros t Lt. apply Hlt. subst j. lia. }
  change (batch_size env w0) with (batch_size env w) in Tj. fold size in Tj.
  cbn [Nat.add] in Tj.
  destruct Tj as (Rj & r & leaves & Ea & Hlen & Hch & Hv & Hok & Hord).
  destruct (search_loop_returns log b pl rollouts_end env board end_time Hne
              (n - j) (1 + j)%nat wj Rj) as (f2 & w' & Hret & _).
  { intros t Lt. apply Hlt. lia. }
  { replace (1 + j + (n - j))%nat with (S n) by (subst j; lia). exact Hge. }
  assert (forall fuel, (Nat.max (Nat.max f1 f2) (S n) <= fuel)%nat ->
            search log fuel env board pl w = Returned w') as Hs.
  { intros fuel L. rewrite (search_unfold log b _ _ _ _ _ _ Hb E0).
    fold w0 end_time.
    replace fuel with (j + (fuel - j))%nat at 2 by (subst j; lia).
    rewrite Hj by lia. apply Hret; subst j; lia. }
  pose proof (search_loop_same_search log _ _ _ _ _ _ _ _
                (Hret f2 (S (n - j)) (le_n _) (le_n _))) as (C & _).
  rewrite Ea in C.
  apply Forall2_cons_inv_l in C as (r' & leaves' & Cr & Cl & Ea').
  exists (Nat.max (Nat.max f1 f2) (S n)), w', r', leaves'.
  split. { intros fuel L. unfold choose_move. rewrite (Hs fuel L).
           now destruct (root (this w')). }
  rewrite Ea'. split; [reflexivity|].
  split. { destruct Cr as (_ & _ & -> & _). rewrite Hch.
           rewrite (Forall2_length _ _ _ Cl). apply deref_all_leaves. }
  split.
  { destruct Sj as (Cj & _). rewrite Ea in Cj. cbn in Cj.
    apply Forall2_cons_inv_l in Cj as (? & ? & _ & Cj & [= <- <-]).
    rewrite (credited_map_move _ _ Cl), (credited_map_move _ _ Cj). exact Hm0. }
  intros i c' Hi.
  destruct (Forall2_lookup_r _ _ _ _ _ Cl Hi) as (c & Hc & (_ & _ & _ & _ & Hcr)).
  destruct (Hord i c Hc) as [Hvis Hzero].
  pose proof (lookup_lt_Some _ _ _ Hc) as Li.
  destruct (Nat.le_gt_cases n m) as [Lnm|Lnm].
  - (* no pass is left: the loop ends in the state reached *)
    assert (j = n) as Ej by (subst j; lia).
    assert (w' = wj) as ->.
    { specialize (Hret f2 1%nat (le_n _) ltac:(lia)). cbn [search_loop] in Hret.
      rewrite Ej in Hret. cbn [Nat.add] in Hret. unfold end_time in Hret.
      rewrite (proj2 (Z.ltb_ge _ _) Hge) in Hret. congruence. }
    rewrite Ea in Ea'. injection Ea' as <- <-.
    assert (c' = c) as -> by congruence.
    rewrite Ej in Hvis, Hzero. split; intros L.
    + rewrite (Hvis L). lia.
    + now apply Hzero.
  - assert (j = m) as Ej by (subst j; lia).
    split; intros L; [|subst m; lia].
    rewrite Ej in Hvis. specialize (Hvis ltac:(subst m; lia)). lia.
Qed.

End Coverage.

(** * The theorems on concrete runs *)

Section Runs.

Import Examples.

Local Ltac by_evaluation := apply (bool_decide_unpack _); vm_compute; exact I.

(** The arena after a search of five passes from the empty board, with
    counters of 32 bits. *)
Lemma counters_invariant_witness :
  Forall (fun n => 0 <= win_count n <= visit_count n /\
                   visit_count n <= int32_max)
    (arena (this (snd (run 6 empty_board)))).
Proof.
  destruct (counters_invariant (Board := Hex2) (Gen := Lcg) log_table)
    as (_ & Inv & _ & Run).
  apply Inv.
  apply (Run int32_max 20%nat (clock 0 1 0) 0%nat Blue (started 6 empty_board)
             (snd (run 6 empty_board)) (fst (run 6 empty_board)) 5%nat).
  - split; [intros k Lk; cbn; lia|cbn; lia].
  - cbn. unfold int32_max. lia.
  - apply surjective_pairing.
  - vm_compute. exact I.
Defined.

(** The expansion of a fresh root on the empty board. *)
Lemma expand_node_children_witness :
  exists heap' n' children,
    expand_node 0%nat empty_board [Node_new Blue (-1, -1) None] = Returned heap' /\
    heap' !! 0%nat = Some n' /\
    deref_all heap' (child_nodes n') = Some children /\
    map move children = get_valid_moves empty_board /\
    length (child_nodes n') = length (get_valid_moves empty_board) /\
    NoDup (child_nodes n') /\
    Forall (fun c => player c = player (Node_new Blue (-1, -1) None) /\
                     parent_node c = Some 0%nat) children.
Proof.
  apply (expand_node_children empty_board [Node_new Blue (-1, -1) None] 0%nat
           (Node_new Blue (-1, -1) None)); reflexivity.
Defined.

(** A rollout for Blue from the move (0,0) on the empty board. *)
Lemma simulate_random_playout_rollout_witness :
  let node := Node_new Blue (0, 0) None in
  let start := make_move 0 0 Blue empty_board in
  (forall fuel winner boards' gen',
     simulate_random_playout fuel node 0 [empty_board] (seed_generator 3)
       = Returned (winner, boards', gen') ->
     boards' = [empty_board] /\
     alternating_rollout start Blue (seed_generator 3) winner gen') /\
  (forall winner gen',
     alternating_rollout start Blue (seed_generator 3) winner gen' ->
     exists fuel0, forall fuel, (fuel0 <= fuel)%nat ->
       simulate_random_playout fuel node 0 [empty_board] (seed_generator 3)
       = Returned (winner, [empty_board], gen')) /\
  (check_winner start <> Empty ->
   forall fuel,
     simulate_random_playout (S fuel) node 0 [empty_board] (seed_generator 3)
     = Returned (Blue, [empty_board], seed_generator 3)).
Proof.
  apply (simulate_random_playout_rollout (Node_new Blue (0, 0) None) 0%nat
           [empty_board] empty_board (seed_generator 3)).
  - reflexivity.
  - discriminate.
Defined.

(** Blue takes the last cell of a pair of which Red holds the other: no
    winner, no legal move. *)
Lemma simulate_random_playout_stalemate_witness :
  (forall fuel,
     simulate_random_playout (BoardOps0 := pair2_board) (S fuel)
       (Node_new Blue (0, 1) None) 0 [[Red; Empty]] (seed_generator 3)
     = Undefined) /\
  (forall fuel e,
     simulate_random_playout (BoardOps0 := pair2_board) fuel
       (Node_new Blue (0, 1) None) 0 [[Red; Empty]] (seed_generator 3)
     <> Thrown e).
Proof.
  apply (simulate_random_playout_stalemate (BoardOps0 := pair2_board)
           (Node_new Blue (0, 1) None) 0%nat [[Red; Empty]] [Red; Empty]
           (seed_generator 3)); reflexivity.
Defined.

(** C7, refuted as stated: from a position without a winner and without a
    legal move the simulator ends in undefined behaviour, with no failure
    reported. *)
Lemma simulate_random_playout_no_failure_reported :
  check_winner (BoardOps := pair2_board) [Red; Blue] = Empty /\
  get_valid_moves (BoardOps := pair2_board) [Red; Blue] = [] /\
  simulate_random_playout (BoardOps0 := pair2_board) 10
    (Node_new Blue (0, 1) None) 0 [[Red; Empty]] (seed_generator 3)
  = Undefined.
Proof. vm_compute. repeat split. Qed.

(** The caller's board after a search of five passes. *)
Lemma choose_move_board_unchanged_witness :
  boards (snd (run 6 empty_board))
  = [empty_board] /\
  boards (snd (run 6 empty_board)) !! 0%nat
  = Some empty_board.
Proof.
  apply (choose_move_board_unchanged log_table 20%nat (clock 0 1 0) 0%nat Blue
           (started 6 empty_board) (snd (run 6 empty_board))
           (fst (run 6 empty_board))).
  - apply surjective_pairing.
  - vm_compute. exact I.
Defined.

(** The selector with exploration factor [sqrt2] on [three_tried]. *)
Lemma select_child_first_max_witness :
  let parent := mkNode 2 3 (-1, -1) Blue [1%nat; 2%nat; 3%nat; 4%nat] None in
  let children :=
    [mkNode 0 1 (0, 0) Blue [] (Some 0%nat);
     mkNode 1 1 (0, 1) Blue [] (Some 0%nat);
     mkNode 1 1 (1, 0) Blue [] (Some 0%nat);
     mkNode 0 0 (1, 1) Blue [] (Some 0%nat)] in
  let score := fun c => calculate_uct_score log_table sqrt2 c parent in
  (forall c, visit_count c = 0 -> score c = DBL_MAX) /\
  (forall c, visit_count c <> 0 ->
     score c =
     (double_of_int (win_count c) / double_of_int (visit_count c)
      + sqrt2 * PrimFloat.sqrt (log_table (double_of_int (visit_count parent))
                                / double_of_int (visit_count c)))%float) /\
  (forall x : float, (DBL_MAX <? x)%float = true -> x = infinity) /\
  exists i p c,
    select_child log_table sqrt2 0 three_tried = Returned p /\
    child_nodes parent !! i = Some p /\ children !! i = Some c /\
    (forall j c', (j < i)%nat -> children !! j = Some c' ->
       (score c' <? score c)%float = true) /\
    (forall j c', (i < j)%nat -> children !! j = Some c' ->
       (score c' <=? score c)%float = true) /\
    (Forall (fun c' => visit_count c' <> 0 -> (score c' <? DBL_MAX)%float = true)
            children ->
     (exists c', c' ∈ children /\ visit_count c' = 0) ->
     visit_count c = 0).
Proof.
  intros parent children score.
  apply (select_child_first_max log_table sqrt2 three_tried 0%nat parent children).
  - reflexivity.
  - discriminate.
  - reflexivity.
  - by_evaluation.
Defined.

(** C2, refuted as stated: the score of an unvisited child is the largest
    finite [double], not +infinity. With that same value as exploration
    factor, after three passes from the empty 2 x 2 board the first child,
    visited once, scores +infinity by overflow; the selector returns it and
    the fourth child, never visited, is not tried. *)
Lemma select_child_prefers_visited :
  let root := mkNode 2 3 (-1, -1) Blue [1%nat; 2%nat; 3%nat; 4%nat] None in
  let first := mkNode 0 1 (0, 0) Blue [] (Some 0%nat) in
  let fourth := mkNode 0 0 (1, 1) Blue [] (Some 0%nat) in
  arena (this (snd (choose_move log_table 20 (clock 0 1 0) 0 Blue
                      (mkWorld (agent_with DBL_MAX 4 3) [empty_board]))))
  = three_tried /\
  three_tried !! 1%nat = Some first /\
  three_tried !! 4%nat = Some fourth /\
  calculate_uct_score log_table DBL_MAX fourth root = DBL_MAX /\
  (DBL_MAX <? infinity)%float = true /\
  calculate_uct_score log_table DBL_MAX first root = infinity /\
  select_child log_table DBL_MAX 0 three_tried = Returned 1%nat.
Proof. vm_compute. repeat split. Qed.

(** Every rollout from [endgame_board] ends, whatever the generator. *)
Lemma endgame_rollouts_end (mv : Z * Z) (g : Lcg) :
  mv ∈ get_valid_moves endgame_board ->
  exists winner g',
    rollout (make_move (fst mv) (snd mv) Blue endgame_board) Blue g winner g'.
Proof.
  intros Hin. change (mv ∈ [(0, 1); (1, 0)]) in Hin.
  apply elem_of_cons in Hin as [->|Hin].
  - exists Red, ((1103515245 * g + 12345) mod 2 ^ 31).
    eapply (rollout_move _ Blue g 0 _ (1, 0)).
    + reflexivity.
    + cbn. now rewrite Z.mod_1_r.
    + lia.
    + reflexivity.
    + apply rollout_won. vm_compute. discriminate.
  - apply list_elem_of_singleton in Hin as ->. exists Blue, g.
    apply rollout_won. vm_compute. discriminate.
Qed.




(** A search from a finished game with a budget of zero. *)
Lemma choose_move_no_legal_moves_witness :
  expand_node 0%nat full_board [Node_new Blue (-1, -1) None]
    = Returned [Node_new Blue (-1, -1) None] /\
  (forall e, fst (run 0 full_board) = Thrown e -> e = insufficient_statistics) /\
  ((now (clock 0 1 0) 1 <? now (clock 0 1 0) 0 + 0) = false ->
   fst (run 0 full_board) = Thrown insufficient_statistics).
Proof.
  apply (choose_move_no_legal_moves log_table 19%nat (clock 0 1 0) 0%nat Blue
           (started 0 full_board) full_board); reflexivity.
Defined.

(** C5, refuted as stated: on a finished game, where the board has no legal
    move, a search whose budget is used up at once fails with the
    insufficient-statistics error, the one it also fails with when there are
    legal moves and no statistics. *)
Lemma choose_move_no_error_of_its_own :
  get_valid_moves full_board = [] /\
  fst (run 0 full_board)
  = Thrown (runtime_error "Statistics are not sufficient to find the best child.") /\
  insufficient_statistics
  = runtime_error "Statistics are not sufficient to find the best child.".
Proof. vm_compute. repeat split. Qed.

(** Two clocks with different origins and thread counts that both let the
    loop make two passes. *)
Lemma choose_move_deterministic_witness :
  run 3 empty_board
  = choose_move log_table 20 (clock 100 1 8) 0 Blue (started 3 empty_board).
Proof.
  apply (choose_move_deterministic log_table 20%nat (clock 0 1 0) (clock 100 1 8)
           0%nat Blue (started 3 empty_board) 2%nat).
  - reflexivity.
  - split; [intros k Hk; cbn; lia|cbn; lia].
  - split; [intros k Hk; cbn; lia|cbn; lia].
Defined.

(** C8, refuted as stated: the same agent in the same state, single-threaded,
    on the same position and with the same budget of three ticks chooses
    (0,1) under a clock that lets the loop make two passes and (0,0) under a
    clock twice as fast, which lets it make one. *)
Lemma choose_move_depends_on_clock :
  is_parallelized (this (started 3 empty_board)) = false /\
  fst (run 3 empty_board)
  = Returned (0, 1) /\
  fst (choose_move log_table 20 (clock 0 2 0) 0 Blue (started 3 empty_board))
  = Returned (0, 0).
Proof. vm_compute. repeat split. Qed.

End Runs.

(** * The game of the examples keeps the contract *)

Section Hex2Contract.

Import Examples.

Lemma lcg_draw_in_range (a b : Z) (g : Lcg) :
  a <= b -> a <= fst (uniform_int a b g) <= b.
Proof.
  intros L. cbn. pose proof (Z.mod_pos_bound (g / 2 ^ 16) (b - a + 1)). lia.
Qed.

Local Ltac each_cell b :=
  destruct b as [|[] [|[] [|[] [|[] [|? ?]]]]]; try discriminate.

Local Ltac each_member H :=
  repeat (apply elem_of_cons in H as [->|H]); try (now apply elem_of_nil in H).

Lemma hex2_no_stalemate (x : Hex2) :
  hex2_good x -> get_valid_moves x = [] -> check_winner x <> Empty.
Proof.
  unfold hex2_good. intros Hx Hm. each_cell x; try discriminate Hm;
    vm_compute; discriminate.
Qed.

Lemma hex2_move_used_up (x : Hex2) (mv : Z * Z) (p : Cell_state) :
  hex2_good x -> mv ∈ get_valid_moves x -> p <> Empty ->
  hex2_good (make_move (fst mv) (snd mv) p x) /\
  (length (get_valid_moves (make_move (fst mv) (snd mv) p x))
   < length (get_valid_moves x))%nat.
Proof.
  unfold hex2_good. intros Hx Hin Hp.
  split; [cbn; now rewrite length_insert|].
  destruct p; [contradiction| |];
    each_cell x; vm_compute in Hin; each_member Hin; vm_compute; lia.
Qed.

End Hex2Contract.

(** * Further runs *)

Section MoreRuns.

Import Examples.

(** A backpropagation of a win for Red from the grandchild of [deep_tree],
    with counters of 32 bits: three nodes are on the way up, the second
    child is not. *)
Lemma backpropagate_credits_path_witness :
  exists heap',
    (forall fuel, (2 < fuel)%nat ->
       backpropagate fuel (Some 2%nat) Red deep_tree = Returned heap') /\
    length heap' = length deep_tree /\
    (forall i n, deep_tree !! i = Some n ->
       (on_path deep_tree 2 i ->
        exists n', heap' !! i = Some n' /\
          visit_count n' = visit_count n + 1 /\
          win_count n'
          = win_count n + (if decide (Red = player n) then 1 else 0) /\
          visit_count n' <= int32_max /\ win_count n' <= int32_max /\
          credited n n') /\
       (~ on_path deep_tree 2 i -> heap' !! i = Some n)).
Proof.
  apply (backpropagate_credits_path int32_max Red 2%nat deep_tree).
  - intros [|[|[|[|i]]]] n q H1 H2; cbn in H1; try discriminate;
      injection H1 as <-; cbn in H2; try discriminate; injection H2 as <-; lia.
  - cbn. eauto.
  - intros [|[|[|[|i]]]] n H1 _; cbn in H1; try discriminate;
      injection H1 as <-; cbn; unfold int32_max; lia.
Defined.

(** Expanding the root of [expanded_empty] once more. *)
Lemma expand_node_appends_witness :
  exists heap' n',
    expand_node 0%nat empty_board expanded_empty = Returned heap' /\
    length heap' = (length expanded_empty + 4)%nat /\
    heap' !! 0%nat = Some n' /\
    child_nodes n' = [1; 2; 3; 4; 5; 6; 7; 8]%nat.
Proof.
  destruct (expand_node_appends empty_board expanded_empty 0%nat) as [A _].
  destruct (A _ eq_refl) as (heap' & n' & E & Hl & Hn & Hc & _).
  exists heap', n'. repeat split; assumption.
Defined.

Lemma choose_move_returns_legal_move_witness :
  (0, 1) ∈ get_valid_moves empty_board.
Proof.
  apply (choose_move_returns_legal_move log_table 20%nat (clock 0 1 0) 0%nat
           Blue (started 6 empty_board) (snd (run 6 empty_board))
           empty_board (0, 1)).
  - reflexivity.
  - vm_compute. reflexivity.
Defined.

(** The tree after a search that ends with the error. *)
Lemma choose_move_leaves_flat_tree_witness :
  root (this (snd (run 0 empty_board))) = Some 0%nat /\
  flat_tree Blue (get_valid_moves empty_board)
            (arena (this (snd (run 0 empty_board)))) /\
  length (arena (this (snd (run 0 empty_board))))
  = S (length (get_valid_moves empty_board)) /\
  exploration_factor (this (snd (run 0 empty_board)))
  = exploration_factor (this (started 0 empty_board)) /\
  max_decision_time (this (snd (run 0 empty_board)))
  = max_decision_time (this (started 0 empty_board)) /\
  is_parallelized (this (snd (run 0 empty_board)))
  = is_parallelized (this (started 0 empty_board)).
Proof.
  apply (choose_move_leaves_flat_tree log_table 20%nat (clock 0 1 0) 0%nat
           Blue (started 0 empty_board) (snd (run 0 empty_board)) empty_board
           (fst (run 0 empty_board))).
  - reflexivity.
  - apply surjective_pairing.
  - vm_compute. exact I.
Defined.

(** The root after five passes of one rollout each, with counters of 32
    bits. *)
Lemma choose_move_root_totals_witness :
  exists r children,
    arena (this (snd (run 6 empty_board))) !! 0%nat = Some r /\
    deref_all (arena (this (snd (run 6 empty_board)))) (child_nodes r)
      = Some children /\
    visit_count r
    = Z.of_nat (5 * batch_size (clock 0 1 0) (started 6 empty_board)) /\
    sum_visits children = visit_count r /\
    sum_wins children = win_count r /\
    Forall (fun n => win_count n <= int32_max /\ visit_count n <= int32_max)
           (arena (this (snd (run 6 empty_board)))).
Proof.
  apply (choose_move_root_totals log_table int32_max 20%nat (clock 0 1 0)
           0%nat Blue (started 6 empty_board) (snd (run 6 empty_board))
           empty_board (fst (run 6 empty_board)) 5%nat).
  - reflexivity.
  - split; [intros k Lk; cbn; lia|cbn; lia].
  - cbn. unfold int32_max. lia.
  - apply surjective_pairing.
  - vm_compute. exact I.
Defined.

Lemma expanded_single_ready : ready empty_board Blue 0%nat expanded_single.
Proof.
  split; [reflexivity|]. split; [reflexivity|].
  apply expand_node_tree_shape. reflexivity.
Qed.

(** The first pass in single mode, with counters of 32 bits. *)
Lemma iteration_credits_child_and_root_witness :
  exists p c r c' r' results,
    (1 <= p <= length (get_valid_moves empty_board))%nat /\
    arena (this expanded_single) !! p = Some c /\
    arena (this expanded_single) !! 0%nat = Some r /\
    arena (this after_first_pass) !! p = Some c' /\
    arena (this after_first_pass) !! 0%nat = Some r' /\
    length results = batch_size (clock 0 1 0) expanded_single /\
    Forall (fun winner => exists g g',
              alternating_rollout
                (make_move (fst (move c)) (snd (move c)) Blue empty_board)
                Blue g winner g') results /\
    visit_count c'
    = visit_count c + Z.of_nat (batch_size (clock 0 1 0) expanded_single) /\
    visit_count r'
    = visit_count r + Z.of_nat (batch_size (clock 0 1 0) expanded_single) /\
    win_count c' = win_count c + wins_of (player c) results /\
    win_count r' = win_count r + wins_of (player r) results /\
    Forall (fun n => win_count n <= int32_max /\ visit_count n <= int32_max)
           [c'; r'] /\
    (forall i, i <> 0%nat -> i <> p ->
       arena (this after_first_pass) !! i
       = arena (this expanded_single) !! i) /\
    boards after_first_pass = boards expanded_single.
Proof.
  apply (iteration_credits_child_and_root log_table int32_max 10%nat
           (clock 0 1 0) 0%nat empty_board Blue expanded_single
           after_first_pass).
  - exact expanded_single_ready.
  - discriminate.
  - cbn. lia.
  - repeat constructor.
  - vm_compute. reflexivity.
Defined.

(** A budget of zero. *)
Lemma choose_move_zero_budget_witness :
  exists w',
    (forall fuel, (1 <= fuel)%nat ->
       choose_move log_table fuel (clock 0 1 0) 0%nat Blue
         (started 0 empty_board) = (Thrown insufficient_statistics, w')) /\
    random_generator (this w') = random_generator (this (started 0 empty_board)) /\
    boards w' = boards (started 0 empty_board) /\
    length (arena (this w')) = S (length (get_valid_moves empty_board)) /\
    Forall (fun n => visit_count n = 0) (arena (this w')).
Proof.
  apply (choose_move_zero_budget log_table (clock 0 1 0) 0%nat Blue
           (started 0 empty_board) empty_board).
  - reflexivity.
  - cbn. lia.
Defined.

(** Five passes in parallel mode without hardware threads. *)
Lemma choose_move_no_hardware_threads_witness :
  exists w',
    (forall fuel, (5 < fuel)%nat ->
       choose_move log_table fuel (clock 0 1 0) 0%nat Blue
         (in_mode true (started 6 empty_board))
       = (Thrown insufficient_statistics, w')) /\
    random_generator (this w')
    = random_generator (this (in_mode true (started 6 empty_board))) /\
    Forall (fun n => visit_count n = 0) (arena (this w')).
Proof.
  apply (choose_move_no_hardware_threads log_table (clock 0 1 0) 0%nat Blue
           (in_mode true (started 6 empty_board)) empty_board 5%nat).
  - reflexivity.
  - vm_compute. discriminate.
  - reflexivity.
  - reflexivity.
  - split; [intros k Lk; cbn; lia|cbn; lia].
Defined.

(** One pass from [endgame_board]: Blue is given (0,1), the move that loses. *)
Lemma choose_move_single_pass_witness :
  exists fuel0 w',
    forall fuel, (fuel0 <= fuel)%nat ->
      choose_move log_table fuel (clock 0 1 0) 0%nat Blue
        (started 2 endgame_board) = (Returned (0, 1), w').
Proof.
  apply (choose_move_single_pass log_table (clock 0 1 0) 0%nat Blue
           (started 2 endgame_board) endgame_board (0, 1) [(1, 0)]).
  - reflexivity.
  - reflexivity.
  - apply endgame_rollouts_end.
  - split; [intros k Lk; cbn; lia|cbn; lia].
  - cbn. lia.
  - reflexivity.
Defined.

(** An exploration factor that is NaN: the first child of [three_tried] is
    returned although the fourth has not been visited. *)
Lemma select_child_nan_scores_witness :
  (is_nan (calculate_uct_score log_table nan
             (mkNode 0 1 (0, 0) Blue [] (Some 0%nat))
             (mkNode 2 3 (-1, -1) Blue [1%nat; 2%nat; 3%nat; 4%nat] None)) = true ->
   select_child log_table nan 0%nat three_tried = Returned 1%nat) /\
  (forall p, select_child log_table nan 0%nat three_tried = Returned p ->
     p = 1%nat \/
     exists c, p ∈ [2%nat; 3%nat; 4%nat] /\ three_tried !! p = Some c /\
       is_nan (calculate_uct_score log_table nan c
                 (mkNode 2 3 (-1, -1) Blue [1%nat; 2%nat; 3%nat; 4%nat] None))
       = false).
Proof.
  apply (select_child_nan_scores log_table nan three_tried 0%nat
           (mkNode 2 3 (-1, -1) Blue [1%nat; 2%nat; 3%nat; 4%nat] None)
           1%nat [2%nat; 3%nat; 4%nat]
           [ mkNode 0 1 (0, 0) Blue [] (Some 0%nat);
             mkNode 1 1 (0, 1) Blue [] (Some 0%nat);
             mkNode 1 1 (1, 0) Blue [] (Some 0%nat);
             mkNode 0 0 (1, 1) Blue [] (Some 0%nat) ]
           (mkNode 0 1 (0, 0) Blue [] (Some 0%nat)));
    reflexivity.
Defined.

(** A rollout for Blue from (0,0) on the empty board, won by Red. *)
Lemma simulate_random_playout_names_a_player_witness :
  (Red = player (Node_new Blue (0, 0) None) \/
   Red = opponent (player (Node_new Blue (0, 0) None))) /\
  Red <> Empty.
Proof.
  apply (simulate_random_playout_names_a_player 10%nat (Node_new Blue (0, 0) None)
           0%nat [empty_board] [empty_board] (seed_generator 3) 679304702 Red).
  - discriminate.
  - vm_compute. reflexivity.
Defined.

(** The same rollout on the board that reports the other player. *)
Lemma simulate_random_playout_ignores_winner_identity_witness :
  @simulate_random_playout _ _ hex2_swapped _ 10%nat (Node_new Blue (0, 0) None)
    0%nat [empty_board] (seed_generator 3)
  = @simulate_random_playout _ _ hex2_board _ 10%nat (Node_new Blue (0, 0) None)
    0%nat [empty_board] (seed_generator 3).
Proof.
  apply (simulate_random_playout_ignores_winner_identity hex2_board hex2_swapped).
  - reflexivity.
  - reflexivity.
  - intros x. cbn. now destruct (hex2_winner x).
Defined.



(** Parallel mode with one hardware thread against single mode. *)
Lemma choose_move_one_thread_witness :
  choose_move log_table 20%nat (clock 0 1 1) 0%nat Blue
    (in_mode true (started 6 empty_board))
  = (fst (choose_move log_table 20%nat (clock 0 1 1) 0%nat Blue
            (in_mode false (started 6 empty_board))),
     in_mode true
       (snd (choose_move log_table 20%nat (clock 0 1 1) 0%nat Blue
               (in_mode false (started 6 empty_board))))).
Proof.
  apply (choose_move_one_thread log_table 20%nat (clock 0 1 1) 0%nat Blue
           (started 6 empty_board)).
  reflexivity.
Defined.

(** A search from a finished game with time on the clock. *)
Lemma choose_move_no_moves_undefined_witness :
  choose_move log_table 20%nat (clock 0 1 0) 0%nat Blue (started 6 full_board)
  = (Undefined, started 6 full_board).
Proof.
  apply (choose_move_no_moves_undefined log_table 19%nat (clock 0 1 0) 0%nat
           Blue (started 6 full_board) full_board).
  - reflexivity.
  - reflexivity.
  - cbn. lia.
Defined.

(** An agent constructed with [is_parallelized = true] by a class that
    declares the member as false, on a machine with eight hardware threads
    and counters of 32 bits: five passes, five rollouts. *)
Lemma constructor_drops_parallel_argument_witness :
  (true && false = false) /\
  is_parallelized (agent_with sqrt2 6 3) = false /\
  exists r,
    arena (this (snd (choose_move log_table 20%nat (clock 0 1 8) 0%nat Blue
                        (started 6 empty_board)))) !! 0%nat = Some r /\
    visit_count r
    = Z.of_nat (5 * (if false then hardware_concurrency (clock 0 1 8) else 1)) /\
    Forall (fun n => visit_count n <= int32_max)
      (arena (this (snd (choose_move log_table 20%nat (clock 0 1 8) 0%nat Blue
                          (started 6 empty_board))))).
Proof.
  apply (constructor_drops_parallel_argument log_table int32_max false 3 sqrt2
           6 true false (agent_with sqrt2 6 3) 20%nat (clock 0 1 8) 0%nat Blue
           [empty_board] empty_board
           (fst (choose_move log_table 20%nat (clock 0 1 8) 0%nat Blue
                   (started 6 empty_board)))
           (snd (choose_move log_table 20%nat (clock 0 1 8) 0%nat Blue
                   (started 6 empty_board))) 5%nat).
  - reflexivity.
  - reflexivity.
  - split; [intros k Lk; cbn; lia|cbn; lia].
  - cbn. unfold int32_max. lia.
  - apply surjective_pairing.
  - vm_compute. exact I.
Defined.

(** The scores under [log_table] and the exploration factor of the
    examples, for counters up to three. *)
Lemma tame_up_to_three : tame log_table sqrt2 3.
Proof.
  intros [wc vc mc pc cc parc] [wr vr mr pr cr parr] [H1 H2] Hv Hr.
  cbn [win_count visit_count] in *.
  assert (vc = 1 \/ vc = 2 \/ vc = 3) as Hvc by lia.
  assert (vr = 1 \/ vr = 2 \/ vr = 3) as Hvr by lia.
  assert (wc = 0 \/ wc = 1 \/ wc = 2 \/ wc = 3) as Hwc by lia.
  clear H1 H2 Hv Hr.
  repeat match goal with H : _ \/ _ |- _ => destruct H end; subst;
    vm_compute; reflexivity.
Qed.

(** Three passes from the empty board: the first three children have been
    tried, the fourth has not. *)
Lemma choose_move_tries_every_child_witness :
  exists fuel0 w' r children,
    (forall fuel, (fuel0 <= fuel)%nat ->
       snd (choose_move log_table fuel (clock 0 1 0) 0%nat Blue
              (started 4 empty_board)) = w') /\
    arena (this w') !! 0%nat = Some r /\
    deref_all (arena (this w')) (child_nodes r) = Some children /\
    map move children = get_valid_moves empty_board /\
    forall i c, children !! i = Some c ->
      ((i < 3)%nat ->
       Z.of_nat (batch_size (clock 0 1 0) (started 4 empty_board))
       <= visit_count c) /\
      ((3 <= i)%nat -> visit_count c = 0).
Proof.
  apply (choose_move_tries_every_child log_table empty_board Blue
           (contract_rollouts_end hex2_good hex2_move_used_up hex2_no_stalemate
              lcg_draw_in_range empty_board Blue eq_refl ltac:(discriminate))
           (clock 0 1 0) 0%nat (started 4 empty_board) 3%nat).
  - reflexivity.
  - vm_compute. discriminate.
  - split; [intros k Lk; cbn; lia|cbn; lia].
  - cbn. lia.
  - exact tame_up_to_three.
Defined.

End MoreRuns.
